(** * VAMPIRE: dipole initialisation, standard-deviation statistic, vio interface

    A shallow embedding of three translation units of the VAMPIRE package:

    - [vio::match_input_parameter] and [vio::match_material_parameter]
      (src/vio/interface.cpp);
    - [stats::standard_deviation_statistic_t] (constructor, [initialize],
      [update], [reset_averages]);
    - [dipole::initialize] with its demagnetisation-tensor diagnostic.

    Conventions of the embedding.

    - A C++ [double] is a real number of [R]: the development is about exact
      arithmetic.  A division whose divisor is a run-time value goes through
      [fdiv], which reports [DivideByZero] instead of producing the
      infinities and NaNs of IEEE arithmetic.
    - A C++ [int] is an integer of [Z] checked against the 32-bit range:
      signed overflow is undefined behaviour and is reported as
      [SignedOverflow].
    - [std::vector::operator[]] is [vec_at]: an index outside the vector is
      undefined behaviour and is reported as [OutOfRange].
    - Sizes of vectors and the counters of loops that run over them are
      natural numbers.
    - Code that can run into one of these situations returns an [outcome]. *)

From Stdlib Require Import String ZArith List Bool Arith Lia.
From Stdlib Require Import Reals Lra.
From Stdlib Require Import Permutation.
Import ListNotations.

(* ================================================================== *)
(** * Outcomes of partial computations *)
(* ================================================================== *)

Inductive fault : Type :=
| OutOfRange
| DivideByZero
| SignedOverflow
| AllocationFailure
| ProcessExit.

Inductive outcome (A : Type) : Type :=
| Ok (a : A)
| Fault (f : fault).

Arguments Ok {A} a.
Arguments Fault {A} f.

Definition bind {A B : Type} (m : outcome A) (k : A -> outcome B) : outcome B :=
  match m with
  | Ok a => k a
  | Fault f => Fault f
  end.

Declare Scope outcome_scope.
Delimit Scope outcome_scope with outcome.
Notation "x <- m ;; k" := (bind m (fun x => k))
  (at level 61, m at next level, right associativity) : outcome_scope.
Notation "' pat <- m ;; k" := (bind m (fun x => match x with pat => k end))
  (at level 61, pat pattern, m at next level, right associativity) : outcome_scope.

(** A [for] loop whose body threads an accumulator and may fault. *)
Fixpoint for_each {I A : Type} (body : I -> A -> outcome A) (idxs : list I) (a : A)
  : outcome A :=
  match idxs with
  | [] => Ok a
  | i :: rest => bind (body i a) (for_each body rest)
  end.

(** [v[i]] for a [std::vector] and an index of type [std::size_t]. *)
Definition vec_at_nat {A : Type} (v : list A) (i : nat) : outcome A :=
  match nth_error v i with
  | Some x => Ok x
  | None => Fault OutOfRange
  end.

(** [v[i]] for an index of type [int]: a negative index converts to a huge
    [size_t] and is out of range. *)
Definition vec_at {A : Type} (v : list A) (i : Z) : outcome A :=
  if (i <? 0)%Z then Fault OutOfRange else vec_at_nat v (Z.to_nat i).

(** [v[i] = x]. *)
Fixpoint vec_set {A : Type} (v : list A) (i : nat) (x : A) : outcome (list A) :=
  match v, i with
  | [], _ => Fault OutOfRange
  | _ :: t, O => Ok (x :: t)
  | h :: t, S i' => bind (vec_set t i' x) (fun t' => Ok (h :: t'))
  end.

(** [v.resize(n, x)]: truncate, or pad with copies of [x]. *)
Definition vec_resize {A : Type} (v : list A) (n : nat) (x : A) : list A :=
  firstn n v ++ repeat x (n - length v).

(** Division of doubles by a run-time divisor. *)
Definition fdiv (x y : R) : outcome R :=
  if Req_dec_T y 0%R then Fault DivideByZero else Ok (x / y)%R.

(** The range of a 32-bit [int]. *)
Definition int_min : Z := (- 2 ^ 31)%Z.
Definition int_max : Z := (2 ^ 31 - 1)%Z.

Definition in_int_range (z : Z) : bool :=
  ((int_min <=? z) && (z <=? int_max))%Z.

Definition int_checked (z : Z) : outcome Z :=
  if in_int_range z then Ok z else Fault SignedOverflow.

Definition int_add (a b : Z) : outcome Z := int_checked (a + b).
Definition int_mul (a b : Z) : outcome Z := int_checked (a * b).

(** The sum of a list of reals. *)
Definition Rsum (l : list R) : R := fold_right Rplus 0%R l.

(* ================================================================== *)
(** * namespace vio *)
(* ================================================================== *)

Module vio.

Open Scope string_scope.

(** [bool match_input_parameter(key, word, value, unit, line)]. *)
Definition match_input_parameter
    (key word value unit : string) (line : Z) : bool :=
  let prefix := "vio" in
  if negb (String.eqb key prefix) then false
  else
    (* Keyword not found *)
    false.

(** [bool match_material_parameter(word, value, unit, line, super_index,
    sub_index)]. *)
Definition match_material_parameter
    (word value unit : string) (line super_index sub_index : Z) : bool :=
  let prefix := "material:" in
  (* Keyword not found *)
  false.

End vio.

(* ================================================================== *)
(** * namespace stats: standard_deviation_statistic_t *)
(* ================================================================== *)

Module stats.

Open Scope R_scope.
Open Scope outcome_scope.

(** What the statistic uses of [stats::magnetization_statistic_t], a class
    that is declared elsewhere: the two accessors called by [initialize]. *)
Record magnetization_statistic_t : Type := {
  is_initialized : bool;
  get_magnetization : list R
}.

(** The data members of [standard_deviation_statistic_t].  [idx], [res1]
    and [res2] are members too: [update] assigns them without declaring
    them.  Sizes and loop counters are natural numbers. *)
Record standard_deviation_statistic_t : Type := {
  initialized : bool;
  num_elements : nat;
  idx : nat;
  mean_counter : R;
  res1 : R;
  res2 : R;
  residual_sq : list R;
  mean : list R
}.

(** The constructor has an empty body: the two vectors are
    default-constructed (empty), the scalar members keep whatever value
    [indeterminate] gives them. *)
Definition standard_deviation_statistic
    (indeterminate : standard_deviation_statistic_t)
  : standard_deviation_statistic_t :=
  {| initialized := initialized indeterminate;
     num_elements := num_elements indeterminate;
     idx := idx indeterminate;
     mean_counter := mean_counter indeterminate;
     res1 := res1 indeterminate;
     res2 := res2 indeterminate;
     residual_sq := [];
     mean := [] |}.

(** [void initialize(stats::magnetization_statistic_t& mag_stat)].
    [err::vexit()] ends the process. *)
Definition initialize
    (this : standard_deviation_statistic_t) (mag_stat : magnetization_statistic_t)
  : outcome standard_deviation_statistic_t :=
  if negb (is_initialized mag_stat) then Fault ProcessExit
  else
    let temp := get_magnetization mag_stat in
    let num_elements' := (List.length temp / 4)%nat in
    Ok {| initialized := true;
          num_elements := num_elements';
          idx := idx this;
          mean_counter := 0;
          res1 := res1 this;
          res2 := res2 this;
          residual_sq := vec_resize (residual_sq this) (4 * num_elements') 0;
          mean := vec_resize (mean this) (4 * num_elements') 0 |}.

(** The body of the inner loop of [update], for one [id] and one [dir]. *)
Definition update_element
    (magnetization : list R) (id dir : nat) (this : standard_deviation_statistic_t)
  : outcome standard_deviation_statistic_t :=
  let idx' := (4 * id + dir)%nat in
  m <- vec_at_nat magnetization idx' ;;
  mu <- vec_at_nat (mean this) idx' ;;
  let res1' := m - mu in
  q <- fdiv res1' (mean_counter this) ;;
  mean' <- vec_set (mean this) idx' (mu + q) ;;
  mu' <- vec_at_nat mean' idx' ;;
  let res2' := m - mu' in
  r <- vec_at_nat (residual_sq this) idx' ;;
  residual_sq' <- vec_set (residual_sq this) idx' (r + res1' * res2') ;;
  Ok {| initialized := initialized this;
        num_elements := num_elements this;
        idx := idx';
        mean_counter := mean_counter this;
        res1 := res1';
        res2 := res2';
        residual_sq := residual_sq';
        mean := mean' |}.

(** [void update(const std::vector<double>& magnetization)]. *)
Definition update
    (this : standard_deviation_statistic_t) (magnetization : list R)
  : outcome standard_deviation_statistic_t :=
  let this1 :=
    {| initialized := initialized this;
       num_elements := num_elements this;
       idx := idx this;
       mean_counter := mean_counter this + 1;
       res1 := res1 this;
       res2 := res2 this;
       residual_sq := residual_sq this;
       mean := mean this |} in
  for_each
    (fun id => for_each (update_element magnetization id) (seq 0 4))
    (seq 0 (num_elements this1)) this1.

(** [void reset_averages()]: [std::fill] of both vectors with [0.0]. *)
Definition reset_averages (this : standard_deviation_statistic_t)
  : standard_deviation_statistic_t :=
  {| initialized := initialized this;
     num_elements := num_elements this;
     idx := idx this;
     mean_counter := 0;
     res1 := res1 this;
     res2 := res2 this;
     residual_sq := map (fun _ => 0) (residual_sq this);
     mean := map (fun _ => 0) (mean this) |}.

(** A run of the statistic: construction, [initialize], then one [update]
    per sample, in order. *)
Definition updates
    (this : standard_deviation_statistic_t) (samples : list (list R))
  : outcome standard_deviation_statistic_t :=
  for_each (fun v st => update st v) samples this.

Definition run
    (indeterminate : standard_deviation_statistic_t)
    (mag_stat : magnetization_statistic_t) (samples : list (list R))
  : outcome standard_deviation_statistic_t :=
  st <- initialize (standard_deviation_statistic indeterminate) mag_stat ;;
  updates st samples.

(** The two recurrences of Welford's algorithm, for one index: the new
    mean and the new sum of squared residuals after the sample [m], when
    [c] samples have been seen, [m] included. *)
Definition welford_mean (c m mu : R) : R := mu + (m - mu) / c.

Definition welford_residual (c m mu r : R) : R :=
  r + (m - mu) * (m - welford_mean c m mu).

(** The values the samples have at one index. *)
Definition column (i : nat) (samples : list (list R)) : list R :=
  map (fun v => nth i v 0) samples.

Definition arithmetic_mean (l : list R) : R := Rsum l / INR (List.length l).

Definition sum_sq_dev (mu : R) (l : list R) : R :=
  Rsum (map (fun x => (x - mu) * (x - mu)) l).

(** What [output_standard_deviation] writes for one number.  Every number
    is followed by a tab; how a finite number is rendered ([vout::precision],
    [vout::fixed]) is left out.  [non_finite] stands for the infinities and
    NaNs of the doubles, which exact arithmetic does not have. *)
Inductive printed : Type :=
| number (x : R)
| non_finite.

(** [const double imean_counter = 1.0/mean_counter;]: an infinity when the
    counter is zero. *)
Definition inverse_counter (mean_counter : R) : option R :=
  if Req_dec_T mean_counter 0 then None else Some (1 / mean_counter).

(** [sqrt(residual*imean_counter)]: the product with an infinity is an
    infinity or a NaN, and so is its root; the root of a negative number is
    a NaN. *)
Definition std_of (residual : R) (imean_counter : option R) : printed :=
  match imean_counter with
  | None => non_finite
  | Some imean =>
      if Rlt_dec (residual * imean) 0 then non_finite
      else number (sqrt (residual * imean))
  end.

(** [std::string output_standard_deviation()], as the list of the numbers
    written.  The loop runs over [id < num_elements - 1]: the last element
    is ignored. *)
Definition output_standard_deviation (this : standard_deviation_statistic_t)
  : outcome (list printed) :=
  let imean_counter := inverse_counter (mean_counter this) in
  for_each
    (fun id result =>
       rx <- vec_at_nat (residual_sq this) (4 * id + 0) ;;
       ry <- vec_at_nat (residual_sq this) (4 * id + 1) ;;
       rz <- vec_at_nat (residual_sq this) (4 * id + 2) ;;
       rm <- vec_at_nat (residual_sq this) (4 * id + 3) ;;
       Ok (result ++ [std_of rx imean_counter; std_of ry imean_counter;
                      std_of rz imean_counter; std_of rm imean_counter]))
    (seq 0 (num_elements this - 1)) [].

(** The standard deviation of a list of values about their mean. *)
Definition std_dev (l : list R) : R :=
  sqrt (sum_sq_dev (arithmetic_mean l) l / INR (List.length l)).

End stats.

(* ================================================================== *)
(** * Collaborators of the dipole module *)
(* ================================================================== *)

(** The six independent components of a symmetric 3x3 tensor, and six
    values named after them: [rij_intra_xx] of the source is
    [xx (rij_intra _)], and so on. *)
Inductive comp : Type := XX | XY | XZ | YY | YZ | ZZ.

Record sym6 (A : Type) : Type := {
  xx : A; xy : A; xz : A; yy : A; yz : A; zz : A
}.

Arguments xx {A} _.
Arguments xy {A} _.
Arguments xz {A} _.
Arguments yy {A} _.
Arguments yz {A} _.
Arguments zz {A} _.

Definition get {A : Type} (c : comp) (t : sym6 A) : A :=
  match c with
  | XX => xx t | XY => xy t | XZ => xz t
  | YY => yy t | YZ => yz t | ZZ => zz t
  end.

Definition tabulate {A : Type} (f : comp -> A) : sym6 A :=
  {| xx := f XX; xy := f XY; xz := f XZ; yy := f YY; yz := f YZ; zz := f ZZ |}.

Definition is_diagonal (c : comp) : bool :=
  match c with
  | XX | YY | ZZ => true
  | XY | XZ | YZ => false
  end.

(** [std::vector< std::vector<double> >], indexed [m[lc][j]]. *)
Definition matrix : Type := list (list R).

Definition mat_at (m : matrix) (lc j : nat) : outcome R :=
  bind (vec_at_nat m lc) (fun row => vec_at_nat row j).

(** The globals of namespace [cells] that [dipole::initialize] touches. *)
Module cells.

Record t : Type := {
  num_cells : Z;
  num_atoms_in_cell : list Z;
  cell_id_array : list Z
}.

End cells.

(** What is written to [zlog] and [std::cout].  Elapsed times are wall-clock
    readings and are left out of the messages that print them. *)
Inductive message : Type :=
| Warning_already_initialised
| Initialising_dipole_field_calculation
| Requires_MB_of_RAM (mb : R)
| Number_of_local_cells (n : Z)
| Number_of_total_cells (n : Z)
| Precalculating_rij_matrix
| Done
| Precalculation_complete
| Time_required_for_dipole_update
| Outputting_dipole_matrix
| Demagnetisation_tensor_header
| Demagnetisation_tensor_values (values : list R).

(** What one call does to the outside, in order of execution. *)
Inductive event : Type :=
| zlog (m : message)
| cout (m : message)
| call_allocate_memory (num_local_cells num_cells : Z)
| call_initialize_tensor_solver
| call_barrier
| set_initialised
| call_calculate_field.

(* ================================================================== *)
(** * namespace dipole *)
(* ================================================================== *)

Module dipole.

Open Scope R_scope.
Open Scope outcome_scope.

(** The variables of namespace [dipole::internal] used by [initialize]. *)
Module internal.

Record t : Type := {
  initialised : bool;
  rij_intra : sym6 matrix;
  rij_inter : sym6 matrix;
  num_atoms : Z;
  atom_type_array : list Z;
  atom_cell_id_array : list Z;
  cells_num_cells : Z;
  cells_num_local_cells : Z;
  cells_local_cell_array : list Z;
  cells_num_atoms_in_cell : list Z;
  cells_volume_array : list R;
  cells_pos_and_mom_array : list R
}.

End internal.

(** The parameters of [dipole::initialize], under their names. *)
Record arguments : Type := {
  cells_num_atoms_in_unit_cell : Z;
  cells_num_cells : Z;
  cells_num_local_cells : Z;
  cells_macro_cell_size : R;
  cells_local_cell_array : list Z;
  cells_num_atoms_in_cell : list Z;
  cells_num_atoms_in_cell_global : list Z;
  cells_index_atoms_array : list (list Z);
  cells_volume_array : list R;
  cells_pos_and_mom_array : list R;
  cells_atom_in_cell_coords_array_x : list (list R);
  cells_atom_in_cell_coords_array_y : list (list R);
  cells_atom_in_cell_coords_array_z : list (list R);
  atom_type_array : list Z;
  atom_cell_id_array : list Z;
  atom_coords_x : list R;
  atom_coords_y : list R;
  atom_coords_z : list R;
  num_atoms : Z
}.

(** A 3-vector. *)
Definition vec3 : Type := (R * R * R)%type.

(** What the other workers add in the [MPI_Allreduce] calls of the
    diagnostic: their magnetic-atom count and their six local totals. *)
Definition contribution : Type := (Z * sym6 R)%type.

(** The process-wide state [initialize] reads and writes.
    - [activated] is [dipole::activated], [sim_time] is [sim::time];
    - [moment] and [field] are the per-cell moments the field evaluator
      reads and the per-local-cell fields it writes;
    - [peers] lists the other workers' contributions to the reductions; it
      is empty in a build without [MPICF], where there is no reduction;
    - [trace] records what has been done to the outside so far. *)
Record state : Type := {
  activated : bool;
  internals : internal.t;
  cells_globals : cells.t;
  sim_time : Z;
  moment : list vec3;
  field : list vec3;
  peers : list contribution;
  trace : list event
}.

Definition emit (es : list event) (s : state) : state :=
  {| activated := activated s;
     internals := internals s;
     cells_globals := cells_globals s;
     sim_time := sim_time s;
     moment := moment s;
     field := field s;
     peers := peers s;
     trace := trace s ++ es |}.

Definition with_internals (i : internal.t) (s : state) : state :=
  {| activated := activated s;
     internals := i;
     cells_globals := cells_globals s;
     sim_time := sim_time s;
     moment := moment s;
     field := field s;
     peers := peers s;
     trace := trace s |}.

Definition with_cells (c : cells.t) (s : state) : state :=
  {| activated := activated s;
     internals := internals s;
     cells_globals := c;
     sim_time := sim_time s;
     moment := moment s;
     field := field s;
     peers := peers s;
     trace := trace s |}.

Definition with_field (f : list vec3) (s : state) : state :=
  {| activated := activated s;
     internals := internals s;
     cells_globals := cells_globals s;
     sim_time := sim_time s;
     moment := moment s;
     field := f;
     peers := peers s;
     trace := trace s |}.

Definition with_tensors (intra inter : sym6 matrix) (i : internal.t) : internal.t :=
  {| internal.initialised := internal.initialised i;
     internal.rij_intra := intra;
     internal.rij_inter := inter;
     internal.num_atoms := internal.num_atoms i;
     internal.atom_type_array := internal.atom_type_array i;
     internal.atom_cell_id_array := internal.atom_cell_id_array i;
     internal.cells_num_cells := internal.cells_num_cells i;
     internal.cells_num_local_cells := internal.cells_num_local_cells i;
     internal.cells_local_cell_array := internal.cells_local_cell_array i;
     internal.cells_num_atoms_in_cell := internal.cells_num_atoms_in_cell i;
     internal.cells_volume_array := internal.cells_volume_array i;
     internal.cells_pos_and_mom_array := internal.cells_pos_and_mom_array i |}.

Definition with_initialised (b : bool) (i : internal.t) : internal.t :=
  {| internal.initialised := b;
     internal.rij_intra := internal.rij_intra i;
     internal.rij_inter := internal.rij_inter i;
     internal.num_atoms := internal.num_atoms i;
     internal.atom_type_array := internal.atom_type_array i;
     internal.atom_cell_id_array := internal.atom_cell_id_array i;
     internal.cells_num_cells := internal.cells_num_cells i;
     internal.cells_num_local_cells := internal.cells_num_local_cells i;
     internal.cells_local_cell_array := internal.cells_local_cell_array i;
     internal.cells_num_atoms_in_cell := internal.cells_num_atoms_in_cell i;
     internal.cells_volume_array := internal.cells_volume_array i;
     internal.cells_pos_and_mom_array := internal.cells_pos_and_mom_array i |}.

(** Lines 86-96: the copies of the arguments kept in [dipole::internal]. *)
Definition set_const_for_functions (a : arguments) (i : internal.t) : internal.t :=
  {| internal.initialised := internal.initialised i;
     internal.rij_intra := internal.rij_intra i;
     internal.rij_inter := internal.rij_inter i;
     internal.num_atoms := num_atoms a;
     internal.atom_type_array := atom_type_array a;
     internal.atom_cell_id_array := atom_cell_id_array a;
     internal.cells_num_cells := cells_num_cells a;
     internal.cells_num_local_cells := cells_num_local_cells a;
     internal.cells_local_cell_array := cells_local_cell_array a;
     internal.cells_num_atoms_in_cell := cells_num_atoms_in_cell a;
     internal.cells_volume_array := cells_volume_array a;
     internal.cells_pos_and_mom_array := cells_pos_and_mom_array a |}.

(** Lines 138-139. *)
Definition publish_to_cells (i : internal.t) (c : cells.t) : cells.t :=
  {| cells.num_cells := internal.cells_num_cells i;
     cells.num_atoms_in_cell := internal.cells_num_atoms_in_cell i;
     cells.cell_id_array := cells.cell_id_array c |}.

(** Modelled from the spec: the matrix [dipole::internal::allocate_memory]
    sets up for one component, "sized num_local_cells x num_cells", with
    entries that start at zero. *)
Definition zero_matrix (num_local_cells num_cells : Z) : matrix :=
  repeat (repeat 0 (Z.to_nat num_cells)) (Z.to_nat num_local_cells).

(** Modelled from the spec: [dipole::internal::allocate_memory] is called
    by [initialize] and defined elsewhere.  The interaction-tensor storage
    is "allocated once, sized num_local_cells x num_cells": two tensors of
    six components each, every component one matrix of that size.  A
    negative size converts to a huge [size_t] and the allocation fails,
    which is fatal. *)
Definition allocate_memory (i : internal.t) (num_local_cells num_cells : Z)
  : outcome internal.t :=
  if ((num_local_cells <? 0) || (num_cells <? 0))%Z then Fault AllocationFailure
  else
    let z := tabulate (fun _ => zero_matrix num_local_cells num_cells) in
    Ok (with_tensors z z i).

(** The number of bytes of the storage [allocate_memory] sets up: twelve
    matrices of [num_local_cells x num_cells] doubles of 8 bytes. *)
Definition matrix_scalars (m : matrix) : nat :=
  fold_right (fun row n => (List.length row + n)%nat) 0%nat m.

Definition tensor_scalars (t : sym6 matrix) : nat :=
  (matrix_scalars (xx t) + matrix_scalars (xy t) + matrix_scalars (xz t)
   + matrix_scalars (yy t) + matrix_scalars (yz t) + matrix_scalars (zz t))%nat.

Definition storage_bytes (i : internal.t) : Z :=
  (8 * Z.of_nat (tensor_scalars (internal.rij_intra i)
                 + tensor_scalars (internal.rij_inter i)))%Z.

(** Lines 109-110: the figure printed as "requires ... MB of RAM",
    [double(cells_num_cells)*double(cells_num_local_cells*6)*8.0/1.0e6];
    the product by 6 is a product of [int]. *)
Definition memory_estimate_MB (i : internal.t) : outcome R :=
  n6 <- int_mul (internal.cells_num_local_cells i) 6 ;;
  Ok (IZR (internal.cells_num_cells i) * IZR n6 * 8 / 1000000).

(** The total interaction between the local cell of index [lc] and the
    cell [j], for one component: "intra[i][j] + inter[i][j]".  An entry
    that does not exist counts as zero. *)
Definition tensor_total (i : internal.t) (c : comp) (lc j : nat) : R :=
  nth j (nth lc (get c (internal.rij_intra i)) []) 0
  + nth j (nth lc (get c (internal.rij_inter i)) []) 0.

(** Modelled from the spec: one term of the field evaluator
    [dipole::calculate_field], "applied as a 3x3-matrix-vector product per
    (i, j) pair, accumulated into a 3-vector per local cell". *)
Definition field_step (i : internal.t) (m : list vec3) (lc : nat)
    (f : vec3) (j : nat) : vec3 :=
  let '(fx, fy, fz) := f in
  let '(mx, my, mz) := nth j m (0, 0, 0) in
  let T := fun c => tensor_total i c lc j in
  (fx + (T XX * mx + T XY * my + T XZ * mz),
   fy + (T XY * mx + T YY * my + T YZ * mz),
   fz + (T XZ * mx + T YZ * my + T ZZ * mz)).

(** Modelled from the spec: the field of one local cell in
    [dipole::calculate_field],
    "field_i = sum over j of (intra[i][j] + inter[i][j]) . moment_j". *)
Definition field_at (i : internal.t) (m : list vec3) (lc : nat) : vec3 :=
  fold_left (field_step i m lc) (seq 0 (List.length m)) (0, 0, 0).

(** Modelled from the spec: [dipole::calculate_field] is called by
    [initialize] and defined elsewhere.  The field evaluator produces the
    field at every local cell from the per-cell moments; the tensor is
    read-only in this phase; consumers are gated behind the initialisation
    flag, and with the feature disabled the evaluator is a no-op. *)
Definition calculate_field (s : state) : state :=
  if activated s && internal.initialised (internals s) then
    with_field
      (map (field_at (internals s) (moment s))
           (seq 0 (Z.to_nat (internal.cells_num_local_cells (internals s)))))
      s
  else s.

(** ** The demagnetisation-tensor diagnostic (lines 175-240) *)

(** Lines 177-182: [num_atoms_magnetic], an [int]. *)
Definition count_magnetic_atoms (s : state) : outcome Z :=
  for_each
    (fun lc num_atoms_magnetic =>
       i <- vec_at_nat (cells.cell_id_array (cells_globals s)) lc ;;
       ni <- vec_at (internal.cells_num_atoms_in_cell (internals s)) i ;;
       int_add num_atoms_magnetic ni)
    (seq 0 (Z.to_nat (internal.cells_num_local_cells (internals s))))
    0%Z.

(** [rij_intra_c[lc][j] + rij_inter_c[lc][j]] for the component [c]. *)
Definition entry (i : internal.t) (c : comp) (lc j : nat) : outcome R :=
  a <- mat_at (get c (internal.rij_intra i)) lc j ;;
  b <- mat_at (get c (internal.rij_inter i)) lc j ;;
  Ok (a + b).

(** Lines 198-210: the body of the loop over [j], for the local cell of
    index [lc] whose cell [i] holds [ni] atoms.  The source reads
    [cells_num_atoms_in_cell[j]] at lines 198, 201 and 202 and
    [cells_num_atoms_in_cell[i]] at lines 195 and 202; nothing is written in
    between, so each is read once here. *)
Definition accumulate_pair (i : internal.t) (lc : nat) (ni : Z) (j : nat)
    (N : sym6 R) : outcome (sym6 R) :=
  nj <- vec_at_nat (internal.cells_num_atoms_in_cell i) j ;;
  if (0 <? nj)%Z then
    vj <- vec_at_nat (internal.cells_volume_array i) j ;;
    Vatomic <- fdiv vj (IZR nj) ;;
    let factor := Vatomic * IZR nj * IZR ni in
    exx <- entry i XX lc j ;;
    exy <- entry i XY lc j ;;
    exz <- entry i XZ lc j ;;
    eyy <- entry i YY lc j ;;
    eyz <- entry i YZ lc j ;;
    ezz <- entry i ZZ lc j ;;
    Ok {| xx := xx N + factor * exx;
          xy := xy N + factor * exy;
          xz := xz N + factor * exz;
          yy := yy N + factor * eyy;
          yz := yz N + factor * eyz;
          zz := zz N + factor * ezz |}
  else Ok N.

(** Lines 194-212: the body of the loop over [lc]. *)
Definition accumulate_row (s : state) (lc : nat) (N : sym6 R)
  : outcome (sym6 R) :=
  i <- vec_at_nat (cells.cell_id_array (cells_globals s)) lc ;;
  ni <- vec_at (internal.cells_num_atoms_in_cell (internals s)) i ;;
  if (0 <? ni)%Z then
    row <- vec_at_nat (xx (internal.rij_inter (internals s))) lc ;;
    for_each (accumulate_pair (internals s) lc ni) (seq 0 (List.length row)) N
  else Ok N.

(** Lines 185-213: the six totals of this worker. *)
Definition accumulate_demag (s : state) : outcome (sym6 R) :=
  for_each (accumulate_row s)
    (seq 0 (Z.to_nat (internal.cells_num_local_cells (internals s))))
    (tabulate (fun _ => 0)).

(** Lines 216-224: [MPI_Allreduce(MPI_IN_PLACE, &x, 1, _, MPI_SUM, ...)]. *)
Definition MPI_Allreduce_SUM_int (x : Z) (others : list Z) : outcome Z :=
  for_each (fun y acc => int_add acc y) others x.

Definition MPI_Allreduce_SUM_double (x : R) (others : list R) : R :=
  fold_left Rplus others x.

(** Lines 227-232. *)
Definition demag_factors (N : sym6 R) (num_atoms_magnetic : Z)
  : outcome (sym6 R) :=
  let n := IZR num_atoms_magnetic in
  qxx <- fdiv (xx N) n ;;
  qxy <- fdiv (xy N) n ;;
  qxz <- fdiv (xz N) n ;;
  qyy <- fdiv (yy N) n ;;
  qyz <- fdiv (yz N) n ;;
  qzz <- fdiv (zz N) n ;;
  Ok {| xx := (qxx - 4 * PI / 3) / (- 4 * PI);
        xy := qxy / (- 4 * PI);
        xz := qxz / (- 4 * PI);
        yy := (qyy - 4 * PI / 3) / (- 4 * PI);
        yz := qyz / (- 4 * PI);
        zz := (qzz - 4 * PI / 3) / (- 4 * PI) |}.

(** Lines 236-238: the nine values of the report, row by row. *)
Definition report_values (D : sym6 R) : list R :=
  [xx D; xy D; xz D; xy D; yy D; yz D; xz D; yz D; zz D].

Definition demag_diagnostic (s : state) : outcome state :=
  n_local <- count_magnetic_atoms s ;;
  N_local <- accumulate_demag s ;;
  n <- MPI_Allreduce_SUM_int n_local (map fst (peers s)) ;;
  let N := tabulate (fun c =>
             MPI_Allreduce_SUM_double (get c N_local)
               (map (fun p => get c (snd p)) (peers s))) in
  D <- demag_factors N n ;;
  Ok (emit [zlog Demagnetisation_tensor_header;
            zlog (Demagnetisation_tensor_values (report_values D))] s).

(** ** [dipole::initialize] *)

Section Initialize.

(** [dipole::internal::initialize_tensor_solver] is called by [initialize]
    and defined elsewhere: it is a parameter of the development.  It fills
    the interaction-tensor storage from the geometry alone, so it is a
    function of the arguments of the call and of the allocated storage
    (intra, inter), and returns the filled storage. *)
Variable initialize_tensor_solver :
  arguments -> sym6 matrix * sym6 matrix -> sym6 matrix * sym6 matrix.

(** Lines 76-151: from the first message to the assignment of the flag. *)
Definition build (s : state) (a : arguments) : outcome state :=
  let s := emit [cout Initialising_dipole_field_calculation;
                 zlog Initialising_dipole_field_calculation] s in
  (* allocate memory for rij matrix *)
  i <- allocate_memory (internals s) (cells_num_local_cells a) (cells_num_cells a) ;;
  let s := emit [call_allocate_memory (cells_num_local_cells a) (cells_num_cells a)]
                (with_internals i s) in
  (* Set const for functions *)
  let s := with_internals (set_const_for_functions a (internals s)) s in
  (* Check memory requirements and print to screen *)
  mb_log <- memory_estimate_MB (internals s) ;;
  mb_cout <- memory_estimate_MB (internals s) ;;
  let s := emit [zlog (Requires_MB_of_RAM mb_log);
                 cout (Requires_MB_of_RAM mb_cout);
                 zlog (Number_of_local_cells (internal.cells_num_local_cells (internals s)));
                 zlog (Number_of_total_cells (internal.cells_num_cells (internals s)));
                 zlog Precalculating_rij_matrix;
                 cout Precalculating_rij_matrix] s in
  (* Calculation of dipolar tensor *)
  let '(intra, inter) :=
    initialize_tensor_solver a
      (internal.rij_intra (internals s), internal.rij_inter (internals s)) in
  let s := emit [call_initialize_tensor_solver]
                (with_internals (with_tensors intra inter (internals s)) s) in
  let s := with_cells (publish_to_cells (internals s) (cells_globals s)) s in
  (* hold parallel calculation until all processors have completed *)
  let s := emit [call_barrier; cout Done; zlog Precalculation_complete] s in
  (* Set initialised flag *)
  Ok (emit [set_initialised]
           (with_internals (with_initialised true (internals s)) s)).

(** Lines 157-172: the first field evaluation and the second barrier. *)
Definition first_update (s : state) : state :=
  let s := emit [call_calculate_field] (calculate_field s) in
  emit [call_barrier; zlog Time_required_for_dipole_update;
        zlog Outputting_dipole_matrix] s.

Definition initialize (s : state) (a : arguments) : outcome state :=
  (* Check for dipole calculation enabled, if not do nothing *)
  if negb (activated s) then Ok s
  (* check for prior initialisation *)
  else if internal.initialised (internals s) then
    Ok (emit [zlog Warning_already_initialised] s)
  else
    s <- build s a ;;
    let s := first_update s in
    (* Output Demag tensor only if first step of simulation *)
    if (sim_time s =? 0)%Z then demag_diagnostic s else Ok s.

(** ** Runs of the module *)

(** What the simulation does with the module during a run: it calls
    [initialize], it calls the field evaluator, and between calls it
    advances the simulated time and updates the cell moments. *)
Inductive call : Type :=
| do_initialize (a : arguments)
| do_calculate_field
| do_timestep (time : Z) (moments : list vec3).

Definition timestep (time : Z) (moments : list vec3) (s : state) : state :=
  {| activated := activated s;
     internals := internals s;
     cells_globals := cells_globals s;
     sim_time := time;
     moment := moments;
     field := field s;
     peers := peers s;
     trace := trace s |}.

Definition perform (c : call) (s : state) : outcome state :=
  match c with
  | do_initialize a => initialize s a
  | do_calculate_field => Ok (calculate_field s)
  | do_timestep t m => Ok (timestep t m s)
  end.

Definition run (calls : list call) (s : state) : outcome state :=
  for_each perform calls s.

End Initialize.

(** ** Reading a trace *)

(** The steps of the lifecycle, as the specification names them. *)
Inductive lifecycle_step : Type :=
| allocates_storage
| fills_storage
| barrier
| sets_flag
| evaluates_field
| runs_diagnostic.

Definition step_of (e : event) : option lifecycle_step :=
  match e with
  | call_allocate_memory _ _ => Some allocates_storage
  | call_initialize_tensor_solver => Some fills_storage
  | call_barrier => Some barrier
  | set_initialised => Some sets_flag
  | call_calculate_field => Some evaluates_field
  | zlog (Demagnetisation_tensor_values _) => Some runs_diagnostic
  | _ => None
  end.

Fixpoint steps (t : list event) : list lifecycle_step :=
  match t with
  | [] => []
  | e :: t' =>
      match step_of e with
      | Some st => st :: steps t'
      | None => steps t'
      end
  end.

(** The demagnetisation tensors reported so far. *)
Fixpoint demag_reports (t : list event) : list (list R) :=
  match t with
  | [] => []
  | zlog (Demagnetisation_tensor_values v) :: t' => v :: demag_reports t'
  | _ :: t' => demag_reports t'
  end.

(** What has been written to [zlog]. *)
Fixpoint zlog_of (t : list event) : list message :=
  match t with
  | [] => []
  | zlog m :: t' => m :: zlog_of t'
  | _ :: t' => zlog_of t'
  end.

(** What has been written to [std::cout]. *)
Fixpoint cout_of (t : list event) : list message :=
  match t with
  | [] => []
  | cout m :: t' => m :: cout_of t'
  | _ :: t' => cout_of t'
  end.

(** ** The demagnetising sum, in the words of the specification *)

Definition local_cells (s : state) : nat :=
  Z.to_nat (internal.cells_num_local_cells (internals s)).

Definition all_cells (s : state) : nat :=
  Z.to_nat (internal.cells_num_cells (internals s)).

(** The cell that the local cell of index [lc] is. *)
Definition cell_of (s : state) (lc : nat) : nat :=
  Z.to_nat (nth lc (cells.cell_id_array (cells_globals s)) 0%Z).

(** The atom population of a cell. *)
Definition n_atoms (s : state) (cell : nat) : Z :=
  nth cell (internal.cells_num_atoms_in_cell (internals s)) 0%Z.

(** The per-atom volume of cell [j]: its volume divided by its atom count. *)
Definition V_atomic (s : state) (j : nat) : R :=
  nth j (internal.cells_volume_array (internals s)) 0 / IZR (n_atoms s j).

Definition factor (s : state) (lc j : nat) : R :=
  V_atomic s j * IZR (n_atoms s j) * IZR (n_atoms s (cell_of s lc)).

(** What the pair (local cell [lc], cell [j]) adds to the total of the
    component [c]: nothing when either population is zero. *)
Definition pair_term (s : state) (c : comp) (lc j : nat) : R :=
  if ((n_atoms s (cell_of s lc) =? 0) || (n_atoms s j =? 0))%Z then 0
  else factor s lc j * tensor_total (internals s) c lc j.

Definition demag_total (s : state) (c : comp) : R :=
  Rsum (map (fun lc => Rsum (map (pair_term s c lc) (seq 0 (all_cells s))))
            (seq 0 (local_cells s))).

(** ** Well-formed geometry *)

(** A matrix of [rows] rows of [cols] entries each. *)
Definition shaped (m : matrix) (rows cols : nat) : Prop :=
  List.length m = rows /\ Forall (fun r => List.length r = cols) m.

(** The state the diagnostic expects: every local cell is a cell, every
    cell has a population, which is a count, and a volume, and the twelve
    matrices have one row per local cell and one column per cell. *)
Record geometry_ready (s : state) : Prop := {
  ready_ids :
    (local_cells s <= List.length (cells.cell_id_array (cells_globals s)))%nat;
  ready_id_range :
    forall lc, (lc < local_cells s)%nat ->
      (0 <= nth lc (cells.cell_id_array (cells_globals s)) 0
       < Z.of_nat (all_cells s))%Z;
  ready_counts :
    (all_cells s <= List.length (internal.cells_num_atoms_in_cell (internals s)))%nat;
  ready_nonneg :
    Forall (fun n => 0 <= n)%Z (internal.cells_num_atoms_in_cell (internals s));
  ready_volume :
    (all_cells s <= List.length (internal.cells_volume_array (internals s)))%nat;
  ready_shape :
    forall c,
      shaped (get c (internal.rij_intra (internals s))) (local_cells s) (all_cells s)
      /\ shaped (get c (internal.rij_inter (internals s))) (local_cells s) (all_cells s)
}.

(** The magnetic atoms of this worker, and of all workers. *)
Definition local_magnetic_atoms (s : state) : Z :=
  fold_right Z.add 0%Z
    (map (fun lc => n_atoms s (cell_of s lc)) (seq 0 (local_cells s))).

Definition total_magnetic_atoms (s : state) : Z :=
  (local_magnetic_atoms s + fold_right Z.add 0 (map fst (peers s)))%Z.

(** The counts stay within [int] and there is at least one magnetic atom. *)
Record counts_ready (s : state) : Prop := {
  ready_peers : Forall (fun p => 0 <= fst p)%Z (peers s);
  ready_total : (0 < total_magnetic_atoms s <= int_max)%Z
}.

End dipole.

(* ================================================================== *)
(** * Properties of the partial operations *)
(* ================================================================== *)

Section OutcomeFacts.

Context {A : Type}.

Lemma vec_at_nat_in_range (v : list A) (i : nat) (d : A) :
  (i < List.length v)%nat -> vec_at_nat v i = Ok (nth i v d).
Proof.
  intros Hi. unfold vec_at_nat.
  destruct (nth_error v i) as [x|] eqn:E.
  - f_equal. symmetry. now apply nth_error_nth.
  - apply nth_error_None in E. lia.
Qed.

Lemma vec_at_in_range (v : list A) (i : Z) (d : A) :
  (0 <= i < Z.of_nat (List.length v))%Z ->
  vec_at v i = Ok (nth (Z.to_nat i) v d).
Proof.
  intros Hi. unfold vec_at.
  destruct (Z.ltb_spec i 0); [lia|].
  apply vec_at_nat_in_range. lia.
Qed.

Lemma vec_set_in_range (v : list A) (i : nat) (x d : A) :
  (i < List.length v)%nat ->
  exists v',
    vec_set v i x = Ok v'
    /\ List.length v' = List.length v
    /\ nth i v' d = x
    /\ forall k, k <> i -> nth k v' d = nth k v d.
Proof.
  revert i. induction v as [|h t IH]; intros i Hi; simpl in Hi; [lia|].
  destruct i as [|i].
  - exists (x :: t). simpl. repeat split; auto.
    intros [|k] Hk; [congruence | reflexivity].
  - destruct (IH i) as (t' & Hset & Hlen & Hnth & Hother); [lia|].
    exists (h :: t'). simpl. rewrite Hset. simpl.
    repeat split; auto.
    intros [|k] Hk; [reflexivity|]. apply Hother. congruence.
Qed.

Lemma for_each_app {I : Type} (body : I -> A -> outcome A) (l1 l2 : list I) (a : A) :
  for_each body (l1 ++ l2) a = bind (for_each body l1 a) (for_each body l2).
Proof.
  revert a. induction l1 as [|i l1 IH]; intros a; simpl; [reflexivity|].
  destruct (body i a); simpl; auto.
Qed.

(** The loop rule: an invariant indexed by the loop counter. *)
Lemma for_each_seq_inv (body : nat -> A -> outcome A) (P : nat -> A -> Prop)
    (n start : nat) (a : A) :
  P start a ->
  (forall i x, (start <= i < start + n)%nat -> P i x ->
     exists x', body i x = Ok x' /\ P (S i) x') ->
  exists a', for_each body (seq start n) a = Ok a' /\ P (start + n)%nat a'.
Proof.
  revert start a. induction n as [|n IH]; intros start a H0 Hstep; simpl.
  - exists a. rewrite Nat.add_0_r. auto.
  - destruct (Hstep start a) as (x' & Hb & HP); [lia | assumption |].
    rewrite Hb. simpl.
    destruct (IH (S start) x') as (a' & Hf & HP'); [assumption | |].
    + intros i x Hi. apply Hstep. lia.
    + exists a'. split; [assumption|].
      now replace (start + S n)%nat with (S start + n)%nat by lia.
Qed.

End OutcomeFacts.

Lemma fdiv_nonzero (x y : R) : y <> 0%R -> fdiv x y = Ok (x / y)%R.
Proof.
  intros Hy. unfold fdiv. destruct (Req_dec_T y 0%R); [contradiction|reflexivity].
Qed.

Lemma fdiv_faults_only_at_zero (x y : R) (f : fault) :
  fdiv x y = Fault f -> y = 0%R /\ f = DivideByZero.
Proof.
  unfold fdiv. destruct (Req_dec_T y 0%R); intros H; [|discriminate].
  split; [assumption | congruence].
Qed.

Lemma int_checked_in_range (z : Z) :
  (int_min <= z <= int_max)%Z -> int_checked z = Ok z.
Proof.
  intros H. unfold int_checked, in_int_range.
  destruct (Z.leb_spec int_min z); [|lia].
  destruct (Z.leb_spec z int_max); [reflexivity|lia].
Qed.

Lemma Rsum_app (l1 l2 : list R) : Rsum (l1 ++ l2) = (Rsum l1 + Rsum l2)%R.
Proof.
  induction l1 as [|x l1 IH]; simpl.
  - lra.
  - unfold Rsum in *. simpl. rewrite IH. lra.
Qed.

Lemma Rsum_snoc (l : list R) (x : R) : Rsum (l ++ [x]) = (Rsum l + x)%R.
Proof. rewrite Rsum_app. unfold Rsum. simpl. lra. Qed.

(* ================================================================== *)
(** * vio: no parameter is recognised *)
(* ================================================================== *)

(** C10. For every input, [vio::match_input_parameter] returns false, also
    when the key is the prefix "vio", and for every input
    [vio::match_material_parameter] returns false: the vio module
    recognises no input parameter and no material parameter. *)
Theorem vio_recognises_no_parameter :
  (forall key word value unit line,
      vio.match_input_parameter key word value unit line = false)
  /\ (forall word value unit line,
      vio.match_input_parameter "vio" word value unit line = false)
  /\ (forall word value unit line super_index sub_index,
      vio.match_material_parameter word value unit line super_index sub_index
      = false).
Proof.
  repeat split.
  - intros key word value unit line. unfold vio.match_input_parameter.
    now destruct (negb (String.eqb key "vio")).
Qed.

(* ================================================================== *)
(** * stats: the running mean and the sum of squared residuals *)
(* ================================================================== *)

Section Welford.

Import stats.
Open Scope R_scope.

(** One execution of the body of the inner loop rewrites the entry of
    index [4*id+dir] of both vectors by the recurrences, and nothing else
    of the two vectors. *)
Lemma update_element_step (mag : list R) (id dir : nat)
    (st : standard_deviation_statistic_t) :
  let i := (4 * id + dir)%nat in
  (i < List.length mag)%nat ->
  (i < List.length (mean st))%nat ->
  (i < List.length (residual_sq st))%nat ->
  mean_counter st <> 0 ->
  exists st',
    update_element mag id dir st = Ok st'
    /\ num_elements st' = num_elements st
    /\ initialized st' = initialized st
    /\ mean_counter st' = mean_counter st
    /\ List.length (mean st') = List.length (mean st)
    /\ List.length (residual_sq st') = List.length (residual_sq st)
    /\ nth i (mean st') 0 =
         welford_mean (mean_counter st) (nth i mag 0) (nth i (mean st) 0)
    /\ nth i (residual_sq st') 0 =
         welford_residual (mean_counter st) (nth i mag 0) (nth i (mean st) 0)
           (nth i (residual_sq st) 0)
    /\ forall k, k <> i ->
         nth k (mean st') 0 = nth k (mean st) 0
         /\ nth k (residual_sq st') 0 = nth k (residual_sq st) 0.
Proof.
  intros i Hmag Hmean Hres Hc. unfold update_element. fold i.
  rewrite (vec_at_nat_in_range mag i 0 Hmag). simpl.
  rewrite (vec_at_nat_in_range (mean st) i 0 Hmean). simpl.
  rewrite fdiv_nonzero by assumption. simpl.
  set (m := nth i mag 0). set (mu := nth i (mean st) 0).
  destruct (vec_set_in_range (mean st) i (mu + (m - mu) / mean_counter st) 0 Hmean)
    as (mean' & Hset & Hlen & Hnew & Hold).
  rewrite Hset. simpl.
  rewrite (vec_at_nat_in_range mean' i 0) by lia. simpl.
  rewrite (vec_at_nat_in_range (residual_sq st) i 0 Hres). simpl.
  set (r := nth i (residual_sq st) 0).
  destruct (vec_set_in_range (residual_sq st) i
              (r + (m - mu) * (m - nth i mean' 0)) 0 Hres)
    as (res' & Hset' & Hlen' & Hnew' & Hold').
  rewrite Hset'. simpl.
  eexists. split; [reflexivity|]. simpl.
  repeat split; auto.
  rewrite Hnew', Hnew. reflexivity.
Qed.

(** What the loops of [update] have done when the entries below [k] are
    rewritten: [st0] is the object before the call, [st] the object now. *)
Definition updated_below (mag : list R) (st0 : standard_deviation_statistic_t)
    (k : nat) (st : standard_deviation_statistic_t) : Prop :=
  num_elements st = num_elements st0
  /\ initialized st = initialized st0
  /\ mean_counter st = mean_counter st0 + 1
  /\ List.length (mean st) = List.length (mean st0)
  /\ List.length (residual_sq st) = List.length (residual_sq st0)
  /\ (forall i, (i < k)%nat ->
        nth i (mean st) 0 =
          welford_mean (mean_counter st0 + 1) (nth i mag 0) (nth i (mean st0) 0)
        /\ nth i (residual_sq st) 0 =
          welford_residual (mean_counter st0 + 1) (nth i mag 0)
            (nth i (mean st0) 0) (nth i (residual_sq st0) 0))
  /\ (forall i, (k <= i)%nat ->
        nth i (mean st) 0 = nth i (mean st0) 0
        /\ nth i (residual_sq st) 0 = nth i (residual_sq st0) 0).

Lemma update_element_advances (mag : list R)
    (st0 st : standard_deviation_statistic_t) (id dir : nat) :
  let i := (4 * id + dir)%nat in
  (i < List.length mag)%nat ->
  (i < List.length (mean st0))%nat ->
  (i < List.length (residual_sq st0))%nat ->
  mean_counter st0 + 1 <> 0 ->
  updated_below mag st0 i st ->
  exists st', update_element mag id dir st = Ok st'
              /\ updated_below mag st0 (S i) st'.
Proof.
  intros i Hmag Hmean Hres Hc (Hne & Hin & Hcnt & Hlm & Hlr & Hlo & Hhi).
  destruct (update_element_step mag id dir st)
    as (st' & Hrun & Hne' & Hin' & Hcnt' & Hlm' & Hlr' & Hm & Hr & Hoth);
    fold i; try lia.
  { rewrite Hcnt. assumption. }
  exists st'. split; [assumption|].
  unfold updated_below. fold i in Hm, Hr, Hoth.
  repeat split; try congruence.
  - destruct (Nat.eq_dec i0 i) as [->|Hneq].
    + rewrite Hm, Hcnt. destruct (Hhi i) as [-> _]; [lia|]. reflexivity.
    + destruct (Hoth i0 Hneq) as [-> _]. apply Hlo. lia.
  - destruct (Nat.eq_dec i0 i) as [->|Hneq].
    + rewrite Hr, Hcnt. destruct (Hhi i) as [-> ->]; [lia|]. reflexivity.
    + destruct (Hoth i0 Hneq) as [_ ->]. apply Hlo. lia.
  - destruct (Hoth i0) as [-> _]; [lia|]. apply Hhi. lia.
  - destruct (Hoth i0) as [_ ->]; [lia|]. apply Hhi. lia.
Qed.

(** One call of [update] on vectors that are long enough applies the
    recurrences to every entry below [4*num_elements]. *)
Lemma update_applies_recurrences (st0 : standard_deviation_statistic_t)
    (mag : list R) :
  (4 * num_elements st0 <= List.length mag)%nat ->
  (4 * num_elements st0 <= List.length (mean st0))%nat ->
  (4 * num_elements st0 <= List.length (residual_sq st0))%nat ->
  mean_counter st0 + 1 <> 0 ->
  exists st, update st0 mag = Ok st
             /\ updated_below mag st0 (4 * num_elements st0) st.
Proof.
  intros Hmag Hmean Hres Hc. unfold update. simpl.
  set (st1 := {| initialized := initialized st0;
                 num_elements := num_elements st0;
                 idx := idx st0;
                 mean_counter := mean_counter st0 + 1;
                 res1 := res1 st0;
                 res2 := res2 st0;
                 residual_sq := residual_sq st0;
                 mean := mean st0 |}).
  destruct (for_each_seq_inv
              (fun id => for_each (update_element mag id) (seq 0 4))
              (fun id st => updated_below mag st0 (4 * id) st)
              (num_elements st0) 0 st1) as (st & Hrun & Hinv).
  - unfold updated_below. simpl. repeat split; auto; lia.
  - intros id st Hid Hinv.
    destruct (for_each_seq_inv (update_element mag id)
                (fun dir st => updated_below mag st0 (4 * id + dir) st)
                4 0 st) as (st' & Hrun' & Hinv').
    + now rewrite Nat.add_0_r.
    + intros dir x Hdir Hx.
      replace (4 * id + S dir)%nat with (S (4 * id + dir)) by lia.
      apply update_element_advances; try assumption; lia.
    + exists st'. split; [assumption|].
      now replace (4 * S id)%nat with (4 * id + (0 + 4))%nat by lia.
  - exists st. split; [assumption|]. exact Hinv.
Qed.

(** The invariant of Welford's algorithm, in the form that is preserved:
    after the samples [vs], the counter is their number, and at every index
    [n * mean = sum of samples] and
    [residual_sq = sum of squares - n * mean^2]. *)
Definition welford_inv (ne : nat) (vs : list (list R))
    (st : standard_deviation_statistic_t) : Prop :=
  num_elements st = ne
  /\ initialized st = true
  /\ mean_counter st = INR (List.length vs)
  /\ List.length (mean st) = (4 * ne)%nat
  /\ List.length (residual_sq st) = (4 * ne)%nat
  /\ forall i, (i < 4 * ne)%nat ->
       INR (List.length vs) * nth i (mean st) 0 = Rsum (column i vs)
       /\ nth i (residual_sq st) 0 =
            Rsum (map (fun x => x * x) (column i vs))
            - INR (List.length vs) * (nth i (mean st) 0 * nth i (mean st) 0).

Lemma column_snoc (i : nat) (vs : list (list R)) (v : list R) :
  column i (vs ++ [v]) = column i vs ++ [nth i v 0].
Proof. unfold column. now rewrite map_app. Qed.

Lemma welford_inv_update (ne : nat) (vs : list (list R)) (v : list R)
    (st : standard_deviation_statistic_t) :
  (4 * ne <= List.length v)%nat ->
  welford_inv ne vs st ->
  exists st', update st v = Ok st' /\ welford_inv ne (vs ++ [v]) st'.
Proof.
  intros Hv (Hne & Hin & Hcnt & Hlm & Hlr & Hval).
  assert (Hpos : 0 <= INR (List.length vs)) by apply pos_INR.
  destruct (update_applies_recurrences st v)
    as (st' & Hrun & Hne' & Hin' & Hcnt' & Hlm' & Hlr' & Hlo & _);
    try (rewrite Hne; lia).
  { rewrite Hcnt. lra. }
  exists st'. split; [assumption|].
  unfold welford_inv.
  rewrite length_app, Nat.add_1_r, S_INR.
  repeat split; try congruence.
  - destruct (Hlo i) as [-> _]; [rewrite Hne; assumption|].
    destruct (Hval i H) as [Hsum _].
    rewrite column_snoc, Rsum_snoc, <- Hsum.
    unfold welford_mean. rewrite Hcnt. field. lra.
  - destruct (Hlo i) as [-> ->]; [rewrite Hne; assumption|].
    destruct (Hval i H) as [_ ->].
    rewrite column_snoc, map_app. simpl. rewrite Rsum_snoc.
    unfold welford_residual, welford_mean. rewrite Hcnt. field. lra.
Qed.

Lemma welford_inv_updates (ne : nat) (vs ws : list (list R))
    (st : standard_deviation_statistic_t) :
  (forall v, In v ws -> (4 * ne <= List.length v)%nat) ->
  welford_inv ne vs st ->
  exists st', updates st ws = Ok st' /\ welford_inv ne (vs ++ ws) st'.
Proof.
  revert vs st. induction ws as [|w ws IH]; intros vs st Hlen Hinv.
  - exists st. rewrite app_nil_r. auto.
  - destruct (welford_inv_update ne vs w st) as (st1 & Hrun & Hinv1);
      [apply Hlen; now left | assumption |].
    destruct (IH (vs ++ [w]) st1) as (st' & Hrun' & Hinv');
      [intros v Hv; apply Hlen; now right | assumption |].
    exists st'. unfold updates in *. simpl. rewrite Hrun. simpl.
    split; [assumption|]. now rewrite <- app_assoc in Hinv'.
Qed.

Lemma initialize_establishes_inv (indeterminate : standard_deviation_statistic_t)
    (mag_stat : magnetization_statistic_t) :
  is_initialized mag_stat = true ->
  exists st,
    initialize (standard_deviation_statistic indeterminate) mag_stat = Ok st
    /\ welford_inv (List.length (get_magnetization mag_stat) / 4) [] st
    /\ forall i, nth i (mean st) 0 = 0 /\ nth i (residual_sq st) 0 = 0.
Proof.
  intros Hinit. unfold initialize. rewrite Hinit. simpl.
  eexists. split; [reflexivity|].
  set (ne := (List.length (get_magnetization mag_stat) / 4)%nat).
  assert (Hz : forall i n, nth i (vec_resize [] n 0) 0 = 0).
  { intros i n. unfold vec_resize. rewrite firstn_nil. simpl.
    rewrite Nat.sub_0_r. apply nth_repeat. }
  assert (Hl : forall n, List.length (vec_resize (@nil R) n 0) = n).
  { intros n. unfold vec_resize. rewrite firstn_nil. simpl.
    rewrite Nat.sub_0_r. apply repeat_length. }
  split.
  - unfold welford_inv. cbn [num_elements initialized mean_counter mean residual_sq].
    rewrite !Hl. repeat split; auto.
    + rewrite Hz. simpl. lra.
    + rewrite !Hz. simpl. lra.
  - intros i. cbn [mean residual_sq]. now rewrite !Hz.
Qed.

Lemma sum_sq_dev_expand (mu : R) (l : list R) :
  sum_sq_dev mu l =
  Rsum (map (fun x => x * x) l) - 2 * mu * Rsum l + INR (List.length l) * (mu * mu).
Proof.
  unfold sum_sq_dev, Rsum. induction l as [|x l IH].
  - simpl. lra.
  - cbn [map fold_right List.length]. rewrite IH, S_INR. lra.
Qed.

Lemma column_length (i : nat) (vs : list (list R)) :
  List.length (column i vs) = List.length vs.
Proof. apply length_map. Qed.

(** From the preserved form of the invariant to the textbook quantities. *)
Lemma welford_inv_textbook (ne : nat) (v : list R) (vs : list (list R))
    (st : standard_deviation_statistic_t) (i : nat) :
  welford_inv ne (v :: vs) st ->
  (i < 4 * ne)%nat ->
  nth i (mean st) 0 = arithmetic_mean (column i (v :: vs))
  /\ nth i (residual_sq st) 0 =
       sum_sq_dev (nth i (mean st) 0) (column i (v :: vs)).
Proof.
  intros (_ & _ & _ & _ & _ & Hval) Hi.
  destruct (Hval i Hi) as [Hmean Hres].
  assert (Hn : INR (List.length (v :: vs)) <> 0).
  { apply not_0_INR. discriminate. }
  split.
  - unfold arithmetic_mean. rewrite column_length, <- Hmean. field. exact Hn.
  - rewrite sum_sq_dev_expand, column_length, Hres, <- Hmean. ring.
Qed.

(** X16. In exact arithmetic, from a freshly constructed statistic (both
    vectors empty), the invariant of Welford's algorithm holds: after
    construction, [initialize] on an initialised magnetisation statistic and
    one [update] per sample, each sample having at least [4*num_elements]
    entries, the run succeeds, the counter equals the number n of samples,
    and at every index below [4*num_elements] the stored mean is the
    arithmetic mean of the n sample values at that index and the stored
    residual is the sum of their squared deviations from that mean. *)
Theorem welford_invariant
    (indeterminate : standard_deviation_statistic_t)
    (mag_stat : magnetization_statistic_t) (samples : list (list R)) :
  is_initialized mag_stat = true ->
  (forall v, In v samples ->
     (4 * (List.length (get_magnetization mag_stat) / 4) <= List.length v)%nat) ->
  exists st,
    run indeterminate mag_stat samples = Ok st
    /\ num_elements st = (List.length (get_magnetization mag_stat) / 4)%nat
    /\ mean_counter st = INR (List.length samples)
    /\ forall i, (i < 4 * num_elements st)%nat ->
         nth i (mean st) 0 = arithmetic_mean (column i samples)
         /\ nth i (residual_sq st) 0 =
              sum_sq_dev (nth i (mean st) 0) (column i samples).
Proof.
  intros Hinit Hlen.
  destruct (initialize_establishes_inv indeterminate mag_stat Hinit)
    as (st0 & Hrun0 & Hinv0 & Hzero).
  unfold run. rewrite Hrun0. simpl.
  destruct (welford_inv_updates _ [] samples st0 Hlen Hinv0)
    as (st & Hrun & Hinv).
  exists st. split; [assumption|].
  simpl in Hinv. pose proof Hinv as (Hne & _ & Hcnt & _ & _ & _).
  repeat split; try assumption.
  - destruct samples as [|v vs].
    + unfold updates in Hrun. simpl in Hrun. injection Hrun as <-.
      destruct (Hzero i) as [-> _].
      unfold arithmetic_mean, Rsum. simpl. lra.
    + rewrite Hne in H. now apply (welford_inv_textbook _ v vs st i Hinv).
  - destruct samples as [|v vs].
    + unfold updates in Hrun. simpl in Hrun. injection Hrun as <-.
      destruct (Hzero i) as [-> ->].
      unfold sum_sq_dev, Rsum. simpl. lra.
    + rewrite Hne in H. now apply (welford_inv_textbook _ v vs st i Hinv).
Qed.

(** The statistic after the two samples (1,2,3,4) and (3,2,1,0) of one
    element. *)
Lemma welford_invariant_witness :
  exists st,
    run (Build_standard_deviation_statistic_t false 7 3 5 1 2 [] [])
        (Build_magnetization_statistic_t true [0; 0; 0; 0])
        [[1; 2; 3; 4]; [3; 2; 1; 0]] = Ok st
    /\ num_elements st = 1%nat
    /\ mean_counter st = 2
    /\ forall i, (i < 4 * num_elements st)%nat ->
         nth i (mean st) 0 = arithmetic_mean (column i [[1; 2; 3; 4]; [3; 2; 1; 0]])
         /\ nth i (residual_sq st) 0 =
              sum_sq_dev (nth i (mean st) 0)
                (column i [[1; 2; 3; 4]; [3; 2; 1; 0]]).
Proof.
  apply (welford_invariant
           (Build_standard_deviation_statistic_t false 7 3 5 1 2 [] [])
           (Build_magnetization_statistic_t true [0; 0; 0; 0])
           [[1; 2; 3; 4]; [3; 2; 1; 0]]).
  - reflexivity.
  - simpl. intros v [<- | [<- | []]]; simpl; lia.
Defined.

(** The run of the witness, value by value: the means of (1,3), (2,2),
    (3,1), (4,0) are 2, and the squared deviations add up to 2, 0, 2, 8. *)
Example welford_two_samples :
  exists st,
    run (Build_standard_deviation_statistic_t false 7 3 5 1 2 [] [])
        (Build_magnetization_statistic_t true [0; 0; 0; 0])
        [[1; 2; 3; 4]; [3; 2; 1; 0]] = Ok st
    /\ mean st = [2; 2; 2; 2]
    /\ residual_sq st = [2; 0; 2; 8]
    /\ mean_counter st = 2.
Proof.
  unfold run, updates, update, update_element. simpl.
  repeat (rewrite fdiv_nonzero by lra; simpl).
  eexists. split; [reflexivity|]. simpl.
  repeat split; repeat (f_equal; try field).
Qed.

(** [resize] keeps the entries a vector already has, so [initialize] on a
    statistic that has seen samples resets the counter and leaves the old
    means and residuals in place. *)
Remark initialize_keeps_existing_entries
    (st : standard_deviation_statistic_t) (mag_stat : magnetization_statistic_t) :
  is_initialized mag_stat = true ->
  List.length (mean st) = (4 * (List.length (get_magnetization mag_stat) / 4))%nat ->
  List.length (residual_sq st) = (4 * (List.length (get_magnetization mag_stat) / 4))%nat ->
  exists st', initialize st mag_stat = Ok st'
              /\ mean st' = mean st
              /\ residual_sq st' = residual_sq st
              /\ mean_counter st' = 0.
Proof.
  intros Hinit Hm Hr. unfold initialize. rewrite Hinit. simpl.
  eexists. split; [reflexivity|]. simpl. unfold vec_resize.
  rewrite <- Hm at 1 2. rewrite <- Hr at 1 2.
  rewrite !firstn_all, !Nat.sub_diag. simpl. rewrite !app_nil_r. auto.
Qed.

(** C9. The invariant of Welford's algorithm after [initialize] and n calls
    of [update], evaluated on a statistic that has seen samples before:
    a statistic of one element takes the samples (1,2,3,4) and (3,2,1,0),
    is initialised again on the same magnetisation statistic and takes the
    one sample (9,9,9,9).  The counter is 1 and the means are the sample,
    yet the residuals are still (2,0,2,8), those of the two earlier samples,
    where the sum of squared deviations of the one sample is 0.
    [initialize] means to "set the mean at start to 0", and
    [reset_averages] does fill both vectors with zeros; [resize] does not
    touch the entries a vector already has. *)
Theorem welford_invariant_fails_after_second_initialize :
  let mag_stat := Build_magnetization_statistic_t true [0; 0; 0; 0] in
  exists st st1 st2,
    run (Build_standard_deviation_statistic_t false 7 3 5 1 2 [] [])
        mag_stat [[1; 2; 3; 4]; [3; 2; 1; 0]] = Ok st
    /\ initialize st mag_stat = Ok st1
    /\ update st1 [9; 9; 9; 9] = Ok st2
    /\ num_elements st2 = 1%nat
    /\ mean_counter st2 = 1
    /\ mean st2 = [9; 9; 9; 9]
    /\ residual_sq st2 = [2; 0; 2; 8]
    /\ sum_sq_dev (nth 0 (mean st2) 0) (column 0 [[9; 9; 9; 9]]) = 0
    /\ nth 0 (residual_sq st2) 0
       <> sum_sq_dev (nth 0 (mean st2) 0) (column 0 [[9; 9; 9; 9]]).
Proof.
  intros mag_stat.
  unfold run, updates, update, update_element, mag_stat. simpl.
  repeat (rewrite fdiv_nonzero by lra; simpl).
  eexists. eexists. eexists. split; [reflexivity|].
  unfold initialize. simpl. split; [reflexivity|]. simpl.
  repeat (rewrite fdiv_nonzero by lra; simpl).
  split; [reflexivity|]. simpl.
  split; [reflexivity|].
  split; [lra|].
  assert (Hmean : forall (a b c d : R), a = 9 -> b = 9 -> c = 9 -> d = 9 ->
                    [a; b; c; d] = [9; 9; 9; 9]) by (intros; subst; reflexivity).
  assert (Hres : forall (a b c d : R), a = 2 -> b = 0 -> c = 2 -> d = 8 ->
                   [a; b; c; d] = [2; 0; 2; 8]) by (intros; subst; reflexivity).
  split; [apply Hmean; field|].
  split; [apply Hres; field|].
  unfold sum_sq_dev, column, Rsum. simpl.
  split; [field|].
  intros E. field_simplify in E. lra.
Qed.

End Welford.

(* ================================================================== *)
(** * dipole: the demagnetisation-tensor diagnostic *)
(* ================================================================== *)

Section Diagnostic.

Import dipole.
Open Scope R_scope.

Lemma get_tabulate {A : Type} (f : comp -> A) (c : comp) :
  get c (tabulate f) = f c.
Proof. now destruct c. Qed.

Lemma sym6_ext {A : Type} (a b : sym6 A) :
  (forall c, get c a = get c b) -> a = b.
Proof.
  intros H. destruct a, b.
  pose proof (H XX). pose proof (H XY). pose proof (H XZ).
  pose proof (H YY). pose proof (H YZ). pose proof (H ZZ).
  simpl in *. congruence.
Qed.

Lemma shaped_row (m : matrix) (rows cols lc : nat) :
  shaped m rows cols -> (lc < rows)%nat ->
  vec_at_nat m lc = Ok (nth lc m []) /\ List.length (nth lc m []) = cols.
Proof.
  intros [Hlen Hrows] Hlc. split.
  - apply vec_at_nat_in_range. lia.
  - rewrite Forall_forall in Hrows. apply Hrows, nth_In. lia.
Qed.

Lemma mat_at_shaped (m : matrix) (rows cols lc j : nat) :
  shaped m rows cols -> (lc < rows)%nat -> (j < cols)%nat ->
  mat_at m lc j = Ok (nth j (nth lc m []) 0).
Proof.
  intros Hs Hlc Hj. unfold mat_at.
  destruct (shaped_row m rows cols lc Hs Hlc) as [-> Hlen]. simpl.
  apply vec_at_nat_in_range. lia.
Qed.

Lemma entry_ready (s : state) (c : comp) (lc j : nat) :
  geometry_ready s -> (lc < local_cells s)%nat -> (j < all_cells s)%nat ->
  entry (internals s) c lc j = Ok (tensor_total (internals s) c lc j).
Proof.
  intros Hr Hlc Hj. unfold entry, tensor_total.
  destruct (ready_shape s Hr c) as [Hintra Hinter].
  rewrite (mat_at_shaped _ _ _ lc j Hintra Hlc Hj). simpl.
  rewrite (mat_at_shaped _ _ _ lc j Hinter Hlc Hj). reflexivity.
Qed.

(** A population is a count: under [geometry_ready] it is not negative. *)
Lemma n_atoms_nonneg (s : state) (cell : nat) :
  geometry_ready s -> (0 <= n_atoms s cell)%Z.
Proof.
  intros Hr. unfold n_atoms.
  destruct (Nat.lt_ge_cases cell
              (List.length (internal.cells_num_atoms_in_cell (internals s))))
    as [Hlt | Hge].
  - pose proof (ready_nonneg s Hr) as Hall. rewrite Forall_forall in Hall.
    apply Hall, nth_In, Hlt.
  - rewrite nth_overflow by assumption. lia.
Qed.

(** The population of the cell of a local cell, as the code reads it. *)
Lemma population_of_local_cell (s : state) (lc : nat) :
  geometry_ready s -> (lc < local_cells s)%nat ->
  vec_at_nat (cells.cell_id_array (cells_globals s)) lc
    = Ok (nth lc (cells.cell_id_array (cells_globals s)) 0%Z)
  /\ vec_at (internal.cells_num_atoms_in_cell (internals s))
       (nth lc (cells.cell_id_array (cells_globals s)) 0%Z)
     = Ok (n_atoms s (cell_of s lc)).
Proof.
  intros Hr Hlc. split.
  - apply vec_at_nat_in_range. pose proof (ready_ids s Hr). lia.
  - unfold n_atoms, cell_of. apply vec_at_in_range.
    pose proof (ready_id_range s Hr lc Hlc). pose proof (ready_counts s Hr). lia.
Qed.

(** The body of the loop over [j] adds the term of the pair. *)
Lemma accumulate_pair_ready (s : state) (lc j : nat) (N : sym6 R) :
  geometry_ready s -> (lc < local_cells s)%nat -> (j < all_cells s)%nat ->
  (0 < n_atoms s (cell_of s lc))%Z ->
  accumulate_pair (internals s) lc (n_atoms s (cell_of s lc)) j N
  = Ok (tabulate (fun c => get c N + pair_term s c lc j)).
Proof.
  intros Hr Hlc Hj Hi. unfold accumulate_pair.
  rewrite (vec_at_nat_in_range _ j 0%Z) by (pose proof (ready_counts s Hr); lia).
  simpl. fold (n_atoms s j).
  assert (Hterm : forall c, pair_term s c lc j =
            if (0 <? n_atoms s j)%Z
            then factor s lc j * tensor_total (internals s) c lc j else 0).
  { intros c. unfold pair_term. pose proof (n_atoms_nonneg s j Hr).
    destruct (Z.eqb_spec (n_atoms s (cell_of s lc)) 0); [lia|].
    destruct (Z.eqb_spec (n_atoms s j) 0), (Z.ltb_spec 0 (n_atoms s j));
      simpl; try reflexivity; lia. }
  destruct (Z.ltb_spec 0 (n_atoms s j)) as [Hpos | Hzero].
  - rewrite (vec_at_nat_in_range _ j 0) by (pose proof (ready_volume s Hr); lia).
    simpl. rewrite fdiv_nonzero by (apply not_0_IZR; lia). simpl.
    rewrite !(entry_ready s _ lc j Hr Hlc Hj). simpl.
    apply f_equal, sym6_ext. intros c. rewrite get_tabulate, Hterm.
    unfold factor, V_atomic. destruct c; reflexivity.
  - apply f_equal, sym6_ext. intros c. rewrite get_tabulate, Hterm. lra.
Qed.

Lemma seq_snoc (k : nat) : seq 0 (S k) = seq 0 k ++ [k].
Proof. now rewrite seq_S. Qed.

Lemma Rsum_all_zero {I : Type} (f : I -> R) (l : list I) :
  (forall i, f i = 0) -> Rsum (map f l) = 0.
Proof.
  intros Hf. unfold Rsum. induction l as [|i l IH]; simpl; [reflexivity|].
  rewrite Hf, IH. lra.
Qed.

(** The total of one local cell over all partner cells. *)
Definition row_total (s : state) (c : comp) (lc : nat) : R :=
  Rsum (map (pair_term s c lc) (seq 0 (all_cells s))).

(** The body of the loop over [lc] adds the total of the local cell. *)
Lemma accumulate_row_ready (s : state) (lc : nat) (N : sym6 R) :
  geometry_ready s -> (lc < local_cells s)%nat ->
  accumulate_row s lc N = Ok (tabulate (fun c => get c N + row_total s c lc)).
Proof.
  intros Hr Hlc. unfold accumulate_row.
  destruct (population_of_local_cell s lc Hr Hlc) as [Hid Hpop].
  rewrite Hid. cbn [bind]. rewrite Hpop. cbn [bind].
  destruct (Z.ltb_spec 0 (n_atoms s (cell_of s lc))) as [Hpos | Hzero].
  - destruct (ready_shape s Hr XX) as [_ Hinter].
    destruct (shaped_row _ _ _ lc Hinter Hlc) as [Hrow Hcols].
    simpl in Hrow, Hcols. rewrite Hrow. simpl. rewrite Hcols.
    destruct (for_each_seq_inv
                (accumulate_pair (internals s) lc (n_atoms s (cell_of s lc)))
                (fun k N' => N' = tabulate (fun c =>
                   get c N + Rsum (map (pair_term s c lc) (seq 0 k))))
                (all_cells s) 0 N) as (N' & Hrun & HN').
    + apply sym6_ext. intros c. rewrite get_tabulate. unfold Rsum. simpl. lra.
    + intros j x Hj ->. eexists. split.
      * apply accumulate_pair_ready; [assumption | assumption | lia | assumption].
      * apply sym6_ext. intros c. rewrite !get_tabulate, seq_snoc, map_app.
        simpl. rewrite Rsum_snoc. lra.
    + rewrite Hrun. simpl in HN'. now rewrite HN'.
  - f_equal. apply sym6_ext. intros c. rewrite get_tabulate.
    unfold row_total. rewrite Rsum_all_zero; [lra|].
    intros j. unfold pair_term.
    pose proof (n_atoms_nonneg s (cell_of s lc) Hr).
    destruct (Z.eqb_spec (n_atoms s (cell_of s lc)) 0); [reflexivity | lia].
Qed.

(** The loops of lines 193-213 compute the six totals of the
    specification. *)
Lemma accumulate_demag_ready (s : state) :
  geometry_ready s -> accumulate_demag s = Ok (tabulate (demag_total s)).
Proof.
  intros Hr. unfold accumulate_demag. fold (local_cells s).
  destruct (for_each_seq_inv (accumulate_row s)
              (fun k N => N = tabulate (fun c =>
                 Rsum (map (row_total s c) (seq 0 k))))
              (local_cells s) 0 (tabulate (fun _ => 0))) as (N & Hrun & HN).
  - apply sym6_ext. intros c. now rewrite !get_tabulate.
  - intros lc x Hlc ->. eexists. split.
    + apply accumulate_row_ready; [assumption | lia].
    + apply sym6_ext. intros c. rewrite !get_tabulate, seq_snoc, map_app.
      simpl. now rewrite Rsum_snoc.
  - rewrite Hrun. simpl in HN. now rewrite HN.
Qed.

(** ** No division by a zero population *)

Definition never_divides_by_zero {A : Type} (m : outcome A) : Prop :=
  m <> Fault DivideByZero.

Lemma ok_ndz {A : Type} (a : A) : never_divides_by_zero (Ok a).
Proof. discriminate. Qed.

Lemma bind_ndz {A B : Type} (m : outcome A) (k : A -> outcome B) :
  never_divides_by_zero m ->
  (forall a, m = Ok a -> never_divides_by_zero (k a)) ->
  never_divides_by_zero (bind m k).
Proof.
  unfold never_divides_by_zero. intros Hm Hk.
  destruct m as [a|f]; simpl; [now apply Hk |].
  intros E. apply Hm. congruence.
Qed.

Lemma for_each_ndz {I A : Type} (body : I -> A -> outcome A) (l : list I) (a : A) :
  (forall i x, never_divides_by_zero (body i x)) ->
  never_divides_by_zero (for_each body l a).
Proof.
  intros Hb. revert a. induction l as [|i l IH]; intros a; simpl.
  - first [apply ok_ndz | discriminate].
  - apply bind_ndz; auto.
Qed.

Lemma vec_at_nat_ndz {A : Type} (v : list A) (i : nat) :
  never_divides_by_zero (vec_at_nat v i).
Proof. unfold vec_at_nat. destruct (nth_error v i); first [apply ok_ndz | discriminate]. Qed.

Lemma vec_at_ndz {A : Type} (v : list A) (i : Z) :
  never_divides_by_zero (vec_at v i).
Proof.
  unfold vec_at. destruct (i <? 0)%Z; [first [apply ok_ndz | discriminate] | apply vec_at_nat_ndz].
Qed.

Lemma entry_ndz (i : internal.t) (c : comp) (lc j : nat) :
  never_divides_by_zero (entry i c lc j).
Proof.
  unfold entry, mat_at.
  repeat first [ apply ok_ndz | apply vec_at_nat_ndz
               | apply bind_ndz; [| intros ? _] ].
Qed.

Lemma accumulate_pair_ndz (i : internal.t) (lc : nat) (ni : Z) (j : nat)
    (N : sym6 R) :
  never_divides_by_zero (accumulate_pair i lc ni j N).
Proof.
  unfold accumulate_pair.
  apply bind_ndz; [apply vec_at_nat_ndz | intros nj _].
  destruct (Z.ltb_spec 0 nj) as [Hpos | Hle]; [|first [apply ok_ndz | discriminate]].
  apply bind_ndz; [apply vec_at_nat_ndz | intros vj _].
  rewrite fdiv_nonzero by (apply not_0_IZR; lia). cbn [bind].
  repeat (apply bind_ndz; [apply entry_ndz | intros ? _]).
  first [apply ok_ndz | discriminate].
Qed.

Lemma accumulate_row_ndz (s : state) (lc : nat) (N : sym6 R) :
  never_divides_by_zero (accumulate_row s lc N).
Proof.
  unfold accumulate_row.
  apply bind_ndz; [apply vec_at_nat_ndz | intros i _].
  apply bind_ndz; [apply vec_at_ndz | intros ni _].
  destruct (0 <? ni)%Z; [|first [apply ok_ndz | discriminate]].
  apply bind_ndz; [apply vec_at_nat_ndz | intros row _].
  apply for_each_ndz. intros j x. apply accumulate_pair_ndz.
Qed.

Lemma accumulate_demag_ndz (s : state) :
  never_divides_by_zero (accumulate_demag s).
Proof.
  unfold accumulate_demag. apply for_each_ndz. intros lc N.
  apply accumulate_row_ndz.
Qed.

(** A cell without atoms is skipped as partner cell [j]: the accumulator
    is returned as it is, and neither the volume nor a tensor entry is
    read. *)
Lemma accumulate_pair_skips (i : internal.t) (lc : nat) (ni : Z) (j : nat)
    (N : sym6 R) :
  vec_at_nat (internal.cells_num_atoms_in_cell i) j = Ok 0%Z ->
  accumulate_pair i lc ni j N = Ok N.
Proof. intros H. unfold accumulate_pair. now rewrite H. Qed.

(** A cell without atoms is skipped as local cell [i]. *)
Lemma accumulate_row_skips (s : state) (lc : nat) (i : Z) (N : sym6 R) :
  vec_at_nat (cells.cell_id_array (cells_globals s)) lc = Ok i ->
  vec_at (internal.cells_num_atoms_in_cell (internals s)) i = Ok 0%Z ->
  accumulate_row s lc N = Ok N.
Proof.
  intros Hi Hn. unfold accumulate_row.
  rewrite Hi. cbn [bind]. rewrite Hn. reflexivity.
Qed.

Lemma pair_term_zero_population (s : state) (c : comp) (lc j : nat) :
  n_atoms s (cell_of s lc) = 0%Z \/ n_atoms s j = 0%Z ->
  pair_term s c lc j = 0.
Proof.
  intros [H | H]; unfold pair_term; rewrite H; simpl; [reflexivity|].
  now rewrite orb_true_r.
Qed.

Lemma pair_term_nonzero_population (s : state) (c : comp) (lc j : nat) :
  n_atoms s (cell_of s lc) <> 0%Z -> n_atoms s j <> 0%Z ->
  pair_term s c lc j
  = V_atomic s j * IZR (n_atoms s j) * IZR (n_atoms s (cell_of s lc))
    * (nth j (nth lc (get c (internal.rij_intra (internals s))) []) 0
       + nth j (nth lc (get c (internal.rij_inter (internals s))) []) 0).
Proof.
  intros Hi Hj. unfold pair_term, factor, tensor_total.
  destruct (Z.eqb_spec (n_atoms s (cell_of s lc)) 0); [contradiction|].
  destruct (Z.eqb_spec (n_atoms s j) 0); [contradiction|]. reflexivity.
Qed.

End Diagnostic.

(* ================================================================== *)
(** * A small geometry *)
(* ================================================================== *)

(** Two local cells, the cells 0 and 2 of three; cell 1 is empty. *)
Definition example_internals : dipole.internal.t :=
  {| dipole.internal.initialised := true;
     dipole.internal.rij_intra :=
       tabulate (fun c => if is_diagonal c
                          then [[1; 0; 0]; [0; 0; 1]]
                          else [[0; 0; 0]; [0; 0; 0]])%R;
     dipole.internal.rij_inter :=
       tabulate (fun c => if is_diagonal c
                          then [[0; 5; 2]; [2; 5; 0]]
                          else [[0; 7; 1]; [1; 7; 0]])%R;
     dipole.internal.num_atoms := 6;
     dipole.internal.atom_type_array := [0; 0; 0; 0; 0; 0]%Z;
     dipole.internal.atom_cell_id_array := [0; 0; 2; 2; 2; 2]%Z;
     dipole.internal.cells_num_cells := 3;
     dipole.internal.cells_num_local_cells := 2;
     dipole.internal.cells_local_cell_array := [0; 2]%Z;
     dipole.internal.cells_num_atoms_in_cell := [2; 0; 4]%Z;
     dipole.internal.cells_volume_array := [8; 8; 8]%R;
     dipole.internal.cells_pos_and_mom_array := [] |}.

Definition example_state : dipole.state :=
  {| dipole.activated := true;
     dipole.internals := example_internals;
     dipole.cells_globals :=
       {| cells.num_cells := 3;
          cells.num_atoms_in_cell := [2; 0; 4]%Z;
          cells.cell_id_array := [0; 2]%Z |};
     dipole.sim_time := 0;
     dipole.moment := [(0, 0, 1); (0, 0, 0); (0, 0, 1)]%R;
     dipole.field := [];
     dipole.peers := [(6%Z, tabulate (fun c => if is_diagonal c then 10 else 0)%R)];
     dipole.trace := [] |}.

Lemma example_state_ready : dipole.geometry_ready example_state.
Proof.
  constructor; unfold dipole.local_cells, dipole.all_cells; simpl.
  - lia.
  - intros [|[|lc]] H; simpl; lia.
  - lia.
  - repeat constructor; lia.
  - lia.
  - intros c. unfold dipole.shaped.
    destruct c; simpl; repeat split; repeat constructor.
Qed.

(* ================================================================== *)
(** * dipole: the claims about the diagnostic *)
(* ================================================================== *)

(** C3. On a well-formed geometry the accumulation loops of the
    demagnetising diagnostic return, for each of the six components, the
    total of the specification: the sum over every local cell i and every
    cell j, both with a non-zero atom population, of
    factor * (intra[i][j] + inter[i][j]) with
    factor = V_atomic(j) * n_atoms(j) * n_atoms(i) and V_atomic(j) the volume
    of cell j divided by its atom count; a pair where either population is
    zero adds nothing. *)
Theorem demag_accumulation_is_weighted_sum (s : dipole.state) :
  dipole.geometry_ready s ->
  exists N,
    dipole.accumulate_demag s = Ok N
    /\ (forall c,
          get c N
          = Rsum (map (fun lc =>
                    Rsum (map (dipole.pair_term s c lc)
                              (seq 0 (dipole.all_cells s))))
                  (seq 0 (dipole.local_cells s))))
    /\ (forall c lc j,
          dipole.n_atoms s (dipole.cell_of s lc) <> 0%Z ->
          dipole.n_atoms s j <> 0%Z ->
          dipole.pair_term s c lc j
          = (dipole.V_atomic s j * IZR (dipole.n_atoms s j)
             * IZR (dipole.n_atoms s (dipole.cell_of s lc))
             * (nth j (nth lc (get c (dipole.internal.rij_intra
                                        (dipole.internals s))) []) 0
                + nth j (nth lc (get c (dipole.internal.rij_inter
                                          (dipole.internals s))) []) 0))%R)
    /\ (forall c lc j,
          dipole.n_atoms s (dipole.cell_of s lc) = 0%Z
          \/ dipole.n_atoms s j = 0%Z ->
          dipole.pair_term s c lc j = 0%R).
Proof.
  intros Hr. exists (tabulate (dipole.demag_total s)). split.
  - now apply accumulate_demag_ready.
  - split; [intros c; rewrite get_tabulate; reflexivity|].
    split; [exact (pair_term_nonzero_population s)
           | exact (pair_term_zero_population s)].
Qed.

Lemma demag_accumulation_is_weighted_sum_witness :
  exists N,
    dipole.accumulate_demag example_state = Ok N
    /\ (forall c,
          get c N
          = Rsum (map (fun lc =>
                    Rsum (map (dipole.pair_term example_state c lc)
                              (seq 0 (dipole.all_cells example_state))))
                  (seq 0 (dipole.local_cells example_state))))
    /\ (forall c lc j,
          dipole.n_atoms example_state (dipole.cell_of example_state lc) <> 0%Z ->
          dipole.n_atoms example_state j <> 0%Z ->
          dipole.pair_term example_state c lc j
          = (dipole.V_atomic example_state j * IZR (dipole.n_atoms example_state j)
             * IZR (dipole.n_atoms example_state (dipole.cell_of example_state lc))
             * (nth j (nth lc (get c (dipole.internal.rij_intra
                                        (dipole.internals example_state))) []) 0
                + nth j (nth lc (get c (dipole.internal.rij_inter
                                          (dipole.internals example_state))) []) 0))%R)
    /\ (forall c lc j,
          dipole.n_atoms example_state (dipole.cell_of example_state lc) = 0%Z
          \/ dipole.n_atoms example_state j = 0%Z ->
          dipole.pair_term example_state c lc j = 0%R).
Proof.
  apply (demag_accumulation_is_weighted_sum example_state).
  exact example_state_ready.
Defined.

(** C7. In the demagnetising accumulation a cell with zero atoms is skipped
    both as the local cell i and as the partner cell j: the running totals
    come back unchanged, without reading the cell's volume or any tensor
    entry, the pair adds nothing to the atom-weighted sum, and on no state
    whatever does the accumulation divide by a zero atom count. *)
Theorem zero_population_cells_are_skipped :
  (forall s, dipole.accumulate_demag s <> Fault DivideByZero)
  /\ (forall s lc i N,
        vec_at_nat (cells.cell_id_array (dipole.cells_globals s)) lc = Ok i ->
        vec_at (dipole.internal.cells_num_atoms_in_cell (dipole.internals s)) i
          = Ok 0%Z ->
        dipole.accumulate_row s lc N = Ok N)
  /\ (forall i lc ni j N,
        vec_at_nat (dipole.internal.cells_num_atoms_in_cell i) j = Ok 0%Z ->
        dipole.accumulate_pair i lc ni j N = Ok N)
  /\ (forall s c lc j,
        dipole.n_atoms s (dipole.cell_of s lc) = 0%Z \/ dipole.n_atoms s j = 0%Z ->
        dipole.pair_term s c lc j = 0%R).
Proof.
  split; [exact accumulate_demag_ndz|].
  split; [exact accumulate_row_skips|].
  split; [exact accumulate_pair_skips|].
  exact pair_term_zero_population.
Qed.

(* ================================================================== *)
(** * dipole: counting, reduction and normalisation *)
(* ================================================================== *)

Section Normalisation.

Import dipole.
Open Scope R_scope.

Definition Zsum (l : list Z) : Z := fold_right Z.add 0%Z l.

Lemma Zsum_app (l1 l2 : list Z) : Zsum (l1 ++ l2) = (Zsum l1 + Zsum l2)%Z.
Proof. unfold Zsum. induction l1 as [|x l1 IH]; simpl; lia. Qed.

Lemma Zsum_nonneg (l : list Z) : Forall (fun z => 0 <= z)%Z l -> (0 <= Zsum l)%Z.
Proof. unfold Zsum. induction 1; simpl; lia. Qed.

(** The populations of the first [k] local cells. *)
Definition populations (s : state) (k : nat) : list Z :=
  map (fun lc => n_atoms s (cell_of s lc)) (seq 0 k).

Lemma populations_nonneg (s : state) (start k : nat) :
  geometry_ready s ->
  Forall (fun z => 0 <= z)%Z
    (map (fun lc => n_atoms s (cell_of s lc)) (seq start k)).
Proof.
  intros Hr. apply Forall_forall. intros z Hz.
  apply in_map_iff in Hz. destruct Hz as (lc & <- & _).
  now apply n_atoms_nonneg.
Qed.

Lemma populations_prefix (s : state) (k : nat) :
  geometry_ready s -> (k <= local_cells s)%nat ->
  (0 <= Zsum (populations s k) <= local_magnetic_atoms s)%Z.
Proof.
  intros Hr Hk. unfold local_magnetic_atoms, populations.
  fold (Zsum (map (fun lc => n_atoms s (cell_of s lc)) (seq 0 (local_cells s)))).
  assert (Hsplit : seq 0 (local_cells s) = seq 0 k ++ seq k (local_cells s - k)).
  { replace (local_cells s) with (k + (local_cells s - k))%nat at 1 by lia.
    now rewrite seq_app. }
  rewrite Hsplit, map_app, Zsum_app.
  pose proof (Zsum_nonneg _ (populations_nonneg s 0 k Hr)).
  pose proof (Zsum_nonneg _ (populations_nonneg s k (local_cells s - k) Hr)).
  lia.
Qed.

Lemma peers_nonneg (s : state) :
  counts_ready s -> Forall (fun z => 0 <= z)%Z (map fst (peers s)).
Proof.
  intros Hc. pose proof (ready_peers s Hc) as H.
  induction H; simpl; constructor; auto.
Qed.

Lemma local_count_in_range (s : state) :
  geometry_ready s -> counts_ready s ->
  (0 <= local_magnetic_atoms s <= int_max)%Z.
Proof.
  intros Hr Hc. pose proof (ready_total s Hc) as Ht.
  unfold total_magnetic_atoms in Ht.
  pose proof (Zsum_nonneg _ (peers_nonneg s Hc)) as Hp. unfold Zsum in Hp.
  pose proof (populations_prefix s (local_cells s) Hr (Nat.le_refl _)).
  lia.
Qed.

(** Lines 177-182 count the magnetic atoms of the local cells. *)
Lemma count_magnetic_atoms_ready (s : state) :
  geometry_ready s -> counts_ready s ->
  count_magnetic_atoms s = Ok (local_magnetic_atoms s).
Proof.
  intros Hr Hc. unfold count_magnetic_atoms. fold (local_cells s).
  pose proof (local_count_in_range s Hr Hc) as Hrange.
  destruct (for_each_seq_inv
              (fun lc n =>
                 bind (vec_at_nat (cells.cell_id_array (cells_globals s)) lc)
                   (fun i =>
                      bind (vec_at (internal.cells_num_atoms_in_cell (internals s)) i)
                        (fun ni => int_add n ni)))
              (fun k n => n = Zsum (populations s k))
              (local_cells s) 0 0%Z) as (n & Hrun & Hn).
  - reflexivity.
  - intros lc x Hlc ->.
    destruct (population_of_local_cell s lc Hr) as [Hid Hpop]; [lia|].
    rewrite Hid. cbn [bind]. rewrite Hpop. cbn [bind].
    exists (Zsum (populations s (S lc))).
    assert (Hsum : Zsum (populations s (S lc))
                   = (Zsum (populations s lc) + n_atoms s (cell_of s lc))%Z).
    { unfold populations. rewrite seq_snoc, map_app, Zsum_app.
      unfold Zsum. simpl. lia. }
    split; [|reflexivity].
    unfold int_add. rewrite <- Hsum. apply int_checked_in_range.
    pose proof (populations_prefix s (S lc) Hr). unfold int_min. lia.
  - rewrite Hrun. simpl in Hn. now rewrite Hn.
Qed.

Lemma MPI_Allreduce_SUM_int_in_range (x : Z) (others : list Z) :
  (0 <= x)%Z -> Forall (fun z => 0 <= z)%Z others ->
  (x + Zsum others <= int_max)%Z ->
  MPI_Allreduce_SUM_int x others = Ok (x + Zsum others)%Z.
Proof.
  unfold MPI_Allreduce_SUM_int. intros Hx Hall. revert x Hx.
  induction Hall as [|y others Hy Hall IH]; intros x Hx Hmax; simpl.
  - f_equal. unfold Zsum. simpl. lia.
  - pose proof (Zsum_nonneg _ Hall).
    unfold Zsum in Hmax. simpl in Hmax. fold (Zsum others) in Hmax.
    unfold int_add. rewrite int_checked_in_range by (unfold int_min; lia).
    cbn [bind]. rewrite IH by lia. f_equal. unfold Zsum. simpl. lia.
Qed.

Lemma MPI_Allreduce_SUM_double_sum (x : R) (others : list R) :
  MPI_Allreduce_SUM_double x others = x + Rsum others.
Proof.
  unfold MPI_Allreduce_SUM_double, Rsum. revert x.
  induction others as [|y others IH]; intros x; simpl; [lra|].
  rewrite IH. lra.
Qed.

(** The total of a component over all workers, and the number the
    diagnostic reports for it. *)
Definition reduced_total (s : state) (c : comp) : R :=
  demag_total s c + Rsum (map (fun p => get c (snd p)) (peers s)).

Definition normalised (diagonal : bool) (total : R) (n : Z) : R :=
  if diagonal then (total / IZR n - 4 * PI / 3) / (- 4 * PI)
  else total / IZR n / (- 4 * PI).

Definition demag_tensor (s : state) : sym6 R :=
  tabulate (fun c =>
    normalised (is_diagonal c) (reduced_total s c) (total_magnetic_atoms s)).

Lemma demag_factors_nonzero (N : sym6 R) (n : Z) :
  n <> 0%Z ->
  demag_factors N n
  = Ok (tabulate (fun c => normalised (is_diagonal c) (get c N) n)).
Proof.
  intros Hn. unfold demag_factors.
  rewrite !fdiv_nonzero by (apply not_0_IZR; assumption).
  reflexivity.
Qed.

(** On a well-formed geometry with at least one magnetic atom the
    diagnostic succeeds and writes the header and the nine values. *)
Lemma demag_diagnostic_ready (s : state) :
  geometry_ready s -> counts_ready s ->
  demag_diagnostic s
  = Ok (emit [zlog Demagnetisation_tensor_header;
              zlog (Demagnetisation_tensor_values
                      (report_values (demag_tensor s)))] s).
Proof.
  intros Hr Hc. unfold demag_diagnostic.
  rewrite (count_magnetic_atoms_ready s Hr Hc). cbn [bind].
  rewrite (accumulate_demag_ready s Hr). cbn [bind].
  pose proof (local_count_in_range s Hr Hc) as Hlocal.
  pose proof (ready_total s Hc) as Htotal.
  unfold total_magnetic_atoms in Htotal.
  fold (Zsum (map fst (peers s))) in Htotal.
  rewrite MPI_Allreduce_SUM_int_in_range;
    [| lia | now apply peers_nonneg | lia].
  cbn [bind].
  rewrite demag_factors_nonzero by lia. cbn [bind].
  do 7 f_equal. unfold demag_tensor. apply sym6_ext. intros c.
  rewrite !get_tabulate, MPI_Allreduce_SUM_double_sum.
  reflexivity.
Qed.

Lemma PI_nonzero : PI <> 0.
Proof. pose proof PI_RGT_0. lra. Qed.

(** The normalisation, read as a demagnetising factor: one third on the
    diagonal, nothing off it, minus the total over [4 pi n]. *)
Lemma normalised_closed_form (diagonal : bool) (total : R) (n : Z) :
  n <> 0%Z ->
  normalised diagonal total n
  = (if diagonal then 1 / 3 else 0) - total / (4 * PI * IZR n).
Proof.
  intros Hn. pose proof PI_nonzero. pose proof (not_0_IZR n Hn).
  unfold normalised. destruct diagonal; field; auto.
Qed.

End Normalisation.

Lemma example_counts_ready : dipole.counts_ready example_state.
Proof.
  constructor.
  - repeat constructor. simpl. lia.
  - vm_compute. split; [reflexivity | discriminate].
Qed.

(** C4. After the accumulation and the reduction over the workers, each of
    the six totals is divided by the total number of magnetic atoms and by
    [-4 pi]; the self-term [4 pi / 3] is subtracted, before the division by
    [-4 pi], from the three diagonal components xx, yy and zz and from no
    off-diagonal component.  So a diagonal factor is one third minus the
    total over [4 pi n], and an off-diagonal factor is minus the total over
    [4 pi n]. *)
Theorem demag_normalisation (s : dipole.state) :
  dipole.geometry_ready s -> dipole.counts_ready s ->
  let n := IZR (dipole.total_magnetic_atoms s) in
  let T := reduced_total s in
  exists D,
    dipole.demag_diagnostic s
    = Ok (dipole.emit
            [zlog Demagnetisation_tensor_header;
             zlog (Demagnetisation_tensor_values (dipole.report_values D))] s)
    /\ xx D = ((T XX / n - 4 * PI / 3) / (- 4 * PI))%R
    /\ xy D = (T XY / n / (- 4 * PI))%R
    /\ xz D = (T XZ / n / (- 4 * PI))%R
    /\ yy D = ((T YY / n - 4 * PI / 3) / (- 4 * PI))%R
    /\ yz D = (T YZ / n / (- 4 * PI))%R
    /\ zz D = ((T ZZ / n - 4 * PI / 3) / (- 4 * PI))%R
    /\ forall c,
         get c D = ((if is_diagonal c then 1 / 3 else 0) - T c / (4 * PI * n))%R.
Proof.
  intros Hr Hc n T. exists (demag_tensor s).
  split; [now apply demag_diagnostic_ready|].
  repeat (split; [reflexivity|]).
  intros c. unfold demag_tensor. rewrite get_tabulate.
  apply normalised_closed_form.
  pose proof (dipole.ready_total s Hc). lia.
Qed.

Lemma demag_normalisation_witness :
  let n := IZR (dipole.total_magnetic_atoms example_state) in
  let T := reduced_total example_state in
  exists D,
    dipole.demag_diagnostic example_state
    = Ok (dipole.emit
            [zlog Demagnetisation_tensor_header;
             zlog (Demagnetisation_tensor_values (dipole.report_values D))]
            example_state)
    /\ xx D = ((T XX / n - 4 * PI / 3) / (- 4 * PI))%R
    /\ xy D = (T XY / n / (- 4 * PI))%R
    /\ xz D = (T XZ / n / (- 4 * PI))%R
    /\ yy D = ((T YY / n - 4 * PI / 3) / (- 4 * PI))%R
    /\ yz D = (T YZ / n / (- 4 * PI))%R
    /\ zz D = ((T ZZ / n - 4 * PI / 3) / (- 4 * PI))%R
    /\ forall c,
         get c D = ((if is_diagonal c then 1 / 3 else 0) - T c / (4 * PI * n))%R.
Proof.
  apply (demag_normalisation example_state).
  - exact example_state_ready.
  - exact example_counts_ready.
Defined.

(** The totals of the small geometry, by hand: on the diagonal
    16*1 + 16*2 for the local cell 0 and 32*2 + 32*1 for the local cell 2,
    144 in all, plus 10 from the other worker; off the diagonal
    16*0 + 16*1 and 32*1 + 32*0, 48 in all; 12 magnetic atoms. *)
Example example_totals :
  dipole.demag_total example_state XX = 144%R
  /\ dipole.demag_total example_state XY = 48%R
  /\ reduced_total example_state XX = 154%R
  /\ dipole.total_magnetic_atoms example_state = 12%Z.
Proof.
  unfold reduced_total, dipole.demag_total, dipole.pair_term, dipole.factor,
    dipole.V_atomic, dipole.tensor_total, dipole.n_atoms, dipole.cell_of,
    dipole.all_cells, dipole.local_cells, Rsum.
  repeat split; simpl; try field; try reflexivity.
Qed.

(* ================================================================== *)
(** * dipole: the lifecycle guard *)
(* ================================================================== *)

Section Lifecycle.

Import dipole.
Open Scope R_scope.

Variable solver :
  arguments -> sym6 matrix * sym6 matrix -> sym6 matrix * sym6 matrix.

Lemma state_ext (s1 s2 : state) :
  activated s1 = activated s2 ->
  internals s1 = internals s2 ->
  cells_globals s1 = cells_globals s2 ->
  sim_time s1 = sim_time s2 ->
  moment s1 = moment s2 ->
  field s1 = field s2 ->
  peers s1 = peers s2 ->
  trace s1 = trace s2 ->
  s1 = s2.
Proof. destruct s1, s2; simpl; intros; subst; reflexivity. Qed.

Lemma disabled_returns_at_once (s : state) (a : arguments) :
  activated s = false -> initialize solver s a = Ok s.
Proof. intros H. unfold initialize. now rewrite H. Qed.

Lemma initialised_returns_early (s : state) (a : arguments) :
  internal.initialised (internals s) = true ->
  initialize solver s a
  = Ok (if activated s then emit [zlog Warning_already_initialised] s else s).
Proof.
  intros H. unfold initialize. rewrite H. now destruct (activated s).
Qed.

(** The diagnostic only writes to the log. *)
Lemma demag_diagnostic_frame (s s' : state) :
  demag_diagnostic s = Ok s' ->
  exists D, s' = emit [zlog Demagnetisation_tensor_header;
                       zlog (Demagnetisation_tensor_values (report_values D))] s.
Proof.
  unfold demag_diagnostic. intros H.
  destruct (count_magnetic_atoms s); [|discriminate]. cbn [bind] in H.
  destruct (accumulate_demag s); [|discriminate]. cbn [bind] in H.
  destruct (MPI_Allreduce_SUM_int _ _); [|discriminate]. cbn [bind] in H.
  destruct (demag_factors _ _) as [D|]; [|discriminate]. cbn [bind] in H.
  exists D. congruence.
Qed.

(** The field evaluator writes the field and nothing else. *)
Lemma calculate_field_frame (s : state) :
  activated (calculate_field s) = activated s
  /\ internals (calculate_field s) = internals s
  /\ cells_globals (calculate_field s) = cells_globals s
  /\ sim_time (calculate_field s) = sim_time s
  /\ moment (calculate_field s) = moment s
  /\ peers (calculate_field s) = peers s
  /\ trace (calculate_field s) = trace s.
Proof.
  unfold calculate_field.
  destruct (activated s && internal.initialised (internals s));
    repeat split; reflexivity.
Qed.

(** What [build] writes and calls, in order; [mb] is the printed
    estimate. *)
Definition build_events (a : arguments) (mb : R) : list event :=
  [cout Initialising_dipole_field_calculation;
   zlog Initialising_dipole_field_calculation;
   call_allocate_memory (cells_num_local_cells a) (cells_num_cells a);
   zlog (Requires_MB_of_RAM mb);
   cout (Requires_MB_of_RAM mb);
   zlog (Number_of_local_cells (cells_num_local_cells a));
   zlog (Number_of_total_cells (cells_num_cells a));
   zlog Precalculating_rij_matrix;
   cout Precalculating_rij_matrix;
   call_initialize_tensor_solver;
   call_barrier;
   cout Done;
   zlog Precalculation_complete;
   set_initialised].

(** The storage [build] leaves behind: what the tensor solver makes of the
    freshly allocated matrices. *)
Definition built_tensors (a : arguments) : sym6 matrix * sym6 matrix :=
  let z := tabulate (fun _ =>
             zero_matrix (cells_num_local_cells a) (cells_num_cells a)) in
  solver a (z, z).

(** The state [build] returns, when it returns. *)
Definition built (s : state) (a : arguments) (mb : R) : state :=
  {| activated := activated s;
     internals :=
       with_initialised true
         (with_tensors (fst (built_tensors a)) (snd (built_tensors a))
            (set_const_for_functions a (internals s)));
     cells_globals :=
       {| cells.num_cells := cells_num_cells a;
          cells.num_atoms_in_cell := cells_num_atoms_in_cell a;
          cells.cell_id_array := cells.cell_id_array (cells_globals s) |};
     sim_time := sim_time s;
     moment := moment s;
     field := field s;
     peers := peers s;
     trace := trace s ++ build_events a mb |}.

Lemma build_returns (s s1 : state) (a : arguments) :
  build solver s a = Ok s1 ->
  exists mb,
    memory_estimate_MB (set_const_for_functions a (internals s)) = Ok mb
    /\ s1 = built s a mb.
Proof.
  unfold build. intros H.
  unfold allocate_memory in H.
  destruct ((cells_num_local_cells a <? 0)%Z || (cells_num_cells a <? 0)%Z);
    [discriminate|].
  cbn [bind] in H.
  destruct (memory_estimate_MB (set_const_for_functions a (internals s)))
    as [mb|] eqn:Hmb.
  2:{ unfold memory_estimate_MB in *. cbn in Hmb, H.
      rewrite Hmb in H. discriminate. }
  exists mb. split; [reflexivity|].
  assert (Hmb' : forall i, memory_estimate_MB (set_const_for_functions a i) = Ok mb).
  { intros i. exact Hmb. }
  cbn [internals emit with_internals] in H.
  rewrite !Hmb' in H. cbn [bind] in H.
  cbn [internals emit with_internals with_tensors set_const_for_functions
       internal.rij_intra internal.rij_inter] in H.
  unfold built, built_tensors.
  destruct (solver a _) as [intra inter] eqn:E.
  injection H as <-.
  apply state_ext; try reflexivity.
  cbn [trace emit with_internals with_cells]. rewrite <- !app_assoc. reflexivity.
Qed.

(** The figure of lines 109-110, when the product by 6 fits an [int]. *)
Definition printed_estimate (a : arguments) : R :=
  IZR (cells_num_cells a) * IZR (cells_num_local_cells a * 6) * 8 / 1000000.

(** The sizes for which the allocation and the estimate are defined. *)
Definition sizes_ok (a : arguments) : Prop :=
  (0 <= cells_num_local_cells a)%Z
  /\ (cells_num_local_cells a * 6 <= int_max)%Z
  /\ (0 <= cells_num_cells a)%Z.

Lemma memory_estimate_defined (a : arguments) (i : internal.t) :
  sizes_ok a ->
  memory_estimate_MB (set_const_for_functions a i) = Ok (printed_estimate a).
Proof.
  intros (Hnl & Hmax & Hnc). unfold memory_estimate_MB, int_mul. simpl.
  rewrite int_checked_in_range by (unfold int_min; lia). reflexivity.
Qed.

Lemma build_defined (s : state) (a : arguments) :
  sizes_ok a -> build solver s a = Ok (built s a (printed_estimate a)).
Proof.
  intros Hok. pose proof Hok as (Hnl & Hmax & Hnc).
  unfold build, allocate_memory.
  destruct (Z.ltb_spec (cells_num_local_cells a) 0); [lia|].
  destruct (Z.ltb_spec (cells_num_cells a) 0); [lia|].
  cbn [orb bind internals emit with_internals].
  rewrite !(memory_estimate_defined a _ Hok). cbn [bind].
  unfold built, built_tensors.
  cbn [internals emit with_internals with_tensors set_const_for_functions
       internal.rij_intra internal.rij_inter].
  destruct (solver a _) as [intra inter] eqn:E.
  f_equal. apply state_ext; try reflexivity.
  cbn [trace emit with_internals with_cells]. rewrite <- !app_assoc. reflexivity.
Qed.

(** The state in which the diagnostic runs, if it runs. *)
Definition before_diagnostic (s : state) (a : arguments) : state :=
  first_update (built s a (printed_estimate a)).

Lemma first_update_frame (s : state) :
  activated (first_update s) = activated s
  /\ internals (first_update s) = internals s
  /\ cells_globals (first_update s) = cells_globals s
  /\ sim_time (first_update s) = sim_time s
  /\ moment (first_update s) = moment s
  /\ peers (first_update s) = peers s
  /\ field (first_update s) = field (calculate_field s)
  /\ trace (first_update s)
     = trace s ++ [call_calculate_field; call_barrier;
                   zlog Time_required_for_dipole_update;
                   zlog Outputting_dipole_matrix].
Proof.
  destruct (calculate_field_frame s) as (Ha & Hi & Hc & Ht & Hm & Hp & Htr).
  unfold first_update, emit; simpl.
  rewrite Htr, <- app_assoc. repeat split; assumption.
Qed.

(** The whole of a first call, on sizes for which it is defined. *)
Lemma initialize_first_call (s : state) (a : arguments) :
  activated s = true ->
  internal.initialised (internals s) = false ->
  sizes_ok a ->
  (sim_time s = 0%Z ->
   geometry_ready (before_diagnostic s a) /\ counts_ready (before_diagnostic s a)) ->
  initialize solver s a
  = Ok (if (sim_time s =? 0)%Z
        then emit [zlog Demagnetisation_tensor_header;
                   zlog (Demagnetisation_tensor_values
                           (report_values (demag_tensor (before_diagnostic s a))))]
                  (before_diagnostic s a)
        else before_diagnostic s a).
Proof.
  intros Hact Hini Hok Hready. unfold initialize.
  rewrite Hact, Hini. cbn [negb].
  rewrite (build_defined s a Hok). cbn [bind].
  fold (before_diagnostic s a).
  destruct (first_update_frame (built s a (printed_estimate a)))
    as (_ & _ & _ & Htime & _).
  fold (before_diagnostic s a) in Htime. rewrite Htime. simpl sim_time.
  destruct (Z.eqb_spec (sim_time s) 0) as [Hzero | Hnz]; [|reflexivity].
  destruct (Hready Hzero) as [Hg Hc].
  now apply demag_diagnostic_ready.
Qed.

(** ** Reading traces *)

Lemma steps_app (t1 t2 : list event) : steps (t1 ++ t2) = steps t1 ++ steps t2.
Proof.
  induction t1 as [|e t1 IH]; simpl; [reflexivity|].
  destruct (step_of e); simpl; now rewrite IH.
Qed.

Lemma demag_reports_app (t1 t2 : list event) :
  demag_reports (t1 ++ t2) = demag_reports t1 ++ demag_reports t2.
Proof.
  induction t1 as [|e t1 IH]; simpl; [reflexivity|].
  destruct e as [m| | | | | |]; try assumption.
  destruct m; simpl; try assumption. now rewrite IH.
Qed.

Lemma zlog_of_app (t1 t2 : list event) :
  zlog_of (t1 ++ t2) = zlog_of t1 ++ zlog_of t2.
Proof.
  induction t1 as [|e t1 IH]; simpl; [reflexivity|].
  destruct e; simpl; try assumption. now rewrite IH.
Qed.

(** ** The reports of a call and of a run *)

(** The condition under which a call of [initialize] runs the diagnostic. *)
Definition diagnostic_due (s : state) : bool :=
  activated s && negb (internal.initialised (internals s)) && (sim_time s =? 0)%Z.

Lemma initialize_reports (s s' : state) (a : arguments) :
  initialize solver s a = Ok s' ->
  activated s' = activated s
  /\ internal.initialised (internals s')
     = (internal.initialised (internals s) || activated s)%bool
  /\ exists new,
       demag_reports (trace s') = demag_reports (trace s) ++ new
       /\ if diagnostic_due s then exists v, new = [v] else new = [].
Proof.
  unfold initialize, diagnostic_due. intros H.
  destruct (activated s) eqn:Hact; cbn [negb andb] in *.
  2:{ injection H as <-. rewrite Hact, orb_false_r. repeat split.
      exists []. now rewrite app_nil_r. }
  destruct (internal.initialised (internals s)) eqn:Hini; cbn [negb andb orb] in *.
  { injection H as <-. cbn [activated internals trace emit].
    rewrite Hact, Hini. repeat split.
    exists []. now rewrite demag_reports_app. }
  destruct (build solver s a) as [s1|] eqn:Hb; [|discriminate].
  cbn [bind] in H.
  destruct (build_returns s s1 a Hb) as (mb & _ & ->).
  destruct (first_update_frame (built s a mb))
    as (Ha & Hi & _ & Ht & _ & _ & _ & Htr).
  rewrite Ht in H. cbn [sim_time built] in H.
  assert (Hquiet : demag_reports (trace (first_update (built s a mb)))
                   = demag_reports (trace s)).
  { rewrite Htr. cbn [trace built]. rewrite !demag_reports_app.
    cbn [demag_reports build_events]. now rewrite !app_nil_r. }
  cbn [activated internals built with_initialised internal.initialised] in Ha, Hi.
  destruct (sim_time s =? 0)%Z.
  - destruct (demag_diagnostic_frame _ _ H) as (D & ->).
    cbn [activated internals trace emit].
    rewrite Ha, Hi. cbn [internal.initialised with_initialised].
    repeat split; auto.
    exists [report_values D]. rewrite demag_reports_app, Hquiet.
    split; [reflexivity | eauto].
  - injection H as <-. rewrite Ha, Hi, Hquiet.
    cbn [internal.initialised with_initialised]. repeat split; auto.
    exists []. now rewrite app_nil_r.
Qed.

(** Once the module is initialised, no call reports a tensor. *)
Lemma run_after_initialised (calls : list call) (s s' : state) :
  internal.initialised (internals s) = true ->
  run solver calls s = Ok s' ->
  internal.initialised (internals s') = true
  /\ demag_reports (trace s') = demag_reports (trace s).
Proof.
  revert s. induction calls as [|c calls IH]; intros s Hini Hrun.
  - injection Hrun as <-. auto.
  - unfold run in Hrun. simpl in Hrun.
    destruct (perform solver c s) as [s1|] eqn:Hc; [|discriminate].
    cbn [bind] in Hrun.
    assert (Hs1 : internal.initialised (internals s1) = true
                  /\ demag_reports (trace s1) = demag_reports (trace s)).
    { destruct c as [a| |t m]; simpl in Hc.
      - destruct (initialize_reports s s1 a Hc) as (_ & Hi & new & Hnew & Hdue).
        rewrite Hini in Hi. split; [assumption|].
        unfold diagnostic_due in Hdue. rewrite Hini, andb_false_r in Hdue.
        simpl in Hdue. subst new. now rewrite app_nil_r in Hnew.
      - injection Hc as <-.
        destruct (calculate_field_frame s) as (_ & -> & _ & _ & _ & _ & ->).
        auto.
      - injection Hc as <-. auto. }
    destruct Hs1 as [Hini1 Hrep1].
    destruct (IH s1 Hini1 Hrun) as [Hini' Hrep']. split; congruence.
Qed.

(** From an uninitialised module, a run reports at most one tensor. *)
Lemma run_reports_at_most_once (calls : list call) (s s' : state) :
  internal.initialised (internals s) = false ->
  run solver calls s = Ok s' ->
  exists new,
    demag_reports (trace s') = demag_reports (trace s) ++ new
    /\ (List.length new <= 1)%nat.
Proof.
  revert s. induction calls as [|c calls IH]; intros s Hini Hrun.
  - injection Hrun as <-. exists []. rewrite app_nil_r. auto.
  - unfold run in Hrun. simpl in Hrun.
    destruct (perform solver c s) as [s1|] eqn:Hc; [|discriminate].
    cbn [bind] in Hrun.
    destruct c as [a| |t m]; simpl in Hc.
    + destruct (initialize_reports s s1 a Hc) as (_ & Hi & new & Hnew & Hdue).
      rewrite Hini in Hi. simpl in Hi.
      destruct (activated s) eqn:Hact.
      * destruct (run_after_initialised calls s1 s' Hi Hrun) as [_ Hrep].
        exists new. split; [congruence|].
        destruct (diagnostic_due s); [destruct Hdue as [v ->] | subst new];
          simpl; lia.
      * unfold diagnostic_due in Hdue. rewrite Hact in Hdue. simpl in Hdue.
        subst new. rewrite app_nil_r in Hnew.
        destruct (IH s1 Hi Hrun) as (new & Hrep & Hlen).
        exists new. split; [congruence | assumption].
    + injection Hc as <-.
      destruct (calculate_field_frame s) as (_ & Hi & _ & _ & _ & _ & Htr).
      destruct (IH (calculate_field s)) as (new & Hrep & Hlen);
        [congruence | assumption |].
      exists new. split; [congruence | assumption].
    + injection Hc as <-.
      destruct (IH (timestep t m s)) as (new & Hrep & Hlen);
        [assumption | assumption |].
      exists new. split; assumption.
Qed.

End Lifecycle.

(* ================================================================== *)
(** * dipole: the memory estimate *)
(* ================================================================== *)

Section MemoryEstimate.

Import dipole.
Open Scope R_scope.

Lemma zero_matrix_scalars (nl nc : Z) :
  matrix_scalars (zero_matrix nl nc) = (Z.to_nat nl * Z.to_nat nc)%nat.
Proof.
  unfold zero_matrix. induction (Z.to_nat nl) as [|n IH]; simpl; [reflexivity|].
  now rewrite IH, repeat_length.
Qed.

Lemma allocated_storage_bytes (i : internal.t) (nl nc : Z) :
  (0 <= nl)%Z -> (0 <= nc)%Z ->
  exists i', allocate_memory i nl nc = Ok i'
             /\ storage_bytes i' = (96 * nl * nc)%Z.
Proof.
  intros Hnl Hnc. unfold allocate_memory.
  destruct (Z.ltb_spec nl 0); [lia|]. destruct (Z.ltb_spec nc 0); [lia|].
  eexists. split; [reflexivity|].
  unfold storage_bytes, tensor_scalars.
  cbn [internal.rij_intra internal.rij_inter with_tensors tabulate
       xx xy xz yy yz zz].
  rewrite !zero_matrix_scalars.
  assert (Hp : Z.of_nat (Z.to_nat nl * Z.to_nat nc) = (nl * nc)%Z).
  { rewrite Nat2Z.inj_mul, !Z2Nat.id by assumption. reflexivity. }
  set (p := (Z.to_nat nl * Z.to_nat nc)%nat) in *. lia.
Qed.

Lemma printed_estimate_bytes (a : arguments) :
  printed_estimate a * 1000000
  = IZR (48 * cells_num_local_cells a * cells_num_cells a).
Proof.
  unfold printed_estimate. rewrite !mult_IZR. field.
Qed.

(** For positive cell counts the printed figure is half the storage that
    is allocated: it counts 6 doubles for each pair of cells, the storage
    holds 12. *)
Lemma memory_estimate_is_half_the_storage (i : internal.t) (a : arguments) :
  sizes_ok a ->
  (0 < cells_num_local_cells a)%Z -> (0 < cells_num_cells a)%Z ->
  exists i',
    allocate_memory i (cells_num_local_cells a) (cells_num_cells a) = Ok i'
    /\ memory_estimate_MB (set_const_for_functions a i') = Ok (printed_estimate a)
    /\ 2 * (printed_estimate a * 1000000) = IZR (storage_bytes i')
    /\ printed_estimate a * 1000000 <> IZR (storage_bytes i').
Proof.
  intros Hok Hnl Hnc.
  destruct (allocated_storage_bytes i (cells_num_local_cells a) (cells_num_cells a))
    as (i' & Halloc & Hbytes); [lia | lia |].
  exists i'. split; [assumption|].
  split; [now apply memory_estimate_defined|].
  rewrite printed_estimate_bytes, Hbytes. split.
  - rewrite <- mult_IZR. f_equal. lia.
  - intros E. apply eq_IZR in E. nia.
Qed.

End MemoryEstimate.

(** One local cell of one cell. *)
Definition one_cell_arguments : dipole.arguments :=
  {| dipole.cells_num_atoms_in_unit_cell := 1;
     dipole.cells_num_cells := 1;
     dipole.cells_num_local_cells := 1;
     dipole.cells_macro_cell_size := 1;
     dipole.cells_local_cell_array := [0%Z];
     dipole.cells_num_atoms_in_cell := [1%Z];
     dipole.cells_num_atoms_in_cell_global := [1%Z];
     dipole.cells_index_atoms_array := [[0%Z]];
     dipole.cells_volume_array := [1%R];
     dipole.cells_pos_and_mom_array := [];
     dipole.cells_atom_in_cell_coords_array_x := [[0%R]];
     dipole.cells_atom_in_cell_coords_array_y := [[0%R]];
     dipole.cells_atom_in_cell_coords_array_z := [[0%R]];
     dipole.atom_type_array := [0%Z];
     dipole.atom_cell_id_array := [0%Z];
     dipole.atom_coords_x := [0%R];
     dipole.atom_coords_y := [0%R];
     dipole.atom_coords_z := [0%R];
     dipole.num_atoms := 1 |}.

(** C5. The memory estimate printed before the tensor build, against the
    documented tensor storage of num_local_cells x num_cells x 12 scalars
    of 8 bytes: at one local cell of one cell the code prints 4.8e-5 MB,
    that is 48 bytes, while the storage set up for that call holds 12
    doubles, 96 bytes.  The estimate counts 6 doubles for a pair of cells
    where the storage holds 12. *)
Theorem memory_estimate_at_one_cell :
  exists i mb,
    dipole.allocate_memory example_internals 1 1 = Ok i
    /\ dipole.storage_bytes i = 96%Z
    /\ dipole.memory_estimate_MB
         (dipole.set_const_for_functions one_cell_arguments i) = Ok mb
    /\ (mb * 1000000 = 48)%R
    /\ (mb * 1000000 <> IZR (dipole.storage_bytes i))%R
    /\ (mb * 1000000 <> 1 * 1 * 12 * 8)%R.
Proof.
  destruct (memory_estimate_is_half_the_storage example_internals one_cell_arguments)
    as (i & Halloc & Hest & Hhalf & Hne).
  - unfold sizes_ok, int_max. simpl. lia.
  - simpl. lia.
  - simpl. lia.
  - exists i, (printed_estimate one_cell_arguments).
    simpl in Halloc. split; [assumption|].
    assert (Hbytes : dipole.storage_bytes i = 96%Z).
    { unfold dipole.allocate_memory in Halloc. simpl in Halloc.
      injection Halloc as <-. reflexivity. }
    split; [assumption|]. split; [assumption|].
    assert (Hmb : (printed_estimate one_cell_arguments * 1000000 = 48)%R).
    { rewrite printed_estimate_bytes. simpl. reflexivity. }
    split; [assumption|]. split; [assumption|].
    rewrite Hmb. lra.
Qed.

(* ================================================================== *)
(** * dipole: a first call on the small geometry *)
(* ================================================================== *)

(** The arguments that describe the small geometry. *)
Definition example_arguments : dipole.arguments :=
  {| dipole.cells_num_atoms_in_unit_cell := 2;
     dipole.cells_num_cells := 3;
     dipole.cells_num_local_cells := 2;
     dipole.cells_macro_cell_size := 2;
     dipole.cells_local_cell_array := [0; 2]%Z;
     dipole.cells_num_atoms_in_cell := [2; 0; 4]%Z;
     dipole.cells_num_atoms_in_cell_global := [2; 0; 4]%Z;
     dipole.cells_index_atoms_array := [[0; 1]; []; [2; 3; 4; 5]]%Z;
     dipole.cells_volume_array := [8; 8; 8]%R;
     dipole.cells_pos_and_mom_array := [];
     dipole.cells_atom_in_cell_coords_array_x := [[0; 1]; []; [4; 5; 4; 5]]%R;
     dipole.cells_atom_in_cell_coords_array_y := [[0; 0]; []; [0; 0; 1; 1]]%R;
     dipole.cells_atom_in_cell_coords_array_z := [[0; 0]; []; [0; 0; 0; 0]]%R;
     dipole.atom_type_array := [0; 0; 0; 0; 0; 0]%Z;
     dipole.atom_cell_id_array := [0; 0; 2; 2; 2; 2]%Z;
     dipole.atom_coords_x := [0; 1; 4; 5; 4; 5]%R;
     dipole.atom_coords_y := [0; 0; 0; 0; 1; 1]%R;
     dipole.atom_coords_z := [0; 0; 0; 0; 0; 0]%R;
     dipole.num_atoms := 6 |}.

(** A tensor solver for the small geometry: it adds the tensors of
    [example_internals] to the allocated entries. *)
Definition add_matrix (m1 m2 : matrix) : matrix :=
  map (fun rows => map (fun xy => (fst xy + snd xy)%R) (combine (fst rows) (snd rows)))
      (combine m1 m2).

Definition example_solver (a : dipole.arguments)
    (storage : sym6 matrix * sym6 matrix) : sym6 matrix * sym6 matrix :=
  (tabulate (fun c => add_matrix (get c (fst storage))
                        (get c (dipole.internal.rij_intra example_internals))),
   tabulate (fun c => add_matrix (get c (snd storage))
                        (get c (dipole.internal.rij_inter example_internals)))).

(** The module before its first call, enabled, at simulated time zero. *)
Definition fresh_state : dipole.state :=
  {| dipole.activated := true;
     dipole.internals :=
       {| dipole.internal.initialised := false;
          dipole.internal.rij_intra := tabulate (fun _ => []);
          dipole.internal.rij_inter := tabulate (fun _ => []);
          dipole.internal.num_atoms := 0;
          dipole.internal.atom_type_array := [];
          dipole.internal.atom_cell_id_array := [];
          dipole.internal.cells_num_cells := 0;
          dipole.internal.cells_num_local_cells := 0;
          dipole.internal.cells_local_cell_array := [];
          dipole.internal.cells_num_atoms_in_cell := [];
          dipole.internal.cells_volume_array := [];
          dipole.internal.cells_pos_and_mom_array := [] |};
     dipole.cells_globals :=
       {| cells.num_cells := 0;
          cells.num_atoms_in_cell := [];
          cells.cell_id_array := [0; 2]%Z |};
     dipole.sim_time := 0;
     dipole.moment := [(0, 0, 1); (0, 0, 0); (0, 0, 1)]%R;
     dipole.field := [];
     dipole.peers := [];
     dipole.trace := [] |}.

(** The same module with the feature switched off. *)
Definition disabled_state : dipole.state :=
  {| dipole.activated := false;
     dipole.internals := dipole.internals fresh_state;
     dipole.cells_globals := dipole.cells_globals fresh_state;
     dipole.sim_time := 0;
     dipole.moment := dipole.moment fresh_state;
     dipole.field := [];
     dipole.peers := [];
     dipole.trace := [] |}.

Lemma example_sizes_ok : sizes_ok example_arguments.
Proof. unfold sizes_ok, int_max. simpl. lia. Qed.

Lemma fresh_state_ready :
  dipole.geometry_ready (before_diagnostic example_solver fresh_state example_arguments)
  /\ dipole.counts_ready (before_diagnostic example_solver fresh_state example_arguments).
Proof.
  split.
  - constructor; unfold dipole.local_cells, dipole.all_cells; simpl.
    + lia.
    + intros [|[|lc]] H; simpl; lia.
    + lia.
    + repeat constructor; lia.
    + lia.
    + intros c. unfold dipole.shaped.
      destruct c; simpl; repeat split; repeat constructor.
  - constructor.
    + simpl. constructor.
    + vm_compute. split; [reflexivity | discriminate].
Qed.

(* ================================================================== *)
(** * dipole: the claims about the lifecycle *)
(* ================================================================== *)

(** C8. If the feature flag [dipole::activated] is false, [initialize]
    returns at once and is a no-op: for every input the state comes back
    as it was, so no tensor storage is allocated, nothing is written to the
    log and the initialised flag is not set. *)
Theorem disabled_initialize_is_noop
    (solver : dipole.arguments -> sym6 matrix * sym6 matrix
              -> sym6 matrix * sym6 matrix)
    (s : dipole.state) (a : dipole.arguments) :
  dipole.activated s = false ->
  exists s',
    dipole.initialize solver s a = Ok s'
    /\ s' = s
    /\ dipole.internal.rij_intra (dipole.internals s')
       = dipole.internal.rij_intra (dipole.internals s)
    /\ dipole.internal.rij_inter (dipole.internals s')
       = dipole.internal.rij_inter (dipole.internals s)
    /\ dipole.trace s' = dipole.trace s
    /\ dipole.zlog_of (dipole.trace s') = dipole.zlog_of (dipole.trace s)
    /\ dipole.internal.initialised (dipole.internals s')
       = dipole.internal.initialised (dipole.internals s).
Proof.
  intros H. exists s. split; [now apply disabled_returns_at_once|].
  repeat split.
Qed.

Lemma disabled_initialize_is_noop_witness :
  exists s',
    dipole.initialize example_solver disabled_state example_arguments = Ok s'
    /\ s' = disabled_state
    /\ dipole.internal.rij_intra (dipole.internals s')
       = dipole.internal.rij_intra (dipole.internals disabled_state)
    /\ dipole.internal.rij_inter (dipole.internals s')
       = dipole.internal.rij_inter (dipole.internals disabled_state)
    /\ dipole.trace s' = dipole.trace disabled_state
    /\ dipole.zlog_of (dipole.trace s') = dipole.zlog_of (dipole.trace disabled_state)
    /\ dipole.internal.initialised (dipole.internals s')
       = dipole.internal.initialised (dipole.internals disabled_state).
Proof.
  apply (disabled_initialize_is_noop example_solver disabled_state example_arguments).
  reflexivity.
Defined.

(** C1. A call of [initialize] on a module that is already initialised
    returns without touching the module: all tensor data, the initialised
    flag and every other variable are as the first call left them; the
    only effect is the warning written to the log, which the enabled module
    writes, and a module left by a successful first call is enabled. *)
Theorem repeated_initialize_changes_nothing
    (solver : dipole.arguments -> sym6 matrix * sym6 matrix
              -> sym6 matrix * sym6 matrix)
    (s : dipole.state) (a : dipole.arguments) :
  dipole.internal.initialised (dipole.internals s) = true ->
  exists s',
    dipole.initialize solver s a = Ok s'
    /\ dipole.internals s' = dipole.internals s
    /\ dipole.internal.initialised (dipole.internals s') = true
    /\ dipole.cells_globals s' = dipole.cells_globals s
    /\ dipole.field s' = dipole.field s
    /\ dipole.moment s' = dipole.moment s
    /\ dipole.activated s' = dipole.activated s
    /\ dipole.sim_time s' = dipole.sim_time s
    /\ dipole.peers s' = dipole.peers s
    /\ dipole.trace s'
       = dipole.trace s
         ++ (if dipole.activated s then [zlog Warning_already_initialised] else [])
    /\ forall s0 a0,
         dipole.activated s0 = true ->
         dipole.initialize solver s0 a0 = Ok s ->
         dipole.trace s' = dipole.trace s ++ [zlog Warning_already_initialised].
Proof.
  intros Hini. eexists. split; [now apply initialised_returns_early|].
  assert (Hfirst : forall s0 a0,
             dipole.activated s0 = true ->
             dipole.initialize solver s0 a0 = Ok s ->
             dipole.activated s = true).
  { intros s0 a0 Hact H0.
    destruct (initialize_reports solver s0 s a0 H0) as (-> & _). assumption. }
  destruct (dipole.activated s) eqn:Hact;
    cbn [dipole.emit dipole.internals dipole.cells_globals dipole.field
         dipole.moment dipole.activated dipole.sim_time dipole.peers
         dipole.trace];
    repeat split; auto.
  - now rewrite app_nil_r.
  - intros s0 a0 H0 H1. specialize (Hfirst s0 a0 H0 H1). discriminate.
Qed.

Lemma repeated_initialize_changes_nothing_witness :
  exists s',
    dipole.initialize example_solver example_state example_arguments = Ok s'
    /\ dipole.internals s' = dipole.internals example_state
    /\ dipole.internal.initialised (dipole.internals s') = true
    /\ dipole.cells_globals s' = dipole.cells_globals example_state
    /\ dipole.field s' = dipole.field example_state
    /\ dipole.moment s' = dipole.moment example_state
    /\ dipole.activated s' = dipole.activated example_state
    /\ dipole.sim_time s' = dipole.sim_time example_state
    /\ dipole.peers s' = dipole.peers example_state
    /\ dipole.trace s'
       = dipole.trace example_state
         ++ (if dipole.activated example_state
             then [zlog Warning_already_initialised] else [])
    /\ forall s0 a0,
         dipole.activated s0 = true ->
         dipole.initialize example_solver s0 a0 = Ok example_state ->
         dipole.trace s'
         = dipole.trace example_state ++ [zlog Warning_already_initialised].
Proof.
  apply (repeated_initialize_changes_nothing example_solver example_state
           example_arguments).
  reflexivity.
Defined.

(** What a first call writes and calls after [build]. *)
Definition first_call_events (a : dipole.arguments) (report : list (list R))
  : list event :=
  build_events a (printed_estimate a)
  ++ [call_calculate_field; call_barrier;
      zlog Time_required_for_dipole_update; zlog Outputting_dipole_matrix]
  ++ flat_map (fun v => [zlog Demagnetisation_tensor_header;
                         zlog (Demagnetisation_tensor_values v)]) report.

Lemma first_call_trace
    (solver : dipole.arguments -> sym6 matrix * sym6 matrix
              -> sym6 matrix * sym6 matrix)
    (s : dipole.state) (a : dipole.arguments) :
  dipole.trace (before_diagnostic solver s a)
  = dipole.trace s ++ first_call_events a [].
Proof.
  unfold before_diagnostic, first_call_events.
  destruct (first_update_frame (built solver s a (printed_estimate a)))
    as (_ & _ & _ & _ & _ & _ & _ & ->).
  simpl. rewrite <- !app_assoc. reflexivity.
Qed.

Lemma first_call_reports (a : dipole.arguments) (report : list (list R)) :
  dipole.demag_reports (first_call_events a report) = report.
Proof.
  unfold first_call_events. rewrite !demag_reports_app. simpl.
  induction report as [|v report IH]; simpl; [reflexivity|]. now rewrite IH.
Qed.

(** C2. On the first successful call (module enabled, not yet
    initialised, sizes for which the allocation is defined and, at time
    zero, a geometry on which the diagnostic is defined) [initialize]
    performs these steps in this order: it allocates the tensor storage,
    fills it with the tensor solver, holds at a barrier, sets the
    initialised flag, evaluates the field once, holds at a second barrier,
    and then, only if the simulated time is zero, runs the demagnetising
    diagnostic: the state returned is then the one the diagnostic returns
    on the state left by the second barrier, and the one tensor it reports
    is the normalised total of that state; at any other time nothing is
    reported and the state left by the second barrier is returned. *)
Theorem first_initialize_performs_steps_in_order
    (solver : dipole.arguments -> sym6 matrix * sym6 matrix
              -> sym6 matrix * sym6 matrix)
    (s : dipole.state) (a : dipole.arguments) :
  dipole.activated s = true ->
  dipole.internal.initialised (dipole.internals s) = false ->
  sizes_ok a ->
  (dipole.sim_time s = 0%Z ->
   dipole.geometry_ready (before_diagnostic solver s a)
   /\ dipole.counts_ready (before_diagnostic solver s a)) ->
  exists s' new,
    dipole.initialize solver s a = Ok s'
    /\ dipole.trace s' = dipole.trace s ++ new
    /\ dipole.steps new
       = [dipole.allocates_storage; dipole.fills_storage; dipole.barrier;
          dipole.sets_flag; dipole.evaluates_field; dipole.barrier]
         ++ (if (dipole.sim_time s =? 0)%Z then [dipole.runs_diagnostic] else [])
    /\ dipole.demag_reports new
       = (if (dipole.sim_time s =? 0)%Z
          then [dipole.report_values
                  (demag_tensor (before_diagnostic solver s a))]
          else [])
    /\ (dipole.sim_time s = 0%Z ->
        dipole.demag_diagnostic (before_diagnostic solver s a) = Ok s')
    /\ (dipole.sim_time s <> 0%Z -> s' = before_diagnostic solver s a)
    /\ dipole.internal.initialised (dipole.internals s') = true
    /\ (dipole.internal.rij_intra (dipole.internals s'),
        dipole.internal.rij_inter (dipole.internals s'))
       = solver a
           (tabulate (fun _ => dipole.zero_matrix (dipole.cells_num_local_cells a)
                                 (dipole.cells_num_cells a)),
            tabulate (fun _ => dipole.zero_matrix (dipole.cells_num_local_cells a)
                                 (dipole.cells_num_cells a)))
    /\ dipole.field s'
       = dipole.field
           (dipole.calculate_field (built solver s a (printed_estimate a))).
Proof.
  intros Hact Hini Hok Hready.
  rewrite (initialize_first_call solver s a Hact Hini Hok Hready).
  pose proof (first_call_trace solver s a) as Htrace.
  destruct (first_update_frame (built solver s a (printed_estimate a)))
    as (_ & Hint & _ & _ & _ & _ & Hfield & _).
  fold (before_diagnostic solver s a) in Hint, Hfield.
  assert (Htensors :
            (dipole.internal.rij_intra
               (dipole.internals (built solver s a (printed_estimate a))),
             dipole.internal.rij_inter
               (dipole.internals (built solver s a (printed_estimate a))))
            = built_tensors solver a).
  { cbn [dipole.internals built dipole.with_initialised dipole.with_tensors
         dipole.internal.rij_intra dipole.internal.rij_inter].
    now destruct (built_tensors solver a). }
  destruct (Z.eqb_spec (dipole.sim_time s) 0) as [Hzero | Hnz].
  - eexists. exists (first_call_events a
                       [dipole.report_values
                          (demag_tensor (before_diagnostic solver s a))]).
    split; [reflexivity|].
    cbn [dipole.trace dipole.emit dipole.internals dipole.field].
    rewrite Htrace.
    split.
    { unfold first_call_events. cbn [flat_map]. rewrite <- !app_assoc.
      rewrite app_nil_r. reflexivity. }
    split; [reflexivity|].
    split; [apply first_call_reports|].
    split.
    { intros _. destruct (Hready Hzero) as [Hg Hc].
      now apply demag_diagnostic_ready. }
    split; [intros Hne; contradiction|].
    rewrite Hint. split; [reflexivity|]. split; assumption.
  - eexists. exists (first_call_events a []).
    split; [reflexivity|]. split; [assumption|].
    split; [reflexivity|].
    split; [apply first_call_reports|].
    split; [intros Hz; contradiction|].
    split; [intros _; reflexivity|].
    rewrite Hint. split; [reflexivity|]. split; assumption.
Qed.

Lemma first_initialize_performs_steps_in_order_witness :
  exists s' new,
    dipole.initialize example_solver fresh_state example_arguments = Ok s'
    /\ dipole.trace s' = dipole.trace fresh_state ++ new
    /\ dipole.steps new
       = [dipole.allocates_storage; dipole.fills_storage; dipole.barrier;
          dipole.sets_flag; dipole.evaluates_field; dipole.barrier]
         ++ (if (dipole.sim_time fresh_state =? 0)%Z
             then [dipole.runs_diagnostic] else [])
    /\ dipole.demag_reports new
       = (if (dipole.sim_time fresh_state =? 0)%Z
          then [dipole.report_values
                  (demag_tensor
                     (before_diagnostic example_solver fresh_state
                        example_arguments))]
          else [])
    /\ (dipole.sim_time fresh_state = 0%Z ->
        dipole.demag_diagnostic
          (before_diagnostic example_solver fresh_state example_arguments)
        = Ok s')
    /\ (dipole.sim_time fresh_state <> 0%Z ->
        s' = before_diagnostic example_solver fresh_state example_arguments)
    /\ dipole.internal.initialised (dipole.internals s') = true
    /\ (dipole.internal.rij_intra (dipole.internals s'),
        dipole.internal.rij_inter (dipole.internals s'))
       = example_solver example_arguments
           (tabulate (fun _ =>
              dipole.zero_matrix (dipole.cells_num_local_cells example_arguments)
                (dipole.cells_num_cells example_arguments)),
            tabulate (fun _ =>
              dipole.zero_matrix (dipole.cells_num_local_cells example_arguments)
                (dipole.cells_num_cells example_arguments)))
    /\ dipole.field s'
       = dipole.field
           (dipole.calculate_field
              (built example_solver fresh_state example_arguments
                 (printed_estimate example_arguments))).
Proof.
  apply (first_initialize_performs_steps_in_order example_solver fresh_state
           example_arguments).
  - reflexivity.
  - reflexivity.
  - exact example_sizes_ok.
  - intros _. exact fresh_state_ready.
Defined.

Lemma diagnostic_due_iff (s : dipole.state) :
  diagnostic_due s = true
  <-> dipole.activated s = true
      /\ dipole.internal.initialised (dipole.internals s) = false
      /\ dipole.sim_time s = 0%Z.
Proof.
  unfold diagnostic_due.
  rewrite !andb_true_iff, negb_true_iff, Z.eqb_eq. tauto.
Qed.

(** C6. The demagnetising diagnostic runs in a call of [initialize] if and
    only if that call is the first successful initialisation and the
    simulated time is zero then; a run of the module reports at most one
    demagnetisation tensor; once the module is initialised no later call
    reports or changes one, whatever the time and the moments; and the
    field evaluator, at any time and for any moments, leaves the log and
    the tensor data as they are. *)
Theorem demag_diagnostic_runs_once_at_time_zero
    (solver : dipole.arguments -> sym6 matrix * sym6 matrix
              -> sym6 matrix * sym6 matrix) :
  (* a call reports one tensor when the diagnostic is due, none otherwise *)
  (forall s a s',
      dipole.initialize solver s a = Ok s' ->
      exists new,
        dipole.demag_reports (dipole.trace s')
        = dipole.demag_reports (dipole.trace s) ++ new
        /\ ((exists v, new = [v])
            <-> dipole.activated s = true
                /\ dipole.internal.initialised (dipole.internals s) = false
                /\ dipole.sim_time s = 0%Z)
        /\ (new = [] \/ exists v, new = [v]))
  (* when it is due and defined, it does run *)
  /\ (forall s a,
        dipole.activated s = true ->
        dipole.internal.initialised (dipole.internals s) = false ->
        dipole.sim_time s = 0%Z ->
        sizes_ok a ->
        dipole.geometry_ready (before_diagnostic solver s a) ->
        dipole.counts_ready (before_diagnostic solver s a) ->
        exists s',
          dipole.initialize solver s a = Ok s'
          /\ dipole.demag_reports (dipole.trace s')
             = dipole.demag_reports (dipole.trace s)
               ++ [dipole.report_values
                     (demag_tensor (before_diagnostic solver s a))])
  (* at most once per run *)
  /\ (forall calls s s',
        dipole.internal.initialised (dipole.internals s) = false ->
        dipole.run solver calls s = Ok s' ->
        exists new,
          dipole.demag_reports (dipole.trace s')
          = dipole.demag_reports (dipole.trace s) ++ new
          /\ (List.length new <= 1)%nat)
  (* never after the initialisation *)
  /\ (forall calls s s',
        dipole.internal.initialised (dipole.internals s) = true ->
        dipole.run solver calls s = Ok s' ->
        dipole.demag_reports (dipole.trace s')
        = dipole.demag_reports (dipole.trace s))
  (* the field evaluator, at any time and for any moments *)
  /\ (forall s time moments,
        let s1 := dipole.timestep time moments s in
        dipole.trace (dipole.calculate_field s1) = dipole.trace s
        /\ dipole.internals (dipole.calculate_field s1) = dipole.internals s).
Proof.
  repeat apply conj.
  - intros s a s' H.
    destruct (initialize_reports solver s s' a H) as (_ & _ & new & Hnew & Hdue).
    exists new. split; [assumption|].
    rewrite <- diagnostic_due_iff.
    destruct (diagnostic_due s).
    + split; [tauto | now right].
    + subst new. split; [|now left].
      split; [intros [v Hv]; discriminate | discriminate].
  - intros s a Hact Hini Htime Hok Hg Hc.
    rewrite (initialize_first_call solver s a Hact Hini Hok (fun _ => conj Hg Hc)).
    rewrite Htime. cbn [Z.eqb]. eexists. split; [reflexivity|].
    cbn [dipole.trace dipole.emit].
    rewrite first_call_trace, !demag_reports_app, first_call_reports.
    cbn [dipole.demag_reports]. now rewrite app_nil_r.
  - intros calls s s'. apply run_reports_at_most_once.
  - intros calls s s' Hini Hrun.
    now destruct (run_after_initialised solver calls s s' Hini Hrun).
  - intros s time moments s1.
    destruct (calculate_field_frame s1) as (_ & -> & _ & _ & _ & _ & ->).
    split; reflexivity.
Qed.

(* ================================================================== *)
(** * stats: more about the standard-deviation statistic *)
(* ================================================================== *)

Section WelfordMore.

Import stats.
Open Scope R_scope.

(** A statistic as [initialize] and [update] leave it: initialised, both
    vectors of [4*num_elements] entries, a counter that is not negative. *)
Definition well_formed (st : standard_deviation_statistic_t) : Prop :=
  initialized st = true
  /\ List.length (mean st) = (4 * num_elements st)%nat
  /\ List.length (residual_sq st) = (4 * num_elements st)%nat
  /\ 0 <= mean_counter st.

Lemma welford_inv_well_formed (ne : nat) (vs : list (list R))
    (st : standard_deviation_statistic_t) :
  welford_inv ne vs st -> well_formed st /\ num_elements st = ne.
Proof.
  intros (Hne & Hin & Hcnt & Hlm & Hlr & _). unfold well_formed.
  rewrite Hne, Hcnt. repeat split; auto. apply pos_INR.
Qed.

(** A run from a fresh object establishes the invariant. *)
Lemma run_establishes_inv (indeterminate : standard_deviation_statistic_t)
    (mag_stat : magnetization_statistic_t) (samples : list (list R)) :
  is_initialized mag_stat = true ->
  (forall v, In v samples ->
     (4 * (List.length (get_magnetization mag_stat) / 4) <= List.length v)%nat) ->
  exists st,
    run indeterminate mag_stat samples = Ok st
    /\ welford_inv (List.length (get_magnetization mag_stat) / 4) samples st
    /\ (samples = [] ->
        forall i, nth i (mean st) 0 = 0 /\ nth i (residual_sq st) 0 = 0).
Proof.
  intros Hinit Hlen.
  destruct (initialize_establishes_inv indeterminate mag_stat Hinit)
    as (st0 & Hrun0 & Hinv0 & Hzero).
  unfold run. rewrite Hrun0. cbn [bind].
  destruct (welford_inv_updates _ [] samples st0 Hlen Hinv0)
    as (st & Hrun & Hinv).
  exists st. split; [assumption|]. split; [assumption|].
  intros ->. unfold updates in Hrun. simpl in Hrun. injection Hrun as <-.
  assumption.
Qed.

(** The invariant gives the textbook quantities, for any number of
    samples, once the entries are known to be zero before the first one. *)
Lemma welford_inv_values (ne : nat) (vs : list (list R))
    (st : standard_deviation_statistic_t) (i : nat) :
  welford_inv ne vs st ->
  (vs = [] -> nth i (mean st) 0 = 0 /\ nth i (residual_sq st) 0 = 0) ->
  (i < 4 * ne)%nat ->
  nth i (mean st) 0 = arithmetic_mean (column i vs)
  /\ nth i (residual_sq st) 0 = sum_sq_dev (nth i (mean st) 0) (column i vs).
Proof.
  intros Hinv Hzero Hi. destruct vs as [|v vs].
  - destruct (Hzero eq_refl) as [-> ->].
    unfold arithmetic_mean, sum_sq_dev, Rsum. simpl. split; lra.
  - now apply (welford_inv_textbook ne v vs st i).
Qed.

Lemma sum_sq_dev_nonneg (mu : R) (l : list R) : 0 <= sum_sq_dev mu l.
Proof.
  unfold sum_sq_dev, Rsum. induction l as [|x l IH]; simpl; [lra|].
  pose proof (Rle_0_sqr (x - mu)) as Hsq. unfold Rsqr in Hsq. lra.
Qed.

(** ** The bounds of [update] *)

Lemma for_each_faults_at {I A : Type} (body : I -> A -> outcome A)
    (l1 l2 : list I) (i : I) (a a1 : A) (f : fault) :
  for_each body l1 a = Ok a1 -> body i a1 = Fault f ->
  for_each body (l1 ++ i :: l2) a = Fault f.
Proof.
  intros H1 Hi. rewrite for_each_app, H1. simpl. now rewrite Hi.
Qed.

(** The loops of [update] over the first [k] elements. *)
Lemma update_loop_prefix (mag : list R)
    (st0 st1 : standard_deviation_statistic_t) (k : nat) :
  (4 * k <= List.length mag)%nat ->
  (4 * k <= List.length (mean st0))%nat ->
  (4 * k <= List.length (residual_sq st0))%nat ->
  mean_counter st0 + 1 <> 0 ->
  updated_below mag st0 0 st1 ->
  exists st,
    for_each (fun id => for_each (update_element mag id) (seq 0 4)) (seq 0 k) st1
    = Ok st
    /\ updated_below mag st0 (4 * k) st.
Proof.
  intros Hmag Hmean Hres Hc H0.
  destruct (for_each_seq_inv
              (fun id => for_each (update_element mag id) (seq 0 4))
              (fun id st => updated_below mag st0 (4 * id) st)
              k 0 st1) as (st & Hrun & Hinv).
  - exact H0.
  - intros id st Hid Hinv.
    destruct (for_each_seq_inv (update_element mag id)
                (fun dir st => updated_below mag st0 (4 * id + dir) st)
                4 0 st) as (st' & Hrun' & Hinv').
    + now rewrite Nat.add_0_r.
    + intros dir x Hdir Hx.
      replace (4 * id + S dir)%nat with (S (4 * id + dir)) by lia.
      apply update_element_advances; try assumption; lia.
    + exists st'. split; [assumption|].
      now replace (4 * S id)%nat with (4 * id + (0 + 4))%nat by lia.
  - exists st. split; [assumption|]. exact Hinv.
Qed.

Lemma update_element_out_of_range (mag : list R) (id dir : nat)
    (st : standard_deviation_statistic_t) :
  (List.length mag <= 4 * id + dir)%nat ->
  update_element mag id dir st = Fault OutOfRange.
Proof.
  intros H. unfold update_element, vec_at_nat.
  destruct (nth_error mag (4 * id + dir)) eqn:E; [|reflexivity].
  assert (Hsome : nth_error mag (4 * id + dir) <> None) by congruence.
  apply nth_error_Some in Hsome. lia.
Qed.

Lemma update_too_short (st : standard_deviation_statistic_t) (mag : list R) :
  well_formed st ->
  (List.length mag < 4 * num_elements st)%nat ->
  update st mag = Fault OutOfRange.
Proof.
  intros (_ & Hlm & Hlr & Hc) Hshort. unfold update. cbn [num_elements].
  set (st1 := {| initialized := initialized st;
                 num_elements := num_elements st;
                 idx := idx st;
                 mean_counter := mean_counter st + 1;
                 res1 := res1 st;
                 res2 := res2 st;
                 residual_sq := residual_sq st;
                 mean := mean st |}).
  set (k := List.length mag) in *.
  pose proof (Nat.div_mod_eq k 4) as Hk.
  pose proof (Nat.mod_upper_bound k 4 ltac:(lia)) as Hd.
  set (id0 := (k / 4)%nat) in *. set (d0 := (k mod 4)%nat) in *.
  assert (Hsplit : seq 0 (num_elements st)
                   = seq 0 id0 ++ id0 :: seq (S id0) (num_elements st - S id0)).
  { replace (num_elements st) with (id0 + S (num_elements st - S id0))%nat at 1
      by lia.
    rewrite seq_app. reflexivity. }
  rewrite Hsplit.
  destruct (update_loop_prefix mag st st1 id0) as (sta & Hruna & Hinva);
    try lia; try lra.
  { unfold updated_below. simpl. repeat split; auto; lia. }
  apply (for_each_faults_at _ _ _ _ _ sta); [assumption|].
  assert (Hinner : seq 0 4 = seq 0 d0 ++ d0 :: seq (S d0) (3 - d0)).
  { replace 4%nat with (d0 + S (3 - d0))%nat at 1 by lia.
    rewrite seq_app. reflexivity. }
  rewrite Hinner.
  destruct (for_each_seq_inv (update_element mag id0)
              (fun dir st' => updated_below mag st (4 * id0 + dir) st')
              d0 0 sta) as (stb & Hrunb & _).
  - now rewrite Nat.add_0_r.
  - intros dir x Hdir Hx.
    replace (4 * id0 + S dir)%nat with (S (4 * id0 + dir)) by lia.
    apply update_element_advances; try assumption; try lia. lra.
  - apply (for_each_faults_at _ _ _ _ _ stb); [assumption|].
    apply update_element_out_of_range. fold k. lia.
Qed.

Lemma update_long_enough (st : standard_deviation_statistic_t) (mag : list R) :
  well_formed st ->
  (4 * num_elements st <= List.length mag)%nat ->
  exists st',
    update st mag = Ok st'
    /\ well_formed st'
    /\ num_elements st' = num_elements st
    /\ mean_counter st' = mean_counter st + 1.
Proof.
  intros (Hin & Hlm & Hlr & Hc) Hlong.
  destruct (update_applies_recurrences st mag)
    as (st' & Hrun & Hne & Hin' & Hcnt & Hlm' & Hlr' & _); try lia; try lra.
  exists st'. split; [assumption|]. unfold well_formed.
  rewrite Hne, Hin', Hcnt, Hlm', Hlr'. repeat split; auto. lra.
Qed.

(** X1. On a statistic as [initialize] and [update] leave it, [update]
    succeeds exactly when the magnetisation vector has at least
    [4*num_elements] entries: it then keeps the statistic well formed and
    adds one to the counter; on a shorter vector it reads past the end.
    It never divides by zero, the counter being incremented first. *)
Theorem update_succeeds_iff_long_enough
    (st : standard_deviation_statistic_t) (mag : list R) :
  well_formed st ->
  ((4 * num_elements st <= List.length mag)%nat ->
   exists st',
     update st mag = Ok st'
     /\ well_formed st'
     /\ num_elements st' = num_elements st
     /\ mean_counter st' = mean_counter st + 1)
  /\ ((List.length mag < 4 * num_elements st)%nat ->
      update st mag = Fault OutOfRange)
  /\ update st mag <> Fault DivideByZero.
Proof.
  intros Hwf. split; [now apply update_long_enough|].
  split; [now apply update_too_short|].
  destruct (Nat.le_gt_cases (4 * num_elements st) (List.length mag)) as [H | H].
  - destruct (update_long_enough st mag Hwf H) as (st' & -> & _). discriminate.
  - rewrite (update_too_short st mag Hwf H). discriminate.
Qed.

(** A statistic of one element that has seen no sample, and a vector that
    is one entry short. *)
Definition one_element_statistic : standard_deviation_statistic_t :=
  {| initialized := true;
     num_elements := 1;
     idx := 0;
     mean_counter := 0;
     res1 := 0;
     res2 := 0;
     residual_sq := [0; 0; 0; 0];
     mean := [0; 0; 0; 0] |}.

Lemma one_element_statistic_well_formed : well_formed one_element_statistic.
Proof. unfold well_formed. simpl. repeat split; auto. lra. Qed.

Lemma update_succeeds_iff_long_enough_witness :
  ((4 * num_elements one_element_statistic <= List.length [1; 2; 3])%nat ->
   exists st',
     update one_element_statistic [1; 2; 3] = Ok st'
     /\ well_formed st'
     /\ num_elements st' = num_elements one_element_statistic
     /\ mean_counter st' = mean_counter one_element_statistic + 1)
  /\ ((List.length [1; 2; 3] < 4 * num_elements one_element_statistic)%nat ->
      update one_element_statistic [1; 2; 3] = Fault OutOfRange)
  /\ update one_element_statistic [1; 2; 3] <> Fault DivideByZero.
Proof.
  apply (update_succeeds_iff_long_enough one_element_statistic [1; 2; 3]).
  exact one_element_statistic_well_formed.
Defined.

(** ** Resetting and re-initialising *)

Lemma nth_map_zero (l : list R) (i : nat) : nth i (map (fun _ => 0) l) 0 = 0.
Proof.
  revert i. induction l as [|x l IH]; intros [|i]; simpl; auto.
Qed.

Lemma reset_averages_establishes_inv (ne : nat) (vs : list (list R))
    (st : standard_deviation_statistic_t) :
  welford_inv ne vs st ->
  welford_inv ne [] (reset_averages st)
  /\ forall i, nth i (mean (reset_averages st)) 0 = 0
               /\ nth i (residual_sq (reset_averages st)) 0 = 0.
Proof.
  intros (Hne & Hin & _ & Hlm & Hlr & _). split.
  - unfold welford_inv. cbn [reset_averages num_elements initialized
                              mean_counter mean residual_sq].
    rewrite !length_map.
    repeat split; auto; intros; rewrite ?nth_map_zero; unfold Rsum; simpl; lra.
  - intros i. cbn [reset_averages mean residual_sq].
    now rewrite !nth_map_zero.
Qed.

(** X2. [reset_averages] restarts the statistic: after any run, a reset
    and further samples, the counter, the means and the residuals are those
    of the samples taken since the reset alone. *)
Theorem reset_averages_restarts
    (indeterminate : standard_deviation_statistic_t)
    (mag_stat : magnetization_statistic_t) (earlier later : list (list R)) :
  is_initialized mag_stat = true ->
  (forall v, In v (earlier ++ later) ->
     (4 * (List.length (get_magnetization mag_stat) / 4) <= List.length v)%nat) ->
  exists st st',
    run indeterminate mag_stat earlier = Ok st
    /\ updates (reset_averages st) later = Ok st'
    /\ mean_counter st' = INR (List.length later)
    /\ forall i, (i < 4 * num_elements st')%nat ->
         nth i (mean st') 0 = arithmetic_mean (column i later)
         /\ nth i (residual_sq st') 0 =
              sum_sq_dev (nth i (mean st') 0) (column i later).
Proof.
  intros Hinit Hlen.
  destruct (run_establishes_inv indeterminate mag_stat earlier Hinit)
    as (st & Hrun & Hinv & _).
  { intros v Hv. apply Hlen, in_or_app. now left. }
  destruct (reset_averages_establishes_inv _ _ _ Hinv) as [Hinv0 Hzero].
  destruct (welford_inv_updates (List.length (get_magnetization mag_stat) / 4)
              [] later (reset_averages st)) as (st' & Hrun' & Hinv');
    [intros v Hv; apply Hlen, in_or_app; now right | assumption |].
  simpl in Hinv'.
  exists st, st'. split; [assumption|]. split; [assumption|].
  pose proof Hinv' as (Hne & _ & Hcnt & _).
  split; [assumption|].
  intros i Hi. rewrite Hne in Hi.
  apply (welford_inv_values _ later st' i Hinv'); [|assumption].
  intros ->. unfold updates in Hrun'. simpl in Hrun'. injection Hrun' as <-.
  apply Hzero.
Qed.

Lemma reset_averages_restarts_witness :
  exists st st',
    run one_element_statistic (Build_magnetization_statistic_t true [0; 0; 0; 0])
        [[5; 5; 5; 5]; [7; 1; 7; 1]] = Ok st
    /\ updates (reset_averages st) [[1; 2; 3; 4]; [3; 2; 1; 0]] = Ok st'
    /\ mean_counter st' = INR (List.length [[1; 2; 3; 4]; [3; 2; 1; 0]])
    /\ forall i, (i < 4 * num_elements st')%nat ->
         nth i (mean st') 0
         = arithmetic_mean (column i [[1; 2; 3; 4]; [3; 2; 1; 0]])
         /\ nth i (residual_sq st') 0 =
              sum_sq_dev (nth i (mean st') 0)
                (column i [[1; 2; 3; 4]; [3; 2; 1; 0]]).
Proof.
  apply (reset_averages_restarts one_element_statistic
           (Build_magnetization_statistic_t true [0; 0; 0; 0])
           [[5; 5; 5; 5]; [7; 1; 7; 1]] [[1; 2; 3; 4]; [3; 2; 1; 0]]).
  - reflexivity.
  - simpl. intros v [<- | [<- | [<- | [<- | []]]]]; simpl; lia.
Defined.

(** X3. [initialize] does not restart a statistic that has seen samples:
    [resize] keeps the entries the vectors have, so after a second
    [initialize] and one sample the mean is that sample, the counter is 1,
    and every residual is still the residual of the earlier samples, where
    the residual of a single sample would be zero. *)
Theorem initialize_again_keeps_residuals
    (indeterminate : standard_deviation_statistic_t)
    (mag_stat : magnetization_statistic_t) (earlier : list (list R))
    (v : list R) :
  is_initialized mag_stat = true ->
  (forall w, In w (v :: earlier) ->
     (4 * (List.length (get_magnetization mag_stat) / 4) <= List.length w)%nat) ->
  exists st st1 st2,
    run indeterminate mag_stat earlier = Ok st
    /\ initialize st mag_stat = Ok st1
    /\ update st1 v = Ok st2
    /\ mean_counter st2 = 1
    /\ forall i, (i < 4 * num_elements st2)%nat ->
         nth i (mean st2) 0 = nth i v 0
         /\ nth i (residual_sq st2) 0 = nth i (residual_sq st) 0
         /\ nth i (residual_sq st) 0
            = sum_sq_dev (arithmetic_mean (column i earlier)) (column i earlier).
Proof.
  intros Hinit Hlen.
  set (ne := (List.length (get_magnetization mag_stat) / 4)%nat) in *.
  destruct (run_establishes_inv indeterminate mag_stat earlier Hinit)
    as (st & Hrun & Hinv & Hzero).
  { intros w Hw. apply Hlen. now right. }
  pose proof Hinv as (Hne & _ & _ & Hlm & Hlr & _).
  destruct (initialize_keeps_existing_entries st mag_stat Hinit Hlm Hlr)
    as (st1 & Hrun1 & Hm1 & Hr1 & Hc1).
  assert (Hne1 : num_elements st1 = ne).
  { unfold initialize in Hrun1. rewrite Hinit in Hrun1. simpl in Hrun1.
    injection Hrun1 as <-. reflexivity. }
  destruct (update_applies_recurrences st1 v)
    as (st2 & Hrun2 & Hne2 & _ & Hc2 & _ & _ & Hlo & _).
  { rewrite Hne1. apply Hlen. now left. }
  { rewrite Hne1, Hm1, Hlm. lia. }
  { rewrite Hne1, Hr1, Hlr. lia. }
  { rewrite Hc1. lra. }
  exists st, st1, st2.
  split; [assumption|]. split; [assumption|]. split; [assumption|].
  split; [rewrite Hc2, Hc1; lra|].
  intros i Hi. rewrite Hne2 in Hi. destruct (Hlo i Hi) as [Hmean Hres].
  rewrite Hmean, Hres, Hc1, Hm1, Hr1.
  unfold welford_residual, welford_mean.
  rewrite Hne1 in Hi.
  destruct (welford_inv_values ne earlier st i Hinv (fun E => Hzero E i) Hi)
    as [Hmu Hrs].
  split; [field|]. split; [field|].
  rewrite Hrs, Hmu. reflexivity.
Qed.

Lemma initialize_again_keeps_residuals_witness :
  exists st st1 st2,
    run one_element_statistic (Build_magnetization_statistic_t true [0; 0; 0; 0])
        [[1; 2; 3; 4]; [3; 2; 1; 0]] = Ok st
    /\ initialize st (Build_magnetization_statistic_t true [0; 0; 0; 0]) = Ok st1
    /\ update st1 [9; 9; 9; 9] = Ok st2
    /\ mean_counter st2 = 1
    /\ forall i, (i < 4 * num_elements st2)%nat ->
         nth i (mean st2) 0 = nth i [9; 9; 9; 9] 0
         /\ nth i (residual_sq st2) 0 = nth i (residual_sq st) 0
         /\ nth i (residual_sq st) 0
            = sum_sq_dev
                (arithmetic_mean (column i [[1; 2; 3; 4]; [3; 2; 1; 0]]))
                (column i [[1; 2; 3; 4]; [3; 2; 1; 0]]).
Proof.
  apply (initialize_again_keeps_residuals one_element_statistic
           (Build_magnetization_statistic_t true [0; 0; 0; 0])
           [[1; 2; 3; 4]; [3; 2; 1; 0]] [9; 9; 9; 9]).
  - reflexivity.
  - simpl. intros w [<- | [<- | [<- | []]]]; simpl; lia.
Defined.

(** ** The standard deviations written out *)

Lemma seq_four_more (k : nat) :
  seq 0 (4 * S k) = seq 0 (4 * k) ++ [4 * k + 0; 4 * k + 1; 4 * k + 2; 4 * k + 3]%nat.
Proof.
  replace (4 * S k)%nat with (4 * k + 4)%nat by lia.
  rewrite seq_app. f_equal. cbn [seq].
  repeat (apply (f_equal2 cons); [lia|]). reflexivity.
Qed.

(** The numbers written, entry by entry. *)
Lemma output_standard_deviation_values (st : standard_deviation_statistic_t) :
  List.length (residual_sq st) = (4 * num_elements st)%nat ->
  output_standard_deviation st
  = Ok (map (fun i => std_of (nth i (residual_sq st) 0)
                        (inverse_counter (mean_counter st)))
            (seq 0 (4 * (num_elements st - 1)))).
Proof.
  intros Hlen. unfold output_standard_deviation.
  set (f := fun i => std_of (nth i (residual_sq st) 0)
                       (inverse_counter (mean_counter st))).
  destruct (for_each_seq_inv
              (fun id result =>
                 bind (vec_at_nat (residual_sq st) (4 * id + 0)) (fun rx =>
                 bind (vec_at_nat (residual_sq st) (4 * id + 1)) (fun ry =>
                 bind (vec_at_nat (residual_sq st) (4 * id + 2)) (fun rz =>
                 bind (vec_at_nat (residual_sq st) (4 * id + 3)) (fun rm =>
                 Ok (result ++ [std_of rx (inverse_counter (mean_counter st));
                                std_of ry (inverse_counter (mean_counter st));
                                std_of rz (inverse_counter (mean_counter st));
                                std_of rm (inverse_counter (mean_counter st))]))))))
              (fun k result => result = map f (seq 0 (4 * k)))
              (num_elements st - 1) 0 []) as (result & Hrun & Hres).
  - reflexivity.
  - intros id x Hid ->.
    assert (Hid' : (id < num_elements st - 1)%nat) by lia.
    rewrite (vec_at_nat_in_range (residual_sq st) (4 * id + 0) 0) by lia.
    cbn [bind].
    rewrite (vec_at_nat_in_range (residual_sq st) (4 * id + 1) 0) by lia.
    cbn [bind].
    rewrite (vec_at_nat_in_range (residual_sq st) (4 * id + 2) 0) by lia.
    cbn [bind].
    rewrite (vec_at_nat_in_range (residual_sq st) (4 * id + 3) 0) by lia.
    cbn [bind]. eexists. split; [reflexivity|].
    rewrite seq_four_more, map_app. reflexivity.
  - rewrite Hrun. simpl in Hres. now rewrite Hres.
Qed.

Lemma std_of_variance (r n : R) :
  0 <= r -> 0 < n -> std_of r (inverse_counter n) = number (sqrt (r / n)).
Proof.
  intros Hr Hn. unfold inverse_counter, std_of.
  destruct (Req_dec_T n 0) as [E | _]; [lra|].
  assert (Hinv : 0 < / n) by now apply Rinv_0_lt_compat.
  assert (Hprod : r * (1 / n) = r / n) by (field; lra).
  rewrite Hprod.
  destruct (Rlt_dec (r / n) 0) as [Hneg | _]; [|reflexivity].
  unfold Rdiv in Hneg. nra.
Qed.

(** X4. After a run of at least one sample, [output_standard_deviation]
    writes, for every element but the last and for each of its four
    components, the standard deviation of the samples about their mean: the
    square root of the mean squared deviation.  The values are finite. *)
Theorem output_is_standard_deviation
    (indeterminate : standard_deviation_statistic_t)
    (mag_stat : magnetization_statistic_t) (samples : list (list R)) :
  is_initialized mag_stat = true ->
  samples <> [] ->
  (forall v, In v samples ->
     (4 * (List.length (get_magnetization mag_stat) / 4) <= List.length v)%nat) ->
  exists st,
    run indeterminate mag_stat samples = Ok st
    /\ output_standard_deviation st
       = Ok (map (fun i => number (std_dev (column i samples)))
                 (seq 0 (4 * (List.length (get_magnetization mag_stat) / 4 - 1)))).
Proof.
  intros Hinit Hne Hlen.
  destruct (run_establishes_inv indeterminate mag_stat samples Hinit Hlen)
    as (st & Hrun & Hinv & Hzero).
  exists st. split; [assumption|].
  pose proof Hinv as (Hnum & _ & Hcnt & _ & Hlr & _).
  rewrite output_standard_deviation_values by (rewrite Hnum; assumption).
  rewrite Hnum. f_equal. apply map_ext_in. intros i Hi.
  apply in_seq in Hi.
  destruct (welford_inv_values _ samples st i Hinv (fun E => Hzero E i))
    as [Hmu Hrs]; [lia|].
  rewrite Hrs, Hmu, Hcnt.
  rewrite std_of_variance.
  - unfold std_dev. now rewrite column_length.
  - apply sum_sq_dev_nonneg.
  - apply lt_0_INR. destruct samples; [contradiction | simpl; lia].
Qed.

Lemma output_is_standard_deviation_witness :
  exists st,
    run one_element_statistic
        (Build_magnetization_statistic_t true [0; 0; 0; 0; 0; 0; 0; 0])
        [[1; 2; 3; 4; 0; 0; 0; 0]; [3; 2; 1; 0; 0; 0; 0; 0]] = Ok st
    /\ output_standard_deviation st
       = Ok (map (fun i => number (std_dev (column i
                   [[1; 2; 3; 4; 0; 0; 0; 0]; [3; 2; 1; 0; 0; 0; 0; 0]])))
                 (seq 0 (4 * (List.length
                                (get_magnetization
                                   (Build_magnetization_statistic_t true
                                      [0; 0; 0; 0; 0; 0; 0; 0])) / 4 - 1)))).
Proof.
  apply (output_is_standard_deviation one_element_statistic
           (Build_magnetization_statistic_t true [0; 0; 0; 0; 0; 0; 0; 0])
           [[1; 2; 3; 4; 0; 0; 0; 0]; [3; 2; 1; 0; 0; 0; 0; 0]]).
  - reflexivity.
  - discriminate.
  - simpl. intros v [<- | [<- | []]]; simpl; lia.
Defined.

Lemma map_constant {A B : Type} (b : B) (l : list A) :
  map (fun _ => b) l = repeat b (List.length l).
Proof. induction l as [|x l IH]; simpl; [reflexivity | now rewrite IH]. Qed.

(** X5. [output_standard_deviation] writes exactly
    [4*(num_elements-1)] numbers, nothing for a statistic of one element or
    of none; and before the first sample, when the counter is zero, every
    number written is an infinity or a NaN. *)
Theorem output_count_and_no_samples (st : standard_deviation_statistic_t) :
  well_formed st ->
  exists result,
    output_standard_deviation st = Ok result
    /\ List.length result = (4 * (num_elements st - 1))%nat
    /\ ((num_elements st <= 1)%nat -> result = [])
    /\ (mean_counter st = 0 ->
        result = repeat non_finite (4 * (num_elements st - 1))).
Proof.
  intros (_ & _ & Hlr & _).
  rewrite (output_standard_deviation_values st Hlr).
  eexists. split; [reflexivity|].
  split; [now rewrite length_map, length_seq|].
  split.
  - intros Hne. replace (num_elements st - 1)%nat with 0%nat by lia. reflexivity.
  - intros Hc. rewrite Hc. unfold inverse_counter.
    destruct (Req_dec_T 0 0) as [_ | Hnz]; [|contradiction].
    cbn [std_of]. now rewrite map_constant, length_seq.
Qed.

(** A statistic of two elements before its first sample. *)
Definition two_element_statistic : standard_deviation_statistic_t :=
  {| initialized := true;
     num_elements := 2;
     idx := 0;
     mean_counter := 0;
     res1 := 0;
     res2 := 0;
     residual_sq := [0; 0; 0; 0; 0; 0; 0; 0];
     mean := [0; 0; 0; 0; 0; 0; 0; 0] |}.

Lemma two_element_statistic_well_formed : well_formed two_element_statistic.
Proof. unfold well_formed. simpl. repeat split; auto. lra. Qed.

Lemma output_count_and_no_samples_witness :
  exists result,
    output_standard_deviation two_element_statistic = Ok result
    /\ List.length result = (4 * (num_elements two_element_statistic - 1))%nat
    /\ ((num_elements two_element_statistic <= 1)%nat -> result = [])
    /\ (mean_counter two_element_statistic = 0 ->
        result = repeat non_finite (4 * (num_elements two_element_statistic - 1))).
Proof.
  apply (output_count_and_no_samples two_element_statistic).
  exact two_element_statistic_well_formed.
Defined.

(** What the statistic of the witness writes: four numbers, for the first
    of its two elements, none of them finite. *)
Example two_element_statistic_output :
  output_standard_deviation two_element_statistic
  = Ok [non_finite; non_finite; non_finite; non_finite].
Proof.
  unfold output_standard_deviation, inverse_counter. simpl.
  destruct (Req_dec_T 0 0) as [_ | H]; [reflexivity | contradiction].
Qed.

(** ** The order of the samples *)

Lemma Rsum_Permutation (l l' : list R) : Permutation l l' -> Rsum l = Rsum l'.
Proof.
  unfold Rsum. induction 1; simpl; lra.
Qed.

Lemma arithmetic_mean_Permutation (l l' : list R) :
  Permutation l l' -> arithmetic_mean l = arithmetic_mean l'.
Proof.
  intros H. unfold arithmetic_mean.
  now rewrite (Rsum_Permutation l l' H), (Permutation_length H).
Qed.

Lemma sum_sq_dev_Permutation (mu : R) (l l' : list R) :
  Permutation l l' -> sum_sq_dev mu l = sum_sq_dev mu l'.
Proof.
  intros H. unfold sum_sq_dev. apply Rsum_Permutation. now apply Permutation_map.
Qed.

(** X6. In exact arithmetic the statistic does not depend on the order in
    which the samples arrive: two runs over the same samples in different
    orders end with the same counter, the same means and the same
    residuals. *)
Theorem run_is_order_independent
    (indeterminate : standard_deviation_statistic_t)
    (mag_stat : magnetization_statistic_t) (samples samples' : list (list R)) :
  is_initialized mag_stat = true ->
  Permutation samples samples' ->
  (forall v, In v samples ->
     (4 * (List.length (get_magnetization mag_stat) / 4) <= List.length v)%nat) ->
  exists st st',
    run indeterminate mag_stat samples = Ok st
    /\ run indeterminate mag_stat samples' = Ok st'
    /\ mean_counter st = mean_counter st'
    /\ mean st = mean st'
    /\ residual_sq st = residual_sq st'.
Proof.
  intros Hinit Hperm Hlen.
  set (ne := (List.length (get_magnetization mag_stat) / 4)%nat) in *.
  assert (Hlen' : forall v, In v samples' -> (4 * ne <= List.length v)%nat).
  { intros v Hv. apply Hlen. apply (Permutation_in v (Permutation_sym Hperm) Hv). }
  destruct (run_establishes_inv indeterminate mag_stat samples Hinit Hlen)
    as (st & Hrun & Hinv & Hzero).
  destruct (run_establishes_inv indeterminate mag_stat samples' Hinit Hlen')
    as (st' & Hrun' & Hinv' & Hzero').
  fold ne in Hinv, Hinv'.
  exists st, st'. split; [assumption|]. split; [assumption|].
  pose proof Hinv as (_ & _ & Hc & Hlm & Hlr & _).
  pose proof Hinv' as (_ & _ & Hc' & Hlm' & Hlr' & _).
  assert (Hcol : forall i, Permutation (column i samples) (column i samples')).
  { intros i. unfold column. now apply Permutation_map. }
  assert (Hentry : forall i, (i < 4 * ne)%nat ->
             nth i (mean st) 0 = nth i (mean st') 0
             /\ nth i (residual_sq st) 0 = nth i (residual_sq st') 0).
  { intros i Hi.
    destruct (welford_inv_values ne samples st i Hinv (fun E => Hzero E i) Hi)
      as [Hm Hr].
    destruct (welford_inv_values ne samples' st' i Hinv' (fun E => Hzero' E i) Hi)
      as [Hm' Hr'].
    assert (Hmm : nth i (mean st) 0 = nth i (mean st') 0).
    { rewrite Hm, Hm'. now apply arithmetic_mean_Permutation. }
    split; [assumption|].
    rewrite Hr, Hr', Hmm. now apply sum_sq_dev_Permutation. }
  split; [rewrite Hc, Hc'; now rewrite (Permutation_length Hperm)|].
  split.
  - apply (nth_ext _ _ 0 0); [congruence|].
    intros i Hi. apply Hentry. lia.
  - apply (nth_ext _ _ 0 0); [congruence|].
    intros i Hi. apply Hentry. lia.
Qed.

Lemma run_is_order_independent_witness :
  exists st st',
    run one_element_statistic (Build_magnetization_statistic_t true [0; 0; 0; 0])
        [[1; 2; 3; 4]; [3; 2; 1; 0]] = Ok st
    /\ run one_element_statistic (Build_magnetization_statistic_t true [0; 0; 0; 0])
         [[3; 2; 1; 0]; [1; 2; 3; 4]] = Ok st'
    /\ mean_counter st = mean_counter st'
    /\ mean st = mean st'
    /\ residual_sq st = residual_sq st'.
Proof.
  apply (run_is_order_independent one_element_statistic
           (Build_magnetization_statistic_t true [0; 0; 0; 0])
           [[1; 2; 3; 4]; [3; 2; 1; 0]] [[3; 2; 1; 0]; [1; 2; 3; 4]]).
  - reflexivity.
  - apply perm_swap.
  - simpl. intros v [<- | [<- | []]]; simpl; lia.
Defined.

End WelfordMore.

(* ================================================================== *)
(** * dipole: more about the first call *)
(* ================================================================== *)

Section FirstCall.

Import dipole.
Open Scope R_scope.

Variable solver :
  arguments -> sym6 matrix * sym6 matrix -> sym6 matrix * sym6 matrix.

Lemma cout_of_app (t1 t2 : list event) :
  cout_of (t1 ++ t2) = cout_of t1 ++ cout_of t2.
Proof.
  induction t1 as [|e t1 IH]; simpl; [reflexivity|].
  destruct e; simpl; try assumption. now rewrite IH.
Qed.

(** The estimate, whenever it is defined, is the figure of lines 109-110. *)
Lemma memory_estimate_value (a : arguments) (i : internal.t) (mb : R) :
  memory_estimate_MB (set_const_for_functions a i) = Ok mb ->
  mb = printed_estimate a.
Proof.
  unfold memory_estimate_MB, int_mul, int_checked, printed_estimate.
  cbn [set_const_for_functions internal.cells_num_local_cells
       internal.cells_num_cells].
  destruct (in_int_range (cells_num_local_cells a * 6)); cbn [bind];
    intros H; [congruence | discriminate].
Qed.

(** A successful first call, as a whole: the state it returns. *)
Lemma first_call_returns (s s' : state) (a : arguments) :
  activated s = true ->
  internal.initialised (internals s) = false ->
  initialize solver s a = Ok s' ->
  exists report,
    s' = emit (flat_map (fun v => [zlog Demagnetisation_tensor_header;
                                    zlog (Demagnetisation_tensor_values v)])
                        report)
              (before_diagnostic solver s a)
    /\ ((sim_time s = 0%Z /\ exists v, report = [v])
        \/ (sim_time s <> 0%Z /\ report = [])).
Proof.
  intros Hact Hini H. unfold initialize in H.
  rewrite Hact, Hini in H. cbn [negb] in H.
  destruct (build solver s a) as [s1|] eqn:Hb; [|discriminate].
  cbn [bind] in H.
  destruct (build_returns solver s s1 a Hb) as (mb & Hmb & ->).
  apply memory_estimate_value in Hmb. subst mb.
  fold (before_diagnostic solver s a) in H.
  destruct (first_update_frame (built solver s a (printed_estimate a)))
    as (_ & _ & _ & Ht & _).
  fold (before_diagnostic solver s a) in Ht. rewrite Ht in H.
  cbn [sim_time built] in H.
  destruct (Z.eqb_spec (sim_time s) 0) as [Hz | Hnz].
  - destruct (demag_diagnostic_frame _ _ H) as (D & ->).
    exists [report_values D]. split; [reflexivity|]. left. eauto.
  - injection H as <-. exists []. split; [|now right].
    apply state_ext; try reflexivity.
    cbn [trace emit flat_map]. now rewrite app_nil_r.
Qed.

End FirstCall.

(** The state the first call on the small geometry returns. *)
Definition first_call_result : dipole.state :=
  dipole.emit
    [zlog Demagnetisation_tensor_header;
     zlog (Demagnetisation_tensor_values
             (dipole.report_values
                (demag_tensor
                   (before_diagnostic example_solver fresh_state example_arguments))))]
    (before_diagnostic example_solver fresh_state example_arguments).

Lemma first_call_result_returned :
  dipole.initialize example_solver fresh_state example_arguments
  = Ok first_call_result.
Proof.
  exact (initialize_first_call example_solver fresh_state example_arguments
           eq_refl eq_refl example_sizes_ok (fun _ => fresh_state_ready)).
Qed.

(** X7. Whenever a first call of [initialize] (module enabled, not yet
    initialised) returns, the module is initialised, [dipole::internal]
    holds copies of the arguments, the tensors are what the tensor solver
    made of the allocated storage, [cells::num_cells] and
    [cells::num_atoms_in_cell] are set from the arguments, and
    [cells::cell_id_array], the feature flag and the simulated time are
    untouched. *)
Theorem first_call_keeps_the_arguments
    (solver : dipole.arguments -> sym6 matrix * sym6 matrix
              -> sym6 matrix * sym6 matrix)
    (s s' : dipole.state) (a : dipole.arguments) :
  dipole.activated s = true ->
  dipole.internal.initialised (dipole.internals s) = false ->
  dipole.initialize solver s a = Ok s' ->
  dipole.internal.initialised (dipole.internals s') = true
  /\ dipole.internal.num_atoms (dipole.internals s') = dipole.num_atoms a
  /\ dipole.internal.atom_type_array (dipole.internals s')
     = dipole.atom_type_array a
  /\ dipole.internal.atom_cell_id_array (dipole.internals s')
     = dipole.atom_cell_id_array a
  /\ dipole.internal.cells_num_cells (dipole.internals s')
     = dipole.cells_num_cells a
  /\ dipole.internal.cells_num_local_cells (dipole.internals s')
     = dipole.cells_num_local_cells a
  /\ dipole.internal.cells_local_cell_array (dipole.internals s')
     = dipole.cells_local_cell_array a
  /\ dipole.internal.cells_num_atoms_in_cell (dipole.internals s')
     = dipole.cells_num_atoms_in_cell a
  /\ dipole.internal.cells_volume_array (dipole.internals s')
     = dipole.cells_volume_array a
  /\ dipole.internal.cells_pos_and_mom_array (dipole.internals s')
     = dipole.cells_pos_and_mom_array a
  /\ (dipole.internal.rij_intra (dipole.internals s'),
      dipole.internal.rij_inter (dipole.internals s'))
     = solver a
         (tabulate (fun _ => dipole.zero_matrix (dipole.cells_num_local_cells a)
                               (dipole.cells_num_cells a)),
          tabulate (fun _ => dipole.zero_matrix (dipole.cells_num_local_cells a)
                               (dipole.cells_num_cells a)))
  /\ cells.num_cells (dipole.cells_globals s') = dipole.cells_num_cells a
  /\ cells.num_atoms_in_cell (dipole.cells_globals s')
     = dipole.cells_num_atoms_in_cell a
  /\ cells.cell_id_array (dipole.cells_globals s')
     = cells.cell_id_array (dipole.cells_globals s)
  /\ dipole.activated s' = true
  /\ dipole.sim_time s' = dipole.sim_time s.
Proof.
  intros Hact Hini H.
  destruct (first_call_returns solver s s' a Hact Hini H) as (report & -> & _).
  destruct (first_update_frame (built solver s a (printed_estimate a)))
    as (Ha & Hi & Hc & Ht & _).
  fold (before_diagnostic solver s a) in Ha, Hi, Hc, Ht.
  cbn [dipole.emit dipole.internals dipole.cells_globals dipole.activated
       dipole.sim_time].
  rewrite Ha, Hi, Hc, Ht.
  cbn [built dipole.internals dipole.cells_globals dipole.activated
       dipole.sim_time dipole.with_initialised dipole.with_tensors
       dipole.set_const_for_functions
       dipole.internal.initialised dipole.internal.num_atoms
       dipole.internal.atom_type_array dipole.internal.atom_cell_id_array
       dipole.internal.cells_num_cells dipole.internal.cells_num_local_cells
       dipole.internal.cells_local_cell_array
       dipole.internal.cells_num_atoms_in_cell
       dipole.internal.cells_volume_array
       dipole.internal.cells_pos_and_mom_array
       dipole.internal.rij_intra dipole.internal.rij_inter
       cells.num_cells cells.num_atoms_in_cell cells.cell_id_array].
  repeat (split; [reflexivity|]).
  split; [|repeat split; auto].
  unfold built_tensors. now destruct (solver a _).
Qed.

Lemma first_call_keeps_the_arguments_witness :
  dipole.internal.initialised (dipole.internals first_call_result) = true
  /\ dipole.internal.num_atoms (dipole.internals first_call_result)
     = dipole.num_atoms example_arguments
  /\ dipole.internal.atom_type_array (dipole.internals first_call_result)
     = dipole.atom_type_array example_arguments
  /\ dipole.internal.atom_cell_id_array (dipole.internals first_call_result)
     = dipole.atom_cell_id_array example_arguments
  /\ dipole.internal.cells_num_cells (dipole.internals first_call_result)
     = dipole.cells_num_cells example_arguments
  /\ dipole.internal.cells_num_local_cells (dipole.internals first_call_result)
     = dipole.cells_num_local_cells example_arguments
  /\ dipole.internal.cells_local_cell_array (dipole.internals first_call_result)
     = dipole.cells_local_cell_array example_arguments
  /\ dipole.internal.cells_num_atoms_in_cell (dipole.internals first_call_result)
     = dipole.cells_num_atoms_in_cell example_arguments
  /\ dipole.internal.cells_volume_array (dipole.internals first_call_result)
     = dipole.cells_volume_array example_arguments
  /\ dipole.internal.cells_pos_and_mom_array (dipole.internals first_call_result)
     = dipole.cells_pos_and_mom_array example_arguments
  /\ (dipole.internal.rij_intra (dipole.internals first_call_result),
      dipole.internal.rij_inter (dipole.internals first_call_result))
     = example_solver example_arguments
         (tabulate (fun _ =>
            dipole.zero_matrix (dipole.cells_num_local_cells example_arguments)
              (dipole.cells_num_cells example_arguments)),
          tabulate (fun _ =>
            dipole.zero_matrix (dipole.cells_num_local_cells example_arguments)
              (dipole.cells_num_cells example_arguments)))
  /\ cells.num_cells (dipole.cells_globals first_call_result)
     = dipole.cells_num_cells example_arguments
  /\ cells.num_atoms_in_cell (dipole.cells_globals first_call_result)
     = dipole.cells_num_atoms_in_cell example_arguments
  /\ cells.cell_id_array (dipole.cells_globals first_call_result)
     = cells.cell_id_array (dipole.cells_globals fresh_state)
  /\ dipole.activated first_call_result = true
  /\ dipole.sim_time first_call_result = dipole.sim_time fresh_state.
Proof.
  apply (first_call_keeps_the_arguments example_solver fresh_state
           first_call_result example_arguments).
  - reflexivity.
  - reflexivity.
  - exact first_call_result_returned.
Defined.

Lemma report_lines_are_log_lines (report : list (list R)) :
  dipole.zlog_of
    (flat_map (fun v => [zlog Demagnetisation_tensor_header;
                         zlog (Demagnetisation_tensor_values v)]) report)
  = flat_map (fun v => [Demagnetisation_tensor_header;
                        Demagnetisation_tensor_values v]) report
  /\ dipole.cout_of
       (flat_map (fun v => [zlog Demagnetisation_tensor_header;
                            zlog (Demagnetisation_tensor_values v)]) report)
     = [].
Proof.
  induction report as [|v report [IHz IHc]]; simpl; [auto|].
  rewrite IHz, IHc. auto.
Qed.

(** X8. A first call of [initialize] that returns writes, in this order,
    to the console: the opening message, the memory estimate, the
    precalculation message and "Done"; and to the log: the opening message,
    the memory estimate, the numbers of local and of all cells as passed,
    the precalculation message, its completion, the time of the update, the
    output message and, at time zero only, the header and the values of the
    demagnetisation tensor.  The estimate is the figure
    [cells_num_cells * (cells_num_local_cells*6) * 8 / 1e6] in both places,
    and both copies are written before the tensor solver is called. *)
Theorem first_call_messages
    (solver : dipole.arguments -> sym6 matrix * sym6 matrix
              -> sym6 matrix * sym6 matrix)
    (s s' : dipole.state) (a : dipole.arguments) :
  dipole.activated s = true ->
  dipole.internal.initialised (dipole.internals s) = false ->
  dipole.initialize solver s a = Ok s' ->
  let estimate :=
    (IZR (dipole.cells_num_cells a) * IZR (dipole.cells_num_local_cells a * 6)
     * 8 / 1000000)%R in
  exists new report,
    dipole.trace s' = dipole.trace s ++ new
    /\ dipole.cout_of new
       = [Initialising_dipole_field_calculation;
          Requires_MB_of_RAM estimate;
          Precalculating_rij_matrix;
          Done]
    /\ dipole.zlog_of new
       = [Initialising_dipole_field_calculation;
          Requires_MB_of_RAM estimate;
          Number_of_local_cells (dipole.cells_num_local_cells a);
          Number_of_total_cells (dipole.cells_num_cells a);
          Precalculating_rij_matrix;
          Precalculation_complete;
          Time_required_for_dipole_update;
          Outputting_dipole_matrix]
         ++ flat_map (fun v => [Demagnetisation_tensor_header;
                                Demagnetisation_tensor_values v]) report
    /\ ((dipole.sim_time s = 0%Z /\ exists v, report = [v])
        \/ (dipole.sim_time s <> 0%Z /\ report = []))
    /\ exists before after,
         new = before ++ call_initialize_tensor_solver :: after
         /\ In (zlog (Requires_MB_of_RAM estimate)) before
         /\ In (cout (Requires_MB_of_RAM estimate)) before.
Proof.
  intros Hact Hini H estimate.
  destruct (first_call_returns solver s s' a Hact Hini H) as (report & -> & Hrep).
  exists (first_call_events a [] ++
          flat_map (fun v => [zlog Demagnetisation_tensor_header;
                              zlog (Demagnetisation_tensor_values v)]) report),
         report.
  destruct (report_lines_are_log_lines report) as [Hz Hc].
  split.
  { cbn [dipole.trace dipole.emit]. rewrite first_call_trace.
    now rewrite app_assoc. }
  split.
  { rewrite cout_of_app, Hc. reflexivity. }
  split.
  { rewrite zlog_of_app, Hz. reflexivity. }
  split; [assumption|].
  exists (firstn 9 (build_events a (printed_estimate a))),
         (skipn 10 (first_call_events a []) ++
          flat_map (fun v => [zlog Demagnetisation_tensor_header;
                              zlog (Demagnetisation_tensor_values v)]) report).
  split; [reflexivity|].
  split; cbn [firstn build_events]; unfold estimate, printed_estimate;
    simpl; tauto.
Qed.

Lemma first_call_messages_witness :
  let estimate :=
    (IZR (dipole.cells_num_cells example_arguments)
     * IZR (dipole.cells_num_local_cells example_arguments * 6)
     * 8 / 1000000)%R in
  exists new report,
    dipole.trace first_call_result = dipole.trace fresh_state ++ new
    /\ dipole.cout_of new
       = [Initialising_dipole_field_calculation;
          Requires_MB_of_RAM estimate;
          Precalculating_rij_matrix;
          Done]
    /\ dipole.zlog_of new
       = [Initialising_dipole_field_calculation;
          Requires_MB_of_RAM estimate;
          Number_of_local_cells (dipole.cells_num_local_cells example_arguments);
          Number_of_total_cells (dipole.cells_num_cells example_arguments);
          Precalculating_rij_matrix;
          Precalculation_complete;
          Time_required_for_dipole_update;
          Outputting_dipole_matrix]
         ++ flat_map (fun v => [Demagnetisation_tensor_header;
                                Demagnetisation_tensor_values v]) report
    /\ ((dipole.sim_time fresh_state = 0%Z /\ exists v, report = [v])
        \/ (dipole.sim_time fresh_state <> 0%Z /\ report = []))
    /\ exists before after,
         new = before ++ call_initialize_tensor_solver :: after
         /\ In (zlog (Requires_MB_of_RAM estimate)) before
         /\ In (cout (Requires_MB_of_RAM estimate)) before.
Proof.
  apply (first_call_messages example_solver fresh_state first_call_result
           example_arguments).
  - reflexivity.
  - reflexivity.
  - exact first_call_result_returned.
Defined.

(* ================================================================== *)
(** * dipole: repeated calls, and the trace of the reported tensor *)
(* ================================================================== *)

Lemma emit_emit (es1 es2 : list event) (s : dipole.state) :
  dipole.emit es2 (dipole.emit es1 s) = dipole.emit (es1 ++ es2) s.
Proof.
  apply state_ext; try reflexivity.
  cbn [dipole.trace dipole.emit]. now rewrite app_assoc.
Qed.

Lemma emit_nothing (s : dipole.state) : dipole.emit [] s = s.
Proof.
  apply state_ext; try reflexivity.
  cbn [dipole.trace dipole.emit]. now rewrite app_nil_r.
Qed.

(** X9. Once the enabled module is initialised, any number of further
    calls of [initialize], with any arguments, only add one warning each to
    the log: the state after k calls is the state before them with k
    warnings appended. *)
Theorem repeated_calls_only_warn
    (solver : dipole.arguments -> sym6 matrix * sym6 matrix
              -> sym6 matrix * sym6 matrix)
    (s : dipole.state) (calls : list dipole.arguments) :
  dipole.activated s = true ->
  dipole.internal.initialised (dipole.internals s) = true ->
  dipole.run solver (map dipole.do_initialize calls) s
  = Ok (dipole.emit
          (repeat (zlog Warning_already_initialised) (List.length calls)) s).
Proof.
  revert s. induction calls as [|a calls IH]; intros s Hact Hini.
  - unfold dipole.run. simpl. now rewrite emit_nothing.
  - unfold dipole.run in *. cbn [map for_each dipole.perform List.length repeat].
    rewrite (initialised_returns_early solver s a Hini), Hact. cbn [bind].
    rewrite IH by assumption.
    now rewrite emit_emit.
Qed.

Lemma repeated_calls_only_warn_witness :
  dipole.run example_solver
    (map dipole.do_initialize [example_arguments; one_cell_arguments])
    example_state
  = Ok (dipole.emit
          (repeat (zlog Warning_already_initialised)
                  (List.length [example_arguments; one_cell_arguments]))
          example_state).
Proof.
  apply (repeated_calls_only_warn example_solver example_state
           [example_arguments; one_cell_arguments]).
  - reflexivity.
  - reflexivity.
Defined.

Section Trace.

Import dipole.
Open Scope R_scope.

Lemma Rsum_map_add3 {I : Type} (f g h : I -> R) (l : list I) :
  Rsum (map f l) + Rsum (map g l) + Rsum (map h l)
  = Rsum (map (fun i => f i + g i + h i) l).
Proof.
  unfold Rsum. induction l as [|i l IH]; simpl; [lra|]. rewrite <- IH. lra.
Qed.

Lemma Rsum_map_zero_in {I : Type} (f : I -> R) (l : list I) :
  (forall i, In i l -> f i = 0) -> Rsum (map f l) = 0.
Proof.
  unfold Rsum. induction l as [|i l IH]; intros H; simpl; [reflexivity|].
  rewrite (H i) by now left. rewrite IH; [lra|].
  intros j Hj. apply H. now right.
Qed.

(** The tensor of a pair of cells has no trace. *)
Definition traceless_pairs (s : state) : Prop :=
  forall lc j, (lc < local_cells s)%nat -> (j < all_cells s)%nat ->
    tensor_total (internals s) XX lc j + tensor_total (internals s) YY lc j
    + tensor_total (internals s) ZZ lc j = 0.

Definition traceless_peers (s : state) : Prop :=
  Forall (fun p => xx (snd p) + yy (snd p) + zz (snd p) = 0) (peers s).

Lemma pair_term_trace (s : state) (lc j : nat) :
  traceless_pairs s -> (lc < local_cells s)%nat -> (j < all_cells s)%nat ->
  pair_term s XX lc j + pair_term s YY lc j + pair_term s ZZ lc j = 0.
Proof.
  intros Ht Hlc Hj. unfold pair_term.
  destruct ((n_atoms s (cell_of s lc) =? 0)%Z || (n_atoms s j =? 0)%Z); [lra|].
  rewrite <- !Rmult_plus_distr_l, (Ht lc j Hlc Hj). lra.
Qed.

Lemma demag_total_trace (s : state) :
  traceless_pairs s ->
  demag_total s XX + demag_total s YY + demag_total s ZZ = 0.
Proof.
  intros Ht. unfold demag_total. rewrite Rsum_map_add3.
  apply Rsum_map_zero_in. intros lc Hlc. apply in_seq in Hlc.
  rewrite Rsum_map_add3. apply Rsum_map_zero_in. intros j Hj. apply in_seq in Hj.
  apply pair_term_trace; [assumption | lia | lia].
Qed.

Lemma peers_trace (s : state) :
  traceless_peers s ->
  Rsum (map (fun p => get XX (snd p)) (peers s))
  + Rsum (map (fun p => get YY (snd p)) (peers s))
  + Rsum (map (fun p => get ZZ (snd p)) (peers s)) = 0.
Proof.
  intros Hp. rewrite Rsum_map_add3. apply Rsum_map_zero_in.
  intros p Hin. unfold traceless_peers in Hp. rewrite Forall_forall in Hp.
  apply (Hp p Hin).
Qed.

End Trace.

(** X10. When the interaction tensor of every pair of cells is traceless,
    on this worker and in the totals of the others, the three diagonal
    demagnetising factors that the diagnostic reports add up to one: the
    self-term [4 pi / 3], subtracted three times and divided by [-4 pi], is
    all that is left of the trace. *)
Theorem demag_factors_add_up_to_one (s : dipole.state) :
  dipole.geometry_ready s -> dipole.counts_ready s ->
  traceless_pairs s -> traceless_peers s ->
  exists D,
    dipole.demag_diagnostic s
    = Ok (dipole.emit
            [zlog Demagnetisation_tensor_header;
             zlog (Demagnetisation_tensor_values (dipole.report_values D))] s)
    /\ (xx D + yy D + zz D = 1)%R.
Proof.
  intros Hr Hc Ht Hp. exists (demag_tensor s).
  split; [now apply demag_diagnostic_ready|].
  assert (Hn : dipole.total_magnetic_atoms s <> 0%Z).
  { pose proof (dipole.ready_total s Hc). lia. }
  unfold demag_tensor. cbn [tabulate xx yy zz is_diagonal].
  rewrite !normalised_closed_form by assumption.
  pose proof (demag_total_trace s Ht) as Hlocal.
  pose proof (peers_trace s Hp) as Hpeers.
  unfold reduced_total.
  assert (Hpi := PI_nonzero). assert (Hz := not_0_IZR _ Hn).
  set (n := IZR (dipole.total_magnetic_atoms s)) in *.
  set (a1 := dipole.demag_total s XX) in *.
  set (a2 := dipole.demag_total s YY) in *.
  set (a3 := dipole.demag_total s ZZ) in *.
  set (b1 := Rsum (map (fun p => get XX (snd p)) (dipole.peers s))) in *.
  set (b2 := Rsum (map (fun p => get YY (snd p)) (dipole.peers s))) in *.
  set (b3 := Rsum (map (fun p => get ZZ (snd p)) (dipole.peers s))) in *.
  replace (1 / 3 - (a1 + b1) / (4 * PI * n) + (1 / 3 - (a2 + b2) / (4 * PI * n))
           + (1 / 3 - (a3 + b3) / (4 * PI * n)))%R
    with (1 - ((a1 + a2 + a3) + (b1 + b2 + b3)) / (4 * PI * n))%R
    by (field; auto).
  rewrite Hlocal, Hpeers. field. auto.
Qed.

(** The small geometry with traceless tensors: xx = yy and zz = -2 xx. *)
Definition traceless_state : dipole.state :=
  {| dipole.activated := true;
     dipole.internals :=
       dipole.with_tensors
         {| xx := [[1; 0; 0]; [0; 0; 1]]; xy := [[0; 0; 0]; [0; 0; 0]];
            xz := [[0; 0; 0]; [0; 0; 0]]; yy := [[1; 0; 0]; [0; 0; 1]];
            yz := [[0; 0; 0]; [0; 0; 0]]; zz := [[-2; 0; 0]; [0; 0; -2]] |}%R
         {| xx := [[0; 5; 2]; [2; 5; 0]]; xy := [[0; 7; 1]; [1; 7; 0]];
            xz := [[0; 0; 0]; [0; 0; 0]]; yy := [[0; -1; 1]; [1; -1; 0]];
            yz := [[0; 0; 0]; [0; 0; 0]]; zz := [[0; -4; -3]; [-3; -4; 0]] |}%R
         example_internals;
     dipole.cells_globals := dipole.cells_globals example_state;
     dipole.sim_time := 0;
     dipole.moment := dipole.moment example_state;
     dipole.field := [];
     dipole.peers := [(6%Z, {| xx := 1; xy := 4; xz := 0;
                               yy := 1; yz := 0; zz := -2 |}%R)];
     dipole.trace := [] |}.

Lemma traceless_state_ready :
  dipole.geometry_ready traceless_state /\ dipole.counts_ready traceless_state.
Proof.
  split.
  - constructor; unfold dipole.local_cells, dipole.all_cells; simpl.
    + lia.
    + intros [|[|lc]] H; simpl; lia.
    + lia.
    + repeat constructor; lia.
    + lia.
    + intros c. unfold dipole.shaped.
      destruct c; simpl; repeat split; repeat constructor.
  - constructor.
    + repeat constructor. simpl. lia.
    + vm_compute. split; [reflexivity | discriminate].
Qed.

Lemma traceless_state_traceless :
  traceless_pairs traceless_state /\ traceless_peers traceless_state.
Proof.
  split.
  - intros lc j Hlc Hj. unfold dipole.local_cells, dipole.all_cells in *.
    simpl in Hlc, Hj. unfold dipole.tensor_total.
    destruct lc as [|[|lc]]; [| |lia];
      (destruct j as [|[|[|j]]]; [| | |lia]); simpl; lra.
  - repeat constructor. simpl. lra.
Qed.

Lemma demag_factors_add_up_to_one_witness :
  exists D,
    dipole.demag_diagnostic traceless_state
    = Ok (dipole.emit
            [zlog Demagnetisation_tensor_header;
             zlog (Demagnetisation_tensor_values (dipole.report_values D))]
            traceless_state)
    /\ (xx D + yy D + zz D = 1)%R.
Proof.
  apply (demag_factors_add_up_to_one traceless_state).
  - exact (proj1 traceless_state_ready).
  - exact (proj2 traceless_state_ready).
  - exact (proj1 traceless_state_traceless).
  - exact (proj2 traceless_state_traceless).
Defined.

(* ================================================================== *)
(** * namespace vmpi (builds with MPICF) *)
(* ================================================================== *)

Module vmpi.

Open Scope R_scope.
Open Scope outcome_scope.

(** [double SwapTimer(double OldTimer, double& NewTimer)]: [MPI_Wtime] is
    the reading of the clock the call takes; the result is the returned
    value paired with the value left in [NewTimer]. *)
Definition SwapTimer (MPI_Wtime OldTimer : R) : R * R :=
  let time := MPI_Wtime in
  (* set start time for NewTimer *)
  let NewTimer := time in
  (* Calculate time elapsed since last call for OldTimer *)
  (time - OldTimer, NewTimer).

(** The four variables of the usage the source documents above
    [SwapTimer]. *)
Record timers : Type := {
  compute_time : R;
  wait_time : R;
  total_compute_time : R;
  total_wait_time : R
}.

(** "Start with compute_time=time and do some calculations." *)
Definition start_computing (time : R) : timers :=
  {| compute_time := time; wait_time := 0;
     total_compute_time := 0; total_wait_time := 0 |}.

(** [total_compute_time += SwapTimer(compute_time, wait_time);] *)
Definition begin_wait (MPI_Wtime : R) (t : timers) : timers :=
  let '(elapsed, new_timer) := SwapTimer MPI_Wtime (compute_time t) in
  {| compute_time := compute_time t; wait_time := new_timer;
     total_compute_time := total_compute_time t + elapsed;
     total_wait_time := total_wait_time t |}.

(** [total_wait_time += SwapTimer(wait_time, compute_time);] *)
Definition end_wait (MPI_Wtime : R) (t : timers) : timers :=
  let '(elapsed, new_timer) := SwapTimer MPI_Wtime (wait_time t) in
  {| compute_time := new_timer; wait_time := wait_time t;
     total_compute_time := total_compute_time t;
     total_wait_time := total_wait_time t + elapsed |}.

(** The two calls in alternation, one per reading of the clock; [computing]
    tells which timer is running. *)
Fixpoint alternate (computing : bool) (readings : list R) (t : timers) : timers :=
  match readings with
  | [] => t
  | r :: rest =>
      if computing then alternate false rest (begin_wait r t)
      else alternate true rest (end_wait r t)
  end.

(** The timer that is running. *)
Definition running (computing : bool) (t : timers) : R :=
  if computing then compute_time t else wait_time t.

(** Readings of a clock that does not run backwards. *)
Fixpoint nondecreasing (from : R) (readings : list R) : Prop :=
  match readings with
  | [] => True
  | r :: rest => from <= r /\ nondecreasing r rest
  end.

(** ** [int finalise()]: the timing tables *)

(** The timing arrays of one process. *)
Record process : Type := {
  WaitTimeArray : list R;
  ComputeTimeArray : list R
}.

(** A [for] loop that collects one result per index. *)
Fixpoint collect {I B : Type} (f : I -> outcome B) (idxs : list I)
  : outcome (list B) :=
  match idxs with
  | [] => Ok []
  | i :: rest =>
      b <- f i ;;
      bs <- collect f rest ;;
      Ok (b :: bs)
  end.

(** [MPI_Gather(send, count, MPI_DOUBLE, recv, count, MPI_DOUBLE, 0,
    MPI_COMM_WORLD)] as the calling process sees it.  [sends] are the send
    buffers of all processes in rank order; every process sends all its
    elements.  On a process other than the root the receive buffer is not
    used.  On the root the message of rank p goes to the block of [count]
    doubles at [p*count]: a message that is not [count] doubles long is
    erroneous, and a receive buffer of fewer than
    [num_processors*count] doubles is overrun. *)
Definition MPI_Gather (my_rank : nat) (sends : list (list R)) (count : nat)
    (recv : list R) : outcome (list R) :=
  if negb (my_rank =? 0)%nat then Ok recv
  else if negb (forallb (fun v => (List.length v =? count)%nat) sends)
  then Fault OutOfRange
  else if (List.length sends * count <=? List.length recv)%nat
  then Ok (concat sends ++ skipn (List.length sends * count) recv)
  else Fault OutOfRange.

(** "Column Row format": one row per index, the index first, then one
    column per process, read with the bounds-checked [AllTimes.at]. *)
Definition timing_table (AllTimes : list R) (size num_processors : nat)
  : outcome (list (nat * list R)) :=
  collect
    (fun idx =>
       row <- collect (fun p => vec_at_nat AllTimes (idx + p * size))
                      (seq 0 num_processors) ;;
       Ok (idx, row))
    (seq 0 size).

(** The files [finalise] writes on the process of rank [my_rank], each
    with its rows.  The barrier, [MPI_Finalize] and the wall-clock time
    printed by rank 0 are left out. *)
Definition finalise (DetailedMPITiming : bool) (my_rank : nat)
    (processes : list process)
  : outcome (list (string * list (nat * list R))) :=
  if DetailedMPITiming then
    me <- vec_at_nat processes my_rank ;;
    let num_processors := List.length processes in
    let AllTimes := [] in
    let AllTimes :=
      if (my_rank =? 0)%nat
      then vec_resize AllTimes
             (num_processors * List.length (WaitTimeArray me)) 0
      else AllTimes in
    AllTimes <- MPI_Gather my_rank (map WaitTimeArray processes)
                  (List.length (WaitTimeArray me)) AllTimes ;;
    wait_file <-
      (if (my_rank =? 0)%nat then
         rows <- timing_table AllTimes (List.length (WaitTimeArray me))
                   num_processors ;;
         Ok [("MPI-wait-times"%string, rows)]
       else Ok []) ;;
    AllTimes <- MPI_Gather my_rank (map ComputeTimeArray processes)
                  (List.length (ComputeTimeArray me)) AllTimes ;;
    compute_file <-
      (if (my_rank =? 0)%nat then
         rows <- timing_table AllTimes (List.length (ComputeTimeArray me))
                   num_processors ;;
         Ok [("MPI-compute-times"%string, rows)]
       else Ok []) ;;
    Ok (wait_file ++ compute_file)
  else Ok [].

(** The table a reader expects: row [idx] lists, process by process, the
    entry [idx] of the process's array. *)
Definition transposed (arrays : list (list R)) (size : nat)
  : list (nat * list R) :=
  map (fun idx => (idx, map (fun v => nth idx v 0) arrays)) (seq 0 size).

End vmpi.

Section SwapTimers.

Import vmpi.
Open Scope R_scope.

Lemma last_cons_default {A : Type} (x d : A) (l : list A) :
  last (x :: l) d = last l x.
Proof.
  revert x d. induction l as [|y l IH]; intros x d; [reflexivity|].
  change (last (x :: y :: l) d) with (last (y :: l) d).
  now rewrite !IH.
Qed.

Lemma alternate_accounts (computing : bool) (readings : list R) (t : timers) :
  let t' := alternate computing readings t in
  total_compute_time t' + total_wait_time t'
  = total_compute_time t + total_wait_time t
    + (last readings (running computing t) - running computing t).
Proof.
  revert computing t. induction readings as [|r rest IH]; intros computing t.
  - simpl. lra.
  - cbn [alternate]. destruct computing.
    + specialize (IH false (begin_wait r t)). cbv zeta in IH |- *. rewrite IH.
      rewrite last_cons_default.
      unfold begin_wait, SwapTimer, running. cbn [wait_time compute_time
        total_compute_time total_wait_time]. lra.
    + specialize (IH true (end_wait r t)). cbv zeta in IH |- *. rewrite IH.
      rewrite last_cons_default.
      unfold end_wait, SwapTimer, running. cbn [wait_time compute_time
        total_compute_time total_wait_time]. lra.
Qed.

Lemma alternate_nonneg (computing : bool) (readings : list R) (t : timers) :
  nondecreasing (running computing t) readings ->
  0 <= total_compute_time t -> 0 <= total_wait_time t ->
  0 <= total_compute_time (alternate computing readings t)
  /\ 0 <= total_wait_time (alternate computing readings t).
Proof.
  revert computing t. induction readings as [|r rest IH];
    intros computing t Hmono Hc Hw.
  - simpl. auto.
  - destruct Hmono as [Hle Hrest]. cbn [alternate]. destruct computing.
    + apply IH; unfold begin_wait, SwapTimer, running in *;
        cbn [wait_time compute_time total_compute_time total_wait_time] in *;
        [assumption | lra | lra].
    + apply IH; unfold end_wait, SwapTimer, running in *;
        cbn [wait_time compute_time total_compute_time total_wait_time] in *;
        [assumption | lra | lra].
Qed.

(** X11. Used as the source documents it, [SwapTimer] accounts for all the
    time: after any number of alternating swaps, the compute total and the
    wait total add up to the last reading of the clock minus the reading at
    the start, and neither total is negative when the clock does not run
    backwards. *)
Theorem swap_timers_account_for_all_time (start : R) (readings : list R) :
  let t := alternate true readings (start_computing start) in
  total_compute_time t + total_wait_time t = last readings start - start
  /\ (nondecreasing start readings ->
      0 <= total_compute_time t /\ 0 <= total_wait_time t).
Proof.
  intros t. split.
  - unfold t. rewrite (alternate_accounts true readings (start_computing start)).
    simpl. lra.
  - intros Hmono. unfold t. apply alternate_nonneg; simpl; [assumption | lra | lra].
Qed.

End SwapTimers.

(* ================================================================== *)
(** * vmpi: the timing tables of [finalise] *)
(* ================================================================== *)

Section TimingTables.

Import vmpi.
Open Scope R_scope.

Lemma collect_all_ok {I B : Type} (f : I -> outcome B) (g : I -> B)
    (idxs : list I) :
  (forall i, In i idxs -> f i = Ok (g i)) ->
  collect f idxs = Ok (map g idxs).
Proof.
  induction idxs as [|i rest IH]; intros H; [reflexivity|].
  cbn [collect map]. rewrite (H i) by now left. cbn [bind].
  rewrite IH; [reflexivity|]. intros j Hj. apply H. now right.
Qed.

Lemma concat_uniform_length (sends : list (list R)) (n : nat) :
  Forall (fun v => List.length v = n) sends ->
  List.length (concat sends) = (List.length sends * n)%nat.
Proof.
  induction 1 as [|v vs Hv _ IH]; [reflexivity|].
  cbn [concat List.length]. rewrite length_app, IH, Hv. lia.
Qed.

(** Block [p] of the gathered buffer is the message of rank [p]. *)
Lemma concat_uniform_nth (sends : list (list R)) (rest : list R)
    (n p idx : nat) :
  Forall (fun v => List.length v = n) sends ->
  (p < List.length sends)%nat -> (idx < n)%nat ->
  nth (idx + p * n) (concat sends ++ rest) 0 = nth idx (nth p sends []) 0.
Proof.
  intros Hall. revert p. induction Hall as [|v vs Hv Hall IH]; intros p Hp Hidx.
  - simpl in Hp. lia.
  - cbn [concat]. rewrite <- app_assoc. destruct p as [|p].
    + cbn [nth]. rewrite Nat.mul_0_l, Nat.add_0_r.
      apply app_nth1. lia.
    + cbn [nth]. rewrite app_nth2 by lia.
      replace (idx + S p * n - List.length v)%nat with (idx + p * n)%nat by lia.
      apply IH; [simpl in Hp; lia | assumption].
Qed.

Lemma map_nth_seq {B : Type} (g : list R -> B) (l : list (list R)) :
  map (fun p => g (nth p l [])) (seq 0 (List.length l)) = map g l.
Proof.
  induction l as [|v l IH]; [reflexivity|].
  cbn [List.length seq map]. f_equal.
  rewrite <- seq_shift, map_map. exact IH.
Qed.

(** Read back from a gathered buffer, the table is the transpose of the
    arrays of the processes. *)
Lemma gathered_table (sends : list (list R)) (rest : list R) (n : nat) :
  Forall (fun v => List.length v = n) sends ->
  timing_table (concat sends ++ rest) n (List.length sends)
  = Ok (transposed sends n).
Proof.
  intros Hall. unfold timing_table, transposed.
  apply collect_all_ok. intros idx Hidx. apply in_seq in Hidx.
  rewrite (collect_all_ok _ (fun p => nth idx (nth p sends []) 0)).
  - cbn [bind]. do 2 f_equal.
    exact (map_nth_seq (fun v => nth idx v 0) sends).
  - intros p Hp. apply in_seq in Hp.
    rewrite (vec_at_nat_in_range _ _ 0).
    + f_equal. apply concat_uniform_nth; [assumption | lia | lia].
    + rewrite length_app, (concat_uniform_length sends n Hall). nia.
Qed.

Lemma gathered_table_of (sends : list (list R)) (rest : list R) (n P : nat) :
  Forall (fun v => List.length v = n) sends ->
  List.length sends = P ->
  timing_table (concat sends ++ rest) n P = Ok (transposed sends n).
Proof. intros Hall <-. now apply gathered_table. Qed.

Lemma uniform_forallb (sends : list (list R)) (n : nat) :
  Forall (fun v => List.length v = n) sends ->
  forallb (fun v => (List.length v =? n)%nat) sends = true.
Proof.
  intros H. apply forallb_forall. rewrite Forall_forall in H.
  intros v Hv. apply Nat.eqb_eq. now apply H.
Qed.

(** All processes hold [W] wait times and [C] compute times. *)
Definition uniform (processes : list process) (W C : nat) : Prop :=
  Forall (fun v => List.length v = W) (map WaitTimeArray processes)
  /\ Forall (fun v => List.length v = C) (map ComputeTimeArray processes).

Lemma uniform_rank0 (processes : list process) (W C : nat) :
  uniform processes W C -> processes <> [] ->
  exists me rest,
    processes = me :: rest
    /\ List.length (WaitTimeArray me) = W
    /\ List.length (ComputeTimeArray me) = C.
Proof.
  intros [Hw Hc] Hne. destruct processes as [|me rest]; [contradiction|].
  exists me, rest. simpl in Hw, Hc.
  inversion Hw; inversion Hc; subst. auto.
Qed.

(** X12. With detailed timing on, when every process holds [W] wait
    times and [C] compute times and [C <= W], rank 0 writes two files,
    "MPI-wait-times" and "MPI-compute-times", and each is the transpose of
    the arrays: row [idx] holds the index and then, process by process in
    rank order, the entry [idx] of that process's array. *)
Theorem finalise_writes_transposed_tables
    (processes : list process) (W C : nat) :
  processes <> [] ->
  uniform processes W C ->
  (C <= W)%nat ->
  finalise true 0 processes
  = Ok [("MPI-wait-times"%string,
         transposed (map WaitTimeArray processes) W);
        ("MPI-compute-times"%string,
         transposed (map ComputeTimeArray processes) C)].
Proof.
  intros Hne Hu Hle.
  destruct (uniform_rank0 processes W C Hu Hne) as (me & rest & Hp & HW & HC).
  destruct Hu as [Hw Hc].
  unfold finalise. rewrite Hp at 1. cbn [vec_at_nat nth_error bind Nat.eqb].
  rewrite HW, HC.
  set (P := List.length processes).
  assert (HPw : List.length (map WaitTimeArray processes) = P) by apply length_map.
  assert (HPc : List.length (map ComputeTimeArray processes) = P) by apply length_map.
  (* the first gather *)
  unfold MPI_Gather at 1. cbn [Nat.eqb negb].
  rewrite (uniform_forallb _ W Hw). cbn [negb].
  assert (Hbuf : List.length (vec_resize (@nil R) (P * W) 0) = (P * W)%nat).
  { unfold vec_resize. rewrite firstn_nil. cbn [app List.length].
    rewrite repeat_length. lia. }
  rewrite HPw, Hbuf, Nat.leb_refl. cbn [bind].
  rewrite (gathered_table_of _ _ W P Hw HPw). cbn [bind].
  (* the second gather *)
  unfold MPI_Gather. cbn [Nat.eqb negb].
  rewrite (uniform_forallb _ C Hc). cbn [negb].
  rewrite HPc.
  assert (Hbuf2 : List.length
                    (concat (map WaitTimeArray processes)
                     ++ skipn (P * W) (vec_resize (@nil R) (P * W) 0))
                  = (P * W)%nat).
  { rewrite length_app, (concat_uniform_length _ W Hw), length_skipn, HPw, Hbuf.
    lia. }
  rewrite Hbuf2.
  destruct (Nat.leb_spec (P * C) (P * W)) as [_ | Hgt]; [|nia].
  cbn [bind].
  rewrite (gathered_table_of _ _ C P Hc HPc). cbn [bind].
  reflexivity.
Qed.

(** Two processes, three wait times and two compute times each. *)
Definition two_processes : list process :=
  [ {| WaitTimeArray := [1; 2; 3]; ComputeTimeArray := [10; 20] |};
    {| WaitTimeArray := [4; 5; 6]; ComputeTimeArray := [30; 40] |} ].

Lemma finalise_writes_transposed_tables_witness :
  finalise true 0 two_processes
  = Ok [("MPI-wait-times"%string,
         transposed (map WaitTimeArray two_processes) 3);
        ("MPI-compute-times"%string,
         transposed (map ComputeTimeArray two_processes) 2)].
Proof.
  apply (finalise_writes_transposed_tables two_processes 3 2).
  - discriminate.
  - split; repeat constructor.
  - lia.
Defined.

(** The two tables of the witness, written out. *)
Example two_processes_tables :
  transposed (map WaitTimeArray two_processes) 3
  = [(0%nat, [1; 4]); (1%nat, [2; 5]); (2%nat, [3; 6])]
  /\ transposed (map ComputeTimeArray two_processes) 2
     = [(0%nat, [10; 30]); (1%nat, [20; 40])].
Proof. split; reflexivity. Qed.

(** X13. The receive buffer of both gathers is sized from
    [WaitTimeArray] alone: when the processes hold more compute times than
    wait times, the second gather on rank 0 does not fit the buffer, and
    [finalise] overruns it instead of writing the compute table. *)
Theorem finalise_overruns_when_compute_is_longer
    (processes : list process) (W C : nat) :
  processes <> [] ->
  uniform processes W C ->
  (W < C)%nat ->
  finalise true 0 processes = Fault OutOfRange.
Proof.
  intros Hne Hu Hlt.
  destruct (uniform_rank0 processes W C Hu Hne) as (me & rest & Hp & HW & HC).
  destruct Hu as [Hw Hc].
  unfold finalise. rewrite Hp at 1. cbn [vec_at_nat nth_error bind Nat.eqb].
  rewrite HW, HC.
  set (P := List.length processes).
  assert (HP : (0 < P)%nat).
  { unfold P. rewrite Hp. simpl. lia. }
  assert (HPw : List.length (map WaitTimeArray processes) = P) by apply length_map.
  assert (HPc : List.length (map ComputeTimeArray processes) = P) by apply length_map.
  unfold MPI_Gather at 1. cbn [Nat.eqb negb].
  rewrite (uniform_forallb _ W Hw). cbn [negb].
  assert (Hbuf : List.length (vec_resize (@nil R) (P * W) 0) = (P * W)%nat).
  { unfold vec_resize. rewrite firstn_nil. cbn [app List.length].
    rewrite repeat_length. lia. }
  rewrite HPw, Hbuf, Nat.leb_refl. cbn [bind].
  rewrite (gathered_table_of _ _ W P Hw HPw). cbn [bind].
  unfold MPI_Gather. cbn [Nat.eqb negb].
  rewrite (uniform_forallb _ C Hc). cbn [negb].
  rewrite HPc.
  assert (Hbuf2 : List.length
                    (concat (map WaitTimeArray processes)
                     ++ skipn (P * W) (vec_resize (@nil R) (P * W) 0))
                  = (P * W)%nat).
  { rewrite length_app, (concat_uniform_length _ W Hw), length_skipn, HPw, Hbuf.
    lia. }
  rewrite Hbuf2.
  destruct (Nat.leb_spec (P * C) (P * W)) as [Hle | _]; [nia|].
  reflexivity.
Qed.

(** Two processes with more compute times than wait times. *)
Definition two_busy_processes : list process :=
  [ {| WaitTimeArray := [1]; ComputeTimeArray := [10; 20] |};
    {| WaitTimeArray := [4]; ComputeTimeArray := [30; 40] |} ].

Lemma finalise_overruns_when_compute_is_longer_witness :
  finalise true 0 two_busy_processes = Fault OutOfRange.
Proof.
  apply (finalise_overruns_when_compute_is_longer two_busy_processes 1 2).
  - discriminate.
  - split; repeat constructor.
  - lia.
Defined.

End TimingTables.

(* ================================================================== *)
(** * dipole: the estimate for all sizes, and the cell index array *)
(* ================================================================== *)

(** X14. For every pair of positive cell counts for which the [int]
    product [cells_num_local_cells*6] is defined, the figure printed as the
    RAM required is exactly half the bytes of the tensor storage set up for
    the call: 48 bytes for each pair of a local cell and a cell, where the
    twelve matrices hold 96. *)
Theorem memory_estimate_counts_half_the_storage
    (i : dipole.internal.t) (a : dipole.arguments) :
  (0 < dipole.cells_num_local_cells a)%Z ->
  (dipole.cells_num_local_cells a * 6 <= int_max)%Z ->
  (0 < dipole.cells_num_cells a)%Z ->
  exists i' mb,
    dipole.allocate_memory i (dipole.cells_num_local_cells a)
      (dipole.cells_num_cells a) = Ok i'
    /\ dipole.memory_estimate_MB (dipole.set_const_for_functions a i') = Ok mb
    /\ (mb * 1000000
        = IZR (48 * dipole.cells_num_local_cells a * dipole.cells_num_cells a))%R
    /\ dipole.storage_bytes i'
       = (96 * dipole.cells_num_local_cells a * dipole.cells_num_cells a)%Z.
Proof.
  intros Hnl Hmax Hnc.
  destruct (allocated_storage_bytes i (dipole.cells_num_local_cells a)
              (dipole.cells_num_cells a)) as (i' & Halloc & Hbytes); [lia | lia |].
  exists i', (printed_estimate a).
  split; [assumption|].
  split; [apply memory_estimate_defined; unfold sizes_ok; lia|].
  split; [apply printed_estimate_bytes | assumption].
Qed.

Lemma memory_estimate_counts_half_the_storage_witness :
  exists i' mb,
    dipole.allocate_memory example_internals
      (dipole.cells_num_local_cells example_arguments)
      (dipole.cells_num_cells example_arguments) = Ok i'
    /\ dipole.memory_estimate_MB
         (dipole.set_const_for_functions example_arguments i') = Ok mb
    /\ (mb * 1000000
        = IZR (48 * dipole.cells_num_local_cells example_arguments
               * dipole.cells_num_cells example_arguments))%R
    /\ dipole.storage_bytes i'
       = (96 * dipole.cells_num_local_cells example_arguments
          * dipole.cells_num_cells example_arguments)%Z.
Proof.
  apply (memory_estimate_counts_half_the_storage example_internals
           example_arguments).
  - simpl. lia.
  - unfold int_max. simpl. lia.
  - simpl. lia.
Defined.

Section CellIndexArray.

Import dipole.

Variable solver :
  arguments -> sym6 matrix * sym6 matrix -> sym6 matrix * sym6 matrix.

(** A loop that returns has run its body at every index. *)
Lemma for_each_ok_body {I A : Type} (body : I -> A -> outcome A)
    (l1 l2 : list I) (i : I) (a a' : A) :
  for_each body (l1 ++ i :: l2) a = Ok a' ->
  exists a1 a2, body i a1 = Ok a2.
Proof.
  rewrite for_each_app. destruct (for_each body l1 a) as [a1|]; [|discriminate].
  cbn [bind for_each]. destruct (body i a1) as [a2|] eqn:E; [|discriminate].
  eauto.
Qed.

(** The count of lines 177-182 reads [cells::cell_id_array] at every index
    below the number of local cells. *)
Lemma count_needs_cell_ids (s : state) (n : Z) :
  count_magnetic_atoms s = Ok n ->
  (local_cells s <= List.length (cells.cell_id_array (cells_globals s)))%nat.
Proof.
  intros H. unfold count_magnetic_atoms in H. fold (local_cells s) in H.
  destruct (Nat.le_gt_cases (local_cells s)
              (List.length (cells.cell_id_array (cells_globals s))))
    as [Hle | Hgt]; [assumption|].
  set (k := List.length (cells.cell_id_array (cells_globals s))) in *.
  assert (Hsplit : seq 0 (local_cells s)
                   = seq 0 k ++ k :: seq (S k) (local_cells s - S k)).
  { replace (local_cells s) with (k + S (local_cells s - S k))%nat at 1 by lia.
    rewrite seq_app. reflexivity. }
  rewrite Hsplit in H.
  destruct (for_each_ok_body _ _ _ _ _ _ H) as (a1 & a2 & Hbody).
  unfold vec_at_nat in Hbody.
  destruct (nth_error (cells.cell_id_array (cells_globals s)) k) eqn:E.
  - assert (Hsome : nth_error (cells.cell_id_array (cells_globals s)) k <> None)
      by congruence.
    apply nth_error_Some in Hsome. fold k in Hsome. lia.
  - discriminate.
Qed.

Lemma demag_diagnostic_needs_cell_ids (s s' : state) :
  demag_diagnostic s = Ok s' ->
  (local_cells s <= List.length (cells.cell_id_array (cells_globals s)))%nat.
Proof.
  unfold demag_diagnostic. intros H.
  destruct (count_magnetic_atoms s) as [n|] eqn:E; [|discriminate].
  now apply (count_needs_cell_ids s n).
Qed.

Lemma first_call_needs_cell_ids (s s' : state) (a : arguments) :
  activated s = true ->
  internal.initialised (internals s) = false ->
  sim_time s = 0%Z ->
  initialize solver s a = Ok s' ->
  (Z.to_nat (cells_num_local_cells a)
   <= List.length (cells.cell_id_array (cells_globals s)))%nat.
Proof.
  intros Hact Hini Htime H. unfold initialize in H.
  rewrite Hact, Hini in H. cbn [negb] in H.
  destruct (build solver s a) as [s1|] eqn:Hb; [|discriminate].
  cbn [bind] in H.
  destruct (build_returns solver s s1 a Hb) as (mb & _ & ->).
  destruct (first_update_frame (built solver s a mb))
    as (_ & Hi & Hc & Ht & _).
  rewrite Ht in H. cbn [sim_time built] in H. rewrite Htime in H.
  cbn [Z.eqb] in H.
  apply demag_diagnostic_needs_cell_ids in H.
  unfold local_cells in H. rewrite Hi, Hc in H. exact H.
Qed.

End CellIndexArray.

Section ReadsPastCellIds.

Import dipole.

Lemma firstn_snoc_nth {A : Type} (l : list A) (j : nat) (d : A) :
  (j < List.length l)%nat -> firstn (S j) l = firstn j l ++ [nth j l d].
Proof.
  revert j. induction l as [|x l IH]; intros j Hj; simpl in Hj; [lia|].
  destruct j as [|j]; [reflexivity|].
  cbn [firstn nth app]. f_equal. apply IH. lia.
Qed.

Lemma nth_nonneg (counts : list Z) (i : nat) :
  Forall (fun n => 0 <= n)%Z counts -> (0 <= nth i counts 0%Z)%Z.
Proof.
  intros H. destruct (Nat.lt_ge_cases i (List.length counts)) as [Hlt | Hge].
  - rewrite Forall_forall in H. apply H, nth_In, Hlt.
  - rewrite nth_overflow by assumption. lia.
Qed.

(** The populations of the first [j] cells listed in the cell index
    array, added up. *)
Definition listed_atoms (ids counts : list Z) (j : nat) : Z :=
  Zsum (map (fun id => nth (Z.to_nat id) counts 0%Z) (firstn j ids)).

Lemma listed_atoms_bounds (ids counts : list Z) (j : nat) :
  Forall (fun n => 0 <= n)%Z counts ->
  (0 <= listed_atoms ids counts j
   <= Zsum (map (fun id => nth (Z.to_nat id) counts 0%Z) ids))%Z.
Proof.
  intros Hn. unfold listed_atoms.
  assert (Hpos : forall l, (0 <= Zsum (map (fun id => nth (Z.to_nat id) counts 0%Z) l))%Z).
  { intros l. apply Zsum_nonneg, Forall_forall. intros z Hz.
    apply in_map_iff in Hz. destruct Hz as (id & <- & _). now apply nth_nonneg. }
  rewrite <- (firstn_skipn j ids) at 3. rewrite map_app, Zsum_app.
  pose proof (Hpos (firstn j ids)). pose proof (Hpos (skipn j ids)). lia.
Qed.

(** The loop of lines 179-182 over the local cells that the cell index
    array lists, and the read that follows the last of them. *)
Lemma count_reads_past_cell_ids (s : state) :
  let ids := cells.cell_id_array (cells_globals s) in
  let counts := internal.cells_num_atoms_in_cell (internals s) in
  (List.length ids < local_cells s)%nat ->
  Forall (fun id => 0 <= id < Z.of_nat (List.length counts))%Z ids ->
  Forall (fun n => 0 <= n)%Z counts ->
  (Zsum (map (fun id => nth (Z.to_nat id) counts 0%Z) ids) <= int_max)%Z ->
  for_each
    (fun lc num_atoms_magnetic =>
       bind (vec_at_nat ids lc) (fun i =>
       bind (vec_at counts i) (fun ni => int_add num_atoms_magnetic ni)))
    (seq 0 (List.length ids)) 0%Z
  = Ok (Zsum (map (fun id => nth (Z.to_nat id) counts 0%Z) ids))
  /\ count_magnetic_atoms s = Fault OutOfRange.
Proof.
  intros ids counts Hshort Hids Hn Hmax.
  set (body := fun lc num_atoms_magnetic =>
       bind (vec_at_nat ids lc) (fun i =>
       bind (vec_at counts i) (fun ni => int_add num_atoms_magnetic ni))).
  destruct (for_each_seq_inv body
              (fun j n => n = listed_atoms ids counts j)
              (List.length ids) 0 0%Z) as (n & Hrun & Hn').
  - reflexivity.
  - intros lc x Hlc ->. unfold body.
    rewrite (vec_at_nat_in_range ids lc 0%Z) by lia. cbn [bind].
    assert (Hid : (0 <= nth lc ids 0 < Z.of_nat (List.length counts))%Z).
    { rewrite Forall_forall in Hids. apply Hids, nth_In. lia. }
    rewrite (vec_at_in_range counts _ 0%Z Hid). cbn [bind].
    assert (Hstep : listed_atoms ids counts (S lc)
                    = (listed_atoms ids counts lc
                       + nth (Z.to_nat (nth lc ids 0)) counts 0%Z)%Z).
    { unfold listed_atoms. rewrite (firstn_snoc_nth ids lc 0%Z) by lia.
      rewrite map_app, Zsum_app. unfold Zsum. simpl. lia. }
    exists (listed_atoms ids counts (S lc)). split; [|reflexivity].
    unfold int_add. rewrite <- Hstep. apply int_checked_in_range.
    pose proof (listed_atoms_bounds ids counts (S lc) Hn). unfold int_min. lia.
  - assert (Hall : n = Zsum (map (fun id => nth (Z.to_nat id) counts 0%Z) ids)).
    { simpl in Hn'. rewrite Hn'. unfold listed_atoms. now rewrite firstn_all. }
    rewrite Hall in Hrun. clear Hn' Hall. split; [exact Hrun|].
    unfold count_magnetic_atoms. fold (local_cells s). fold ids. fold counts.
    fold body.
    assert (Hsplit : seq 0 (local_cells s)
                     = seq 0 (List.length ids)
                       ++ List.length ids
                          :: seq (S (List.length ids))
                               (local_cells s - S (List.length ids))).
    { replace (local_cells s)
        with (List.length ids + S (local_cells s - S (List.length ids)))%nat
        at 1 by lia.
      rewrite seq_app. reflexivity. }
    rewrite Hsplit.
    apply (for_each_faults_at body _ _ _ _ _ _ Hrun).
    unfold body, vec_at_nat.
    destruct (nth_error ids (List.length ids)) eqn:E; [|reflexivity].
    assert (Hsome : nth_error ids (List.length ids) <> None) by congruence.
    apply nth_error_Some in Hsome. lia.
Qed.

End ReadsPastCellIds.

(** X15. The diagnostic reads [cells::cell_id_array], which [initialize]
    does not set from its arguments.  On a first call at simulated time
    zero whose sizes are defined, when that array lists fewer cells than
    [cells_num_local_cells] (valid cells, with populations that are counts
    within [int]), everything up to the diagnostic is done, the count of
    lines 179-182 adds up the populations of the cells listed, and its next
    read, [cells::cell_id_array[lc]] with [lc] the size of the array, is
    past the end of the array: the call is undefined at that read. *)
Theorem first_call_reads_past_cell_ids
    (solver : dipole.arguments -> sym6 matrix * sym6 matrix
              -> sym6 matrix * sym6 matrix)
    (s : dipole.state) (a : dipole.arguments) :
  let ids := cells.cell_id_array (dipole.cells_globals s) in
  let counts := dipole.cells_num_atoms_in_cell a in
  dipole.activated s = true ->
  dipole.internal.initialised (dipole.internals s) = false ->
  dipole.sim_time s = 0%Z ->
  sizes_ok a ->
  (List.length ids < Z.to_nat (dipole.cells_num_local_cells a))%nat ->
  Forall (fun id => 0 <= id < Z.of_nat (List.length counts))%Z ids ->
  Forall (fun n => 0 <= n)%Z counts ->
  (Zsum (map (fun id => nth (Z.to_nat id) counts 0%Z) ids) <= int_max)%Z ->
  dipole.build solver s a = Ok (built solver s a (printed_estimate a))
  /\ for_each
       (fun lc num_atoms_magnetic =>
          bind (vec_at_nat ids lc) (fun i =>
          bind (vec_at counts i) (fun ni => int_add num_atoms_magnetic ni)))
       (seq 0 (List.length ids)) 0%Z
     = Ok (Zsum (map (fun id => nth (Z.to_nat id) counts 0%Z) ids))
  /\ vec_at_nat ids (List.length ids) = Fault OutOfRange
  /\ dipole.count_magnetic_atoms (before_diagnostic solver s a)
     = Fault OutOfRange
  /\ dipole.initialize solver s a = Fault OutOfRange.
Proof.
  intros ids counts Hact Hini Htime Hok Hshort Hids Hn Hmax.
  destruct (first_update_frame (built solver s a (printed_estimate a)))
    as (_ & Hi & Hc & Ht & _).
  fold (before_diagnostic solver s a) in Hi, Hc, Ht.
  destruct (count_reads_past_cell_ids (before_diagnostic solver s a))
    as [Hprefix Hcount].
  - unfold dipole.local_cells. rewrite Hi, Hc. exact Hshort.
  - rewrite Hi, Hc. exact Hids.
  - rewrite Hi. exact Hn.
  - rewrite Hi, Hc. exact Hmax.
  - rewrite Hi, Hc in Hprefix.
    split; [now apply build_defined|].
    split; [exact Hprefix|].
    split.
    { unfold vec_at_nat.
      destruct (nth_error ids (List.length ids)) eqn:E; [|reflexivity].
      assert (Hsome : nth_error ids (List.length ids) <> None) by congruence.
      apply nth_error_Some in Hsome. lia. }
    split; [exact Hcount|].
    unfold dipole.initialize. rewrite Hact, Hini. cbn [negb].
    rewrite (build_defined solver s a Hok). cbn [bind].
    fold (before_diagnostic solver s a).
    rewrite Ht. cbn [dipole.sim_time built]. rewrite Htime. cbn [Z.eqb].
    unfold dipole.demag_diagnostic. rewrite Hcount. reflexivity.
Qed.

(** The module of the small geometry when [cells::cell_id_array] lists
    one local cell only. *)
Definition short_cell_ids_state : dipole.state :=
  dipole.with_cells
    {| cells.num_cells := 0; cells.num_atoms_in_cell := [];
       cells.cell_id_array := [0%Z] |}
    fresh_state.

Lemma first_call_reads_past_cell_ids_witness :
  let ids := cells.cell_id_array (dipole.cells_globals short_cell_ids_state) in
  let counts := dipole.cells_num_atoms_in_cell example_arguments in
  dipole.build example_solver short_cell_ids_state example_arguments
  = Ok (built example_solver short_cell_ids_state example_arguments
          (printed_estimate example_arguments))
  /\ for_each
       (fun lc num_atoms_magnetic =>
          bind (vec_at_nat ids lc) (fun i =>
          bind (vec_at counts i) (fun ni => int_add num_atoms_magnetic ni)))
       (seq 0 (List.length ids)) 0%Z
     = Ok (Zsum (map (fun id => nth (Z.to_nat id) counts 0%Z) ids))
  /\ vec_at_nat ids (List.length ids) = Fault OutOfRange
  /\ dipole.count_magnetic_atoms
       (before_diagnostic example_solver short_cell_ids_state example_arguments)
     = Fault OutOfRange
  /\ dipole.initialize example_solver short_cell_ids_state example_arguments
     = Fault OutOfRange.
Proof.
  apply (first_call_reads_past_cell_ids example_solver short_cell_ids_state
           example_arguments).
  - reflexivity.
  - reflexivity.
  - reflexivity.
  - exact example_sizes_ok.
  - simpl. lia.
  - repeat constructor; simpl; lia.
  - repeat constructor; lia.
  - vm_compute. discriminate.
Defined.
